(** * Startup safety of the rewards eligibility oracle

    A shallow embedding of [src/utils/lock_manager.py] (the instance lock)
    and of the credential resolver of [src/utils/configuration.py], with the
    properties of the specification stated and proved over the embedding.

    Python text is modelled by [string] (code points below 256, which the
    encoding of the locale is taken to encode, as UTF-8 and Latin-1 do), the
    filesystem and the table of [flock] owners by finite maps, Python
    exceptions by an explicit result type, and the methods of [LockManager]
    by a state-and-exception monad over the pair of [self] and the
    operating-system state. *)

From Stdlib Require Import Ascii String Decimal DecimalString.
From stdpp Require Import base option list gmap strings.

Local Open Scope string_scope.

(** ** Python text operations used by the source *)

Module PyStr.

Definition newline : ascii := "010"%char.
Definition carriage_return : ascii := "013"%char.
Definition equals_sign : ascii := "="%char.
Definition dquote : ascii := "034"%char.

(** [str.isspace] on one code point below 256: the characters that
    [str.strip()] removes. *)
Definition is_space (c : ascii) : bool :=
  let n := nat_of_ascii c in
  (((9 <=? n) && (n <=? 13)) || ((28 <=? n) && (n <=? 32))
  || (n =? 133) || (n =? 160))%nat.

Fixpoint lstrip (s : string) : string :=
  match s with
  | "" => ""
  | String c s' => if is_space c then lstrip s' else s
  end.

(** [rstrip] by structural recursion: a character is dropped when it is a
    space and everything after it has been dropped. *)
Fixpoint rstrip (s : string) : string :=
  match s with
  | "" => ""
  | String c s' =>
      match rstrip s' with
      | "" => if is_space c then "" else String c ""
      | r => String c r
      end
  end.

(** [s.strip()] *)
Definition strip (s : string) : string := rstrip (lstrip s).

(** [s.split(sep)] for a one-character separator: never the empty list. *)
Fixpoint split (sep : ascii) (s : string) : list string :=
  match s with
  | "" => [""]
  | String c s' =>
      if Ascii.eqb c sep then "" :: split sep s'
      else match split sep s' with
           | h :: t => String c h :: t
           | [] => [String c ""]
           end
  end.

(** [c in s] for a one-character needle. *)
Fixpoint contains_char (c : ascii) (s : string) : bool :=
  match s with
  | "" => false
  | String d s' => Ascii.eqb d c || contains_char c s'
  end.

(** [s.split(sep, 1)] on a string that contains [sep]: the text before the
    first separator and the text after it. *)
Fixpoint split_once (sep : ascii) (s : string) : string * string :=
  match s with
  | "" => ("", "")
  | String c s' =>
      if Ascii.eqb c sep then ("", s')
      else let '(k, v) := split_once sep s' in (String c k, v)
  end.

(** [needle in s] for text. *)
Fixpoint is_prefix (p s : string) : bool :=
  match p, s with
  | "", _ => true
  | String a p', String b s' => Ascii.eqb a b && is_prefix p' s'
  | String _ _, "" => false
  end.

Fixpoint contains (needle s : string) : bool :=
  is_prefix needle s ||
  match s with
  | "" => false
  | String _ s' => contains needle s'
  end.

(** [str(n)] for a non-negative integer. *)
Definition of_N (n : N) : string := NilEmpty.string_of_uint (N.to_uint n).

(** A text without line break. *)
Definition single_line (s : string) : bool := negb (contains_char newline s).

(** What a file opened in text mode gives back for the text it holds: with
    the universal newlines that [open] and [Path.read_text] apply by
    default, a carriage return, alone or followed by a line feed, is read as
    one line feed. *)
Fixpoint universal_newlines (s : string) : string :=
  match s with
  | "" => ""
  | String c s' =>
      if Ascii.eqb c carriage_return then
        String newline
          match s' with
          | String d s'' =>
              if Ascii.eqb d newline then universal_newlines s''
              else universal_newlines s'
          | "" => ""
          end
      else String c (universal_newlines s')
  end.

(** A text that is read as it was written. *)
Definition no_carriage_return (s : string) : bool :=
  negb (contains_char carriage_return s).

Definition hex_digit (n : nat) : ascii :=
  match n with
  | 0 => "0" | 1 => "1" | 2 => "2" | 3 => "3" | 4 => "4" | 5 => "5"
  | 6 => "6" | 7 => "7" | 8 => "8" | 9 => "9" | 10 => "a" | 11 => "b"
  | 12 => "c" | 13 => "d" | 14 => "e" | _ => "f"
  end%char.

(** [str.isprintable] on one code point below 256. *)
Definition is_printable (c : ascii) : bool :=
  let n := nat_of_ascii c in
  (((32 <=? n) && (n <=? 126)) || ((161 <=? n) && negb (n =? 173)))%nat.

Definition repr_char (quote : ascii) (c : ascii) : string :=
  let n := nat_of_ascii c in
  if Ascii.eqb c quote || Ascii.eqb c "\"
  then String "\" (String c "")
  else if (n =? 9)%nat then "\t"
  else if (n =? 10)%nat then "\n"
  else if (n =? 13)%nat then "\r"
  else if is_printable c then String c ""
  else String "\" (String "x"
         (String (hex_digit (n / 16)) (String (hex_digit (n mod 16)) ""))).

Fixpoint repr_body (quote : ascii) (s : string) : string :=
  match s with
  | "" => ""
  | String c s' => repr_char quote c ++ repr_body quote s'
  end.

(** [repr(s)]: single quotes unless the text has a single quote and no
    double quote. *)
Definition repr (s : string) : string :=
  let quote : ascii :=
    if contains_char "'" s && negb (contains_char dquote s)
    then dquote else "'"%char in
  String quote (repr_body quote s ++ String quote "").

End PyStr.

(** ** Exceptions, results and the log *)

(** The exception classes that the lock manager raises or meets. All of them
    are subclasses of [Exception]; [BlockingIOError] is the one [flock]
    raises for a lock held through another open file. *)
Inductive exn : Type :=
| BlockingIOError
| OSError (msg : string)
| ValueError (msg : string)
| TypeError (msg : string)
| AttributeError (msg : string)
| LockAcquisitionError (msg : string)
| PyException (msg : string).

(** [str(e)] *)
Definition exn_str (e : exn) : string :=
  match e with
  | BlockingIOError => "[Errno 11] Resource temporarily unavailable"
  | OSError m | ValueError m | TypeError m | AttributeError m
  | LockAcquisitionError m | PyException m => m
  end.

Inductive result (A : Type) : Type :=
| Return (a : A)
| Raise (e : exn).
Arguments Return {A} a.
Arguments Raise {A} e.

Definition is_return {A} (r : result A) : bool :=
  match r with Return _ => true | Raise _ => false end.

Inductive level : Type := INFO | WARNING | ERROR.

(** ** State and exceptions

    A computation over a state [S] that returns a value or raises. *)
Definition SE (S A : Type) : Type := S → result A * S.

#[global] Instance SE_ret {S} : MRet (SE S) := λ A a s, (Return a, s).
#[global] Instance SE_bind {S} : MBind (SE S) := λ A B f m s,
  match m s with
  | (Return a, s') => f a s'
  | (Raise e, s') => (Raise e, s')
  end.

Definition raise {S A} (e : exn) : SE S A := λ s, (Raise e, s).

(** [try: body except Exception as e: handler e] *)
Definition try_except {S A} (body : SE S A) (handler : exn → SE S A)
  : SE S A := λ s,
  match body s with
  | (Return a, s') => (Return a, s')
  | (Raise e, s') => handler e s'
  end.

(** [try: body finally: final] *)
Definition try_finally {S A} (body : SE S A) (final : SE S unit)
  : SE S A := λ s,
  match body s with
  | (r, s') =>
      match final s' with
      | (Return _, s'') => (r, s'')
      | (Raise e, s'') => (Raise e, s'')
      end
  end.

(** ** Operating-system state *)

(** A Python file object as [open] returns it: the open file description it
    owns, whether [close] has run, the text written and not yet flushed, and
    the position of the next write. *)
Record FileObj : Type := mkFileObj {
  fileno : nat;
  closed : bool;
  buffer : string;
  position : nat;
}.

(** The state shared by every handle: file contents by path, directories,
    the owner of the exclusive [flock] of each file (an open file
    description), the open file descriptions and the file each refers to,
    the next fresh description, the I/O failures that the environment is
    going to inject (the head decides the next system call: [Some m] makes
    it raise [OSError(m)]; an exhausted list injects nothing), and the log,
    newest record first. *)
Record World : Type := mkWorld {
  files : gmap string string;
  dirs : gset string;
  flocks : gmap string nat;
  open_files : gmap nat string;
  next_ofd : nat;
  faults : list (option string);
  log : list (level * string);
}.

Definition set_files (f : gmap string string) (w : World) : World :=
  mkWorld f (dirs w) (flocks w) (open_files w) (next_ofd w) (faults w) (log w).
Definition set_dirs (d : gset string) (w : World) : World :=
  mkWorld (files w) d (flocks w) (open_files w) (next_ofd w) (faults w) (log w).
Definition set_flocks (l : gmap string nat) (w : World) : World :=
  mkWorld (files w) (dirs w) l (open_files w) (next_ofd w) (faults w) (log w).
Definition set_open_files (o : gmap nat string) (w : World) : World :=
  mkWorld (files w) (dirs w) (flocks w) o (next_ofd w) (faults w) (log w).
Definition set_next_ofd (n : nat) (w : World) : World :=
  mkWorld (files w) (dirs w) (flocks w) (open_files w) n (faults w) (log w).
Definition set_faults (f : list (option string)) (w : World) : World :=
  mkWorld (files w) (dirs w) (flocks w) (open_files w) (next_ofd w) f (log w).
Definition set_log (l : list (level * string)) (w : World) : World :=
  mkWorld (files w) (dirs w) (flocks w) (open_files w) (next_ofd w) (faults w) l.

(** The process that runs a call: what [os.getpid()],
    [socket.gethostname()] and
    [datetime.now().astimezone().isoformat()] give it. *)
Record Proc : Type := mkProc {
  pid : N;
  hostname : string;
  timestamp : string;
}.

(** ** Paths *)

Module PyPath.

(** [Path.parent] of a normalised path without its last component. *)
Fixpoint parent_go (s : string) : option string :=
  match s with
  | "" => None
  | String c s' =>
      match parent_go s' with
      | Some r => Some (String c r)
      | None => if Ascii.eqb c "/" then Some "" else None
      end
  end.

Definition parent (p : string) : string :=
  match parent_go p with
  | None => "."
  | Some "" => "/"
  | Some d => d
  end.

(** The directory itself and every directory above it, which
    [mkdir(parents=True)] creates when missing. *)
Fixpoint ancestors_go (acc : string) (s : string) : list string :=
  match s with
  | "" => [acc]
  | String c s' =>
      if Ascii.eqb c "/"
      then (if String.eqb acc "" then "/" else acc)
             :: ancestors_go (acc ++ "/") s'
      else ancestors_go (acc ++ String c "") s'
  end.

Definition ancestors (d : string) : list string := ancestors_go "" d.

End PyPath.

(** ** The lock manager object and the state of its methods *)

Record LockManager : Type := mkLockManager {
  lock_file_path : string;
  lock_file_handle : option FileObj;
}.

Record St : Type := mkSt {
  self : LockManager;
  world : World;
}.

Abbreviation M := (SE St).

Definition get_world : M World := λ s, (Return (world s), s).
Definition modify_world (f : World → World) : M unit := λ s,
  (Return tt, mkSt (self s) (f (world s))).
Definition get_self : M LockManager := λ s, (Return (self s), s).

(** [self.lock_file_handle = h]. What the interpreter does to a file object
    that the assignment drops is not modelled: the properties below are
    about a manager that holds no file object when it enters, which is how
    the source uses it (there is no re-entrant acquisition). *)
Definition assign_handle (h : option FileObj) : M unit := λ s,
  (Return tt, mkSt (mkLockManager (lock_file_path (self s)) h) (world s)).

(** [logger.info], [logger.warning], [logger.error] *)
Definition logger (l : level) (msg : string) : M unit :=
  modify_world (λ w, set_log ((l, msg) :: log w) w).

(** The environment's verdict on the next system call. *)
Definition io_fault : M unit := λ s,
  match faults (world s) with
  | [] => (Return tt, s)
  | None :: rest => (Return tt, mkSt (self s) (set_faults rest (world s)))
  | Some m :: rest =>
      (Raise (OSError m), mkSt (self s) (set_faults rest (world s)))
  end.

(** *** System calls and file-object methods *)

(** [Path.mkdir(parents=True, exist_ok=True)]: the directory and the
    missing ones above it are made, and a directory that is there is left
    alone. A regular file in the way makes the call fail, and then nothing
    is made: [FileExistsError] when the file is at the path itself,
    [NotADirectoryError] when it is above it. *)
Definition path_mkdir (d : string) : M unit :=
  io_fault;;
  w ← get_world;
  if bool_decide (Forall (λ a, files w !! a = None) (PyPath.ancestors d))
  then
    modify_world (λ w, set_dirs (dirs w ∪ list_to_set (PyPath.ancestors d)) w)
  else if bool_decide (is_Some (files w !! d))
  then raise (OSError ("[Errno 17] File exists: " ++ PyStr.repr d))
  else raise (OSError ("[Errno 20] Not a directory: " ++ PyStr.repr d)).

(** [open(p, "w")]: creates the file or truncates it to length zero, and
    returns a file object on a fresh open file description. It fails with
    [IsADirectoryError] when the path is a directory, and when the parent
    is no directory: with [NotADirectoryError] when the parent is a regular
    file, with [FileNotFoundError] when it does not exist. *)
Definition open_w (p : string) : M FileObj :=
  io_fault;;
  w ← get_world;
  if bool_decide (p ∈ dirs w)
  then raise (OSError ("[Errno 21] Is a directory: " ++ PyStr.repr p))
  else if bool_decide (PyPath.parent p ∈ dirs w)
  then
    let fd := next_ofd w in
    modify_world (λ w, set_next_ofd (S fd)
                         (set_open_files (<[fd := p]> (open_files w))
                            (set_files (<[p := ""]> (files w)) w)));;
    mret (mkFileObj fd false "" 0)
  else if bool_decide (is_Some (files w !! PyPath.parent p))
  then raise (OSError ("[Errno 20] Not a directory: " ++ PyStr.repr p))
  else raise (OSError ("[Errno 2] No such file or directory: "
                       ++ PyStr.repr p)).

(** The file object behind [self.lock_file_handle]. *)
Definition the_handle : M FileObj :=
  m ← get_self;
  match lock_file_handle m with
  | Some f => mret f
  | None => raise (AttributeError "'NoneType' object has no attribute")
  end.

Definition closed_file_error : exn :=
  ValueError "I/O operation on closed file".

(** [self.lock_file_handle.fileno()] *)
Definition handle_fileno : M nat :=
  f ← the_handle;
  if closed f then raise closed_file_error else mret (fileno f).

(** [fcntl.flock(fd, fcntl.LOCK_EX | fcntl.LOCK_NB)]: the lock belongs to
    the open file description; it is refused, without waiting, while
    another description holds it on the same file. *)
Definition flock_ex_nb (fd : nat) : M unit :=
  io_fault;;
  w ← get_world;
  match open_files w !! fd with
  | None => raise (OSError "[Errno 9] Bad file descriptor")
  | Some p =>
      match flocks w !! p with
      | Some owner =>
          if decide (owner = fd) then mret tt else raise BlockingIOError
      | None => modify_world (λ w, set_flocks (<[p := fd]> (flocks w)) w)
      end
  end.

(** What the operating system drops with an open file description: the
    description and the [flock] it owns. *)
Definition drop_flock (fd : nat) (w : World) : World :=
  match open_files w !! fd with
  | None => w
  | Some p =>
      match flocks w !! p with
      | Some owner =>
          if decide (owner = fd) then set_flocks (delete p (flocks w)) w
          else w
      | None => w
      end
  end.

(** [fcntl.flock(fd, fcntl.LOCK_UN)] *)
Definition flock_un (fd : nat) : M unit :=
  io_fault;;
  w ← get_world;
  match open_files w !! fd with
  | None => raise (OSError "[Errno 9] Bad file descriptor")
  | Some _ => modify_world (drop_flock fd)
  end.

(** Writing [data] at offset [pos]: a gap is filled with NUL characters. *)
Definition nul_pad (n : nat) : string :=
  string_of_list_ascii (repeat Ascii.zero n).

Definition substring_from (n : nat) (s : string) : string :=
  String.substring n (String.length s - n) s.

Definition write_at (content : string) (pos : nat) (data : string) : string :=
  String.substring 0 pos content
  ++ nul_pad (pos - String.length content)
  ++ data
  ++ substring_from (pos + String.length data) content.

(** [self.lock_file_handle.write(data)]: the text goes to the buffer of the
    file object. The file is open in text mode: on POSIX, where [fcntl]
    exists, a line feed is written as it is, and so is every other
    character. *)
Definition handle_write (data : string) : M unit :=
  f ← the_handle;
  if closed f then raise closed_file_error
  else
    io_fault;;
    assign_handle
      (Some (mkFileObj (fileno f) false (buffer f ++ data) (position f))).

(** [self.lock_file_handle.flush()]: the buffered text reaches the file. *)
Definition handle_flush : M unit :=
  f ← the_handle;
  if closed f then raise closed_file_error
  else if String.eqb (buffer f) "" then mret tt
  else
    io_fault;;
    w ← get_world;
    match open_files w !! fileno f with
    | None => raise (OSError "[Errno 9] Bad file descriptor")
    | Some p =>
        modify_world (λ w,
          set_files (<[p := write_at (default "" (files w !! p))
                                     (position f) (buffer f)]> (files w)) w);;
        assign_handle
          (Some (mkFileObj (fileno f) false ""
                   (position f + String.length (buffer f))))
    end.

(** [m], with an exception it raises turned into a value. *)
Definition attempt (m : M unit) : M (option exn) :=
  try_except (m;; mret None) (λ e, mret (Some e)).

(** [self.lock_file_handle.close()]: nothing on a closed object; otherwise
    the buffer is flushed and the description given back, and the object is
    closed even when one of the two steps fails. *)
Definition handle_close : M unit :=
  f ← the_handle;
  if closed f then mret tt
  else
    flushed ← attempt handle_flush;
    released ← attempt io_fault;
    modify_world (λ w,
      set_open_files (delete (fileno f) (open_files w))
        (drop_flock (fileno f) w));;
    f' ← the_handle;
    assign_handle
      (Some (mkFileObj (fileno f') true (buffer f') (position f')));;
    match released, flushed with
    | Some e, _ => raise e
    | None, Some e => raise e
    | None, None => mret tt
    end.

(** [Path.exists()] *)
Definition path_exists (p : string) : M bool :=
  io_fault;;
  w ← get_world;
  mret (bool_decide (is_Some (files w !! p)) || bool_decide (p ∈ dirs w)).

(** [Path.read_text()]: the file is opened in text mode, so the text comes
    back with universal newlines. *)
Definition path_read_text (p : string) : M string :=
  io_fault;;
  w ← get_world;
  match files w !! p with
  | Some c => mret (PyStr.universal_newlines c)
  | None =>
      if bool_decide (p ∈ dirs w)
      then raise (OSError ("[Errno 21] Is a directory: " ++ PyStr.repr p))
      else raise (OSError ("[Errno 2] No such file or directory: "
                           ++ PyStr.repr p))
  end.

(** ** [LockManager] *)

(** The value given to the constructor. *)
Inductive py_arg : Type :=
| ArgNone
| ArgPath (p : string)
| ArgOther (type_name : string).

Definition default_lock_file_path : string := "/app/data/oracle.lock".

(** [LockManager.__init__] *)
Definition __init__ (lock_file_path : py_arg) : result LockManager :=
  match lock_file_path with
  | ArgOther type_name =>
      Raise (TypeError
               ("lock_file_path must be a Path object, got " ++ type_name))
  | ArgPath p => Return (mkLockManager p None)
  | ArgNone => Return (mkLockManager default_lock_file_path None)
  end.

(** A Python [dict] with text keys and values, in insertion order. *)
Fixpoint dict_set (k v : string) (d : list (string * string))
  : list (string * string) :=
  match d with
  | [] => [(k, v)]
  | (k', v') :: d' =>
      if String.eqb k' k then (k', v) :: d' else (k', v') :: dict_set k v d'
  end.

Fixpoint dict_get (k : string) (d : list (string * string)) : option string :=
  match d with
  | [] => None
  | (k', v') :: d' => if String.eqb k' k then Some v' else dict_get k d'
  end.

(** [str(d)] *)
Definition dict_str (d : list (string * string)) : string :=
  "{" ++ String.concat ", "
           (map (λ kv, PyStr.repr (fst kv) ++ ": " ++ PyStr.repr (snd kv)) d)
      ++ "}".

(** [str(holder_info)] for the [Optional[dict]] of [get_lock_holder_info]. *)
Definition holder_info_str (h : option (list (string * string))) : string :=
  match h with
  | None => "None"
  | Some d => dict_str d
  end.

(** The loop of [get_lock_holder_info] over the lines of the file. *)
Definition parse_metadata (content : string) : list (string * string) :=
  foldl (λ metadata line,
           if PyStr.contains_char PyStr.equals_sign line
           then let '(key, value) := PyStr.split_once PyStr.equals_sign line in
                dict_set key value metadata
           else metadata)
        [] (PyStr.split PyStr.newline (PyStr.strip content)).

(** [LockManager.get_lock_holder_info] *)
Definition get_lock_holder_info : M (option (list (string * string))) :=
  try_except
    (m ← get_self;
     present ← path_exists (lock_file_path m);
     if negb present then mret None
     else
       content ← path_read_text (lock_file_path m);
       mret (Some (parse_metadata content)))
    (λ e,
       logger WARNING ("Failed to read lock holder info: " ++ exn_str e);;
       mret None).

(** The first two lines of the lock file, without their line break. *)
Definition pid_line (pr : Proc) : string := "pid=" ++ PyStr.of_N (pid pr).
Definition hostname_line (pr : Proc) : string := "hostname=" ++ hostname pr.

(** The text that [_write_lock_metadata] writes. *)
Definition metadata_text (pr : Proc) : string :=
  "pid=" ++ PyStr.of_N (pid pr) ++ String PyStr.newline
  ("hostname=" ++ hostname pr ++ String PyStr.newline
  ("timestamp=" ++ timestamp pr ++ String PyStr.newline "")).

(** [LockManager._write_lock_metadata] *)
Definition _write_lock_metadata (pr : Proc) : M unit :=
  try_except
    (handle_write (metadata_text pr);;
     handle_flush)
    (λ e, logger WARNING ("Failed to write lock metadata: " ++ exn_str e)).

(** The two handlers of [__enter__] end alike: "Clean up file handle". *)
Definition clean_up_file_handle : M unit :=
  m ← get_self;
  match lock_file_handle m with
  | Some _ => handle_close;; assign_handle None
  | None => mret tt
  end.

(** The statements of [__enter__] that precede the lock request: the parent
    directory, the file opened for writing, its descriptor. *)
Definition open_lock_file : M nat :=
  m ← get_self;
  path_mkdir (PyPath.parent (lock_file_path m));;
  f ← open_w (lock_file_path m);
  assign_handle (Some f);;
  handle_fileno.

Definition lock_held_message (h : option (list (string * string))) : string :=
  "Lock already held by another instance: " ++ holder_info_str h.

(** The [try] block of [__enter__]. *)
Definition enter_try (pr : Proc) : M unit :=
  fd ← open_lock_file;
  flock_ex_nb fd;;
  _write_lock_metadata pr;;
  m ← get_self;
  logger INFO ("Lock acquired successfully: " ++ lock_file_path m).

(** The [except BlockingIOError] and [except Exception as e] clauses of
    [__enter__]. *)
Definition enter_except (e : exn) : M unit :=
  match e with
  | BlockingIOError =>
      holder_info ← get_lock_holder_info;
      let error_msg := lock_held_message holder_info in
      logger ERROR error_msg;;
      clean_up_file_handle;;
      raise (LockAcquisitionError error_msg)
  | _ =>
      logger ERROR ("Unexpected error acquiring lock: " ++ exn_str e);;
      clean_up_file_handle;;
      raise e
  end.

(** [LockManager.__enter__]; the returned [self] is the one of the state. *)
Definition __enter__ (pr : Proc) : M unit :=
  try_except (enter_try pr) enter_except.

(** The [try] block of [__exit__]. *)
Definition exit_try : M unit :=
  m ← get_self;
  match lock_file_handle m with
  | Some _ =>
      fd ← handle_fileno;
      flock_un fd;;
      handle_close;;
      assign_handle None;;
      logger INFO ("Lock released: " ++ lock_file_path m)
  | None => mret tt
  end.

(** [LockManager.__exit__]; [exc] is the exception of the protected region,
    if it raised one. *)
Definition __exit__ (exc : option exn) : M bool :=
  try_except exit_try
    (λ e, logger ERROR ("Error releasing lock: " ++ exn_str e));;
  mret false.

(** [with lock_manager: body], as Python runs it: [None] is the outcome of a
    region whose exception [__exit__] suppressed. *)
Definition with_statement {A} (pr : Proc) (body : M A) : M (option A) := λ s,
  match __enter__ pr s with
  | (Raise e, s1) => (Raise e, s1)
  | (Return _, s1) =>
      match body s1 with
      | (Return a, s2) =>
          match __exit__ None s2 with
          | (Return _, s3) => (Return (Some a), s3)
          | (Raise e, s3) => (Raise e, s3)
          end
      | (Raise e, s2) =>
          match __exit__ (Some e) s2 with
          | (Return true, s3) => (Return None, s3)
          | (Return false, s3) => (Raise e, s3)
          | (Raise e', s3) => (Raise e', s3)
          end
      end
  end.

(** Running a method of a manager on a world. *)
Definition run {A} (m : M A) (lm : LockManager) (w : World)
  : result A * LockManager * World :=
  let '(r, s) := m (mkSt lm w) in (r, self s, world s).

(** An empty machine: no file, no lock, no injected failure. *)
Definition empty_world : World := mkWorld ∅ ∅ ∅ ∅ 0 [] [].

(** Whether the manager owns the exclusive lock of its file: it has an open
    file object whose description is the registered owner. *)
Definition holds (m : LockManager) (w : World) : bool :=
  match lock_file_handle m with
  | Some f =>
      negb (closed f)
      && bool_decide (flocks w !! lock_file_path m = Some (fileno f))
  | None => false
  end.

(** A regular file in its place: the file exists, it is no directory, and
    the directories above it exist and are no files. *)
Definition regular_file (p : string) (w : World) : Prop :=
  is_Some (files w !! p) ∧ (p ∉ dirs w)
  ∧ Forall (λ a, a ∈ dirs w ∧ files w !! a = None)
      (PyPath.ancestors (PyPath.parent p)).

(** Consistency of the operating-system state: descriptions are numbered
    below the next fresh one, the owner of a lock is an open description
    of the locked file, and an open description is one of a regular file in
    its place: the machine has no call that removes or renames a file. *)
Definition wf_world (w : World) : Prop :=
  map_Forall (λ fd _, fd < next_ofd w) (open_files w)
  ∧ map_Forall (λ p fd, open_files w !! fd = Some p) (flocks w)
  ∧ map_Forall (λ _ p, regular_file p w) (open_files w).

#[global] Instance wf_world_dec w : Decision (wf_world w).
Proof. unfold wf_world, regular_file. apply _. Defined.

(** What [__enter__] needs of the filesystem to get to the lock request at
    path [p]: no directory above the lock file is a regular file, and the
    path is no directory, neither on the machine nor among the directories
    that [mkdir] makes. *)
Definition lock_path_usable (p : string) (w : World) : Prop :=
  Forall (λ a, files w !! a = None) (PyPath.ancestors (PyPath.parent p))
  ∧ (p ∉ dirs w)
  ∧ (p ∉ PyPath.ancestors (PyPath.parent p)).

#[global] Instance lock_path_usable_dec p w : Decision (lock_path_usable p w).
Proof. unfold lock_path_usable. apply _. Defined.

(** The lock file format of the specification: exactly three
    newline-terminated [key=value] lines, with keys [pid], [hostname] and
    [timestamp] in this order, the first value being [str(pid)]. *)
Definition lock_file_ok (pid : N) (content : string) : bool :=
  match PyStr.split PyStr.newline content with
  | [l1; l2; l3; ""] =>
      forallb (PyStr.contains_char PyStr.equals_sign) [l1; l2; l3]
      && bool_decide
           (map (λ l, fst (PyStr.split_once PyStr.equals_sign l)) [l1; l2; l3]
            = ["pid"; "hostname"; "timestamp"])
      && String.eqb (snd (PyStr.split_once PyStr.equals_sign l1))
                    (PyStr.of_N pid)
  | _ => false
  end.

(** ** Acquisition in an environment that injects no failure

    The machine after [mkdir] and [open], after a granted acquisition, and
    after a refused one. *)

Definition opened_world (p : string) (w : World) : World :=
  set_next_ofd (S (next_ofd w))
    (set_open_files (<[next_ofd w := p]> (open_files w))
       (set_files (<[p := ""]> (files w))
          (set_dirs
             (dirs w ∪ list_to_set (PyPath.ancestors (PyPath.parent p))) w))).

Definition acquired_world (pr : Proc) (p : string) (w : World) : World :=
  set_log ((INFO, "Lock acquired successfully: " ++ p) :: log w)
    (set_files (<[p := metadata_text pr]> (files (opened_world p w)))
       (set_flocks (<[p := next_ofd w]> (flocks w)) (opened_world p w))).

Definition refused_world (p : string) (w : World) : World :=
  set_log ((ERROR, lock_held_message (Some [])) :: log w)
    (set_open_files (delete (next_ofd w) (open_files (opened_world p w)))
       (opened_world p w)).

(** ** The scenario of the test suite

    Two independent handles on one path, on a machine that starts empty. *)

Definition test_lock_path : string := "/tmp/locks/test.lock".

Definition first_lock : LockManager := mkLockManager test_lock_path None.
Definition second_lock : LockManager := mkLockManager test_lock_path None.

Definition first_proc : Proc :=
  mkProc 4242 "oracle-0" "2025-01-01T00:00:00+00:00".
Definition second_proc : Proc :=
  mkProc 4343 "oracle-1" "2025-01-01T00:00:05+00:00".

(** [first_lock.__enter__()] on the empty machine. *)
Definition first_lock_held : LockManager :=
  snd (fst (run (__enter__ first_proc) first_lock empty_world)).
Definition world_held : World :=
  snd (run (__enter__ first_proc) first_lock empty_world).

(** The refused attempt of the second handle, on the machine where the
    first one holds the lock. *)
Definition world_refused : World :=
  snd (run (__enter__ second_proc) second_lock world_held).

(** The same machine with a full disk: the directory, the file, the lock
    and the buffered write are granted, the flush of the metadata is
    refused. *)
Definition disk_full_world : World :=
  set_faults
    [None; None; None; None; Some "[Errno 28] No space left on device"]
    empty_world.

(** The lock file that [test_stale_lock_cleanup_when_process_dead] leaves
    behind for a dead holder. *)
Definition stale_content : string :=
  "pid=999999" ++ String PyStr.newline
  ("hostname=old-host" ++ String PyStr.newline
   "timestamp=2025-01-01T00:00:00+00:00").

Definition stale_world : World :=
  set_files {[test_lock_path := stale_content]} empty_world.

(** ** The parser of [get_lock_holder_info], line by line

    One turn of the loop of [get_lock_holder_info]: [parse_metadata] is the
    fold of this step over the lines. *)
Definition metadata_step (metadata : list (string * string)) (line : string)
  : list (string * string) :=
  if PyStr.contains_char PyStr.equals_sign line
  then let '(key, value) := PyStr.split_once PyStr.equals_sign line in
       dict_set key value metadata
  else metadata.

(** The line [k=v]. *)
Definition assignment (k v : string) : string :=
  k ++ String PyStr.equals_sign v.

(** [v] is what the last line [k=...] of [lines] assigns to [k]. *)
Definition last_assignment (k : string) (lines : list string) (v : string)
  : Prop :=
  ∃ before after,
    lines = (before ++ assignment k v :: after)%list
    ∧ ∀ v', assignment k v' ∉ after.

(** ** Reasoning about runs

    [wp m Q E s]: the run of [m] from [s] ends in a state that satisfies [Q]
    with the value it returns, or [E] with the exception it raises. *)
Definition wp {S A} (m : SE S A) (Q : A → S → Prop) (E : exn → S → Prop)
  (s : S) : Prop :=
  match m s with
  | (Return a, s') => Q a s'
  | (Raise e, s') => E e s'
  end.

(** A manager that holds no open file object. *)
Definition idle (m : LockManager) : bool :=
  match lock_file_handle m with
  | None => true
  | Some f => closed f
  end.

(** The open file description behind the manager's file object, if it holds
    an open one. *)
Definition live_handle (m : LockManager) : option nat :=
  match lock_file_handle m with
  | Some f => if closed f then None else Some (fileno f)
  | None => None
  end.

(** What a method of a manager on path [p] that works through the open file
    description [fd] keeps, and what it leaves as it was on the machine
    [w0] where it started: the manager's path; [fd] is open exactly while
    the manager holds an open file object, which is then on [fd], and [fd]
    is open on [p]; the machine is consistent; the other
    files, the other descriptions, the locks of the other paths and the
    lock that another description owns on [p] are untouched; directories,
    fresh descriptions and log records are only added. *)
Record lock_inv (p : string) (fd : nat) (w0 : World) (s : St) : Prop :=
  mk_lock_inv {
  inv_path : lock_file_path (self s) = p;
  inv_handle : ∀ k, live_handle (self s) = Some k →
               k = fd ∧ open_files (world s) !! fd = Some p;
  inv_fd : ∀ q, open_files (world s) !! fd = Some q →
           q = p ∧ live_handle (self s) = Some fd;
  inv_wf : wf_world (world s);
  inv_files : ∀ q, q ≠ p → files (world s) !! q = files w0 !! q;
  inv_open : ∀ k, k ≠ fd → open_files (world s) !! k = open_files w0 !! k;
  inv_flocks : ∀ q, q ≠ p → flocks (world s) !! q = flocks w0 !! q;
  inv_owner : ∀ o, o ≠ fd →
              flocks (world s) !! p = Some o ↔ flocks w0 !! p = Some o;
  inv_dirs : dirs w0 ⊆ dirs (world s);
  inv_next : (next_ofd w0 ≤ next_ofd (world s))%nat;
  inv_log : log w0 `suffix_of` log (world s);
}.

(** ** Several managers on one machine

    The managers of a system are independent handles, in one process or in
    several, on the same filesystem. A schedule is a sequence of method
    calls, each by one of the managers; [__enter__] is called on a manager
    that holds no open file object. *)
Inductive call : Type :=
| CallEnter (pr : Proc)
| CallExit (exc : option exn)
| CallInfo.

Definition run_call (c : call) (m : LockManager) (w : World)
  : option (LockManager * World) :=
  match c with
  | CallEnter pr =>
      if idle m
      then let '(_, m', w') := run (__enter__ pr) m w in Some (m', w')
      else None
  | CallExit exc =>
      let '(_, m', w') := run (__exit__ exc) m w in Some (m', w')
  | CallInfo =>
      let '(_, m', w') := run get_lock_holder_info m w in Some (m', w')
  end.

Definition system : Type := list LockManager * World.

Definition system_step (σ : system) (ic : nat * call) : option system :=
  m ← fst σ !! fst ic;
  '(m', w') ← run_call (snd ic) m (snd σ);
  Some (<[fst ic := m']> (fst σ), w').

Fixpoint system_run (σ : system) (schedule : list (nat * call))
  : option system :=
  match schedule with
  | [] => Some σ
  | ic :: rest => σ' ← system_step σ ic; system_run σ' rest
  end.

(** What every schedule keeps: the machine is consistent, the open file
    object of a manager is an open description of its lock file, and no two
    managers share a description. *)
Record system_inv (σ : system) : Prop := mk_system_inv {
  sys_wf : wf_world (snd σ);
  sys_open : ∀ i m k, fst σ !! i = Some m → live_handle m = Some k →
             open_files (snd σ) !! k = Some (lock_file_path m);
  sys_distinct : ∀ i j mi mj k,
    fst σ !! i = Some mi → fst σ !! j = Some mj →
    live_handle mi = Some k → live_handle mj = Some k → i = j;
}.

(** The description through which the next call of a manager works: the one
    of its open file object, or the one that [open] is going to return. *)
Definition active_fd (m : LockManager) (w : World) : nat :=
  default (next_ofd w) (live_handle m).

(** Every open description is the one of a manager's open file object. *)
Definition owned (σ : system) : Prop :=
  ∀ k q, open_files (snd σ) !! k = Some q →
         ∃ i m, fst σ !! i = Some m ∧ live_handle m = Some k.

(** The two handles of the test suite as a system, and a schedule in which
    the second one is refused, asks who holds the lock, and acquires it once
    the first one has released it. *)
Definition two_managers : system := ([first_lock; second_lock], empty_world).

Definition contention_schedule : list (nat * call) :=
  [(0, CallEnter first_proc); (1, CallEnter second_proc); (1, CallInfo);
   (0, CallExit None); (1, CallEnter second_proc)].

Definition two_managers_final : system :=
  default two_managers (system_run two_managers contention_schedule).

(** A machine on which the lock request of the next acquisition fails with
    an I/O error, after the directory and the file have been granted. *)
Definition flock_fault_world : World :=
  set_faults [None; None; Some "[Errno 5] Input/output error"] empty_world.

(** A schedule after which nobody holds the lock. *)
Definition release_schedule : list (nat * call) :=
  [(0, CallEnter first_proc); (0, CallExit None)].

Definition two_managers_released : system :=
  default two_managers (system_run two_managers release_schedule).

(** The machine on which the first handle holds the lock and the next
    system call, the unlock of its release, fails. *)
Definition unlock_fault_world : World :=
  set_faults [Some "[Errno 5] Input/output error"] world_held.

(** The machine right after [open]: the lock file is there, empty, open on
    description 0. *)
Definition opened_test_world : World :=
  opened_world test_lock_path empty_world.

(** The system in which the first handle holds the lock, and the same after
    the refused attempt of the second. *)
Definition two_managers_held : system :=
  default two_managers
    (system_run two_managers [(0, CallEnter first_proc)]).

Definition two_managers_refused : system :=
  default two_managers
    (system_step two_managers_held (1, CallEnter second_proc)).

(** ** The credential resolver

    [src/utils/configuration.py] is not among the sources: only its tests
    are. The resolver is modelled from the specification (section 4.2), and
    from [tests/test_configuration.py] where a test pins down a message or a
    behaviour. *)

(** A JSON document as [json.loads] returns it. *)
#[local] Set Warnings "-register-all".
Inductive jvalue : Type :=
| JNull
| JBool (b : bool)
| JNum (n : Z)
| JStr (s : string)
| JArr (items : list jvalue)
| JObj (members : list (string * jvalue)).

(** The mapping of a JSON object; a later member wins over an earlier one
    with the same name. A document that is not an object has no member. *)
Definition members_of (v : jvalue) : gmap string jvalue :=
  match v with
  | JObj members => list_to_map (reverse members)
  | _ => ∅
  end.

(** Python truth of a JSON value: what "non-empty" means for a field. *)
Definition truthy (v : jvalue) : bool :=
  match v with
  | JNull => false
  | JBool b => b
  | JNum n => negb (Z.eqb n 0)
  | JStr s => negb (String.eqb s "")
  | JArr items => match items with [] => false | _ => true end
  | JObj members => match members with [] => false | _ => true end
  end.

Definition present (d : gmap string jvalue) (k : string) : bool :=
  bool_decide (is_Some (d !! k)).

Definition present_non_empty (d : gmap string jvalue) (k : string) : bool :=
  match d !! k with
  | Some v => truthy v
  | None => false
  end.

(** A credential object of the SDK. *)
Inductive Cred : Type :=
| ServiceAccountCred (info : gmap string jvalue)
| UserCred (refresh_token client_id client_secret : option jvalue)
           (token_uri : string)
| AmbientCred (scopes : list string).

(** The state of the resolver: the process environment, the [dict] objects
    by reference, the next fresh reference, the files (content and
    permission bits), what the SDK constructor and the ambient discovery
    raise when they fail ([None]: they succeed), the credentials installed
    as default, the memoized result of ambient discovery, and the log. *)
Record RState : Type := mkRState {
  environ : gmap string string;
  heap : gmap nat (gmap string jvalue);
  next_ref : nat;
  fs : gmap string (string * N);
  sdk_error : option string;
  adc_error : option string;
  default_credentials : option Cred;
  cached_credentials : option Cred;
  rlog : list (level * string);
}.

Abbreviation R := (SE RState).

Definition set_environ (e : gmap string string) (st : RState) : RState :=
  mkRState e (heap st) (next_ref st) (fs st) (sdk_error st) (adc_error st)
    (default_credentials st) (cached_credentials st) (rlog st).
Definition set_heap (h : gmap nat (gmap string jvalue)) (n : nat)
  (st : RState) : RState :=
  mkRState (environ st) h n (fs st) (sdk_error st) (adc_error st)
    (default_credentials st) (cached_credentials st) (rlog st).
Definition set_fs (f : gmap string (string * N)) (st : RState) : RState :=
  mkRState (environ st) (heap st) (next_ref st) f (sdk_error st)
    (adc_error st) (default_credentials st) (cached_credentials st) (rlog st).
Definition set_default_credentials (c : option Cred) (st : RState) : RState :=
  mkRState (environ st) (heap st) (next_ref st) (fs st) (sdk_error st)
    (adc_error st) c (cached_credentials st) (rlog st).
Definition set_cached_credentials (c : option Cred) (st : RState) : RState :=
  mkRState (environ st) (heap st) (next_ref st) (fs st) (sdk_error st)
    (adc_error st) (default_credentials st) c (rlog st).
Definition set_rlog (l : list (level * string)) (st : RState) : RState :=
  mkRState (environ st) (heap st) (next_ref st) (fs st) (sdk_error st)
    (adc_error st) (default_credentials st) (cached_credentials st) l.

Definition get_state : R RState := λ st, (Return st, st).
Definition modify_state (f : RState → RState) : R unit := λ st,
  (Return tt, f st).

Definition rlogger (l : level) (msg : string) : R unit :=
  modify_state (λ st, set_rlog ((l, msg) :: rlog st) st).

(** A new [dict] object. *)
Definition alloc (d : gmap string jvalue) : R nat :=
  st ← get_state;
  modify_state (set_heap (<[next_ref st := d]> (heap st)) (S (next_ref st)));;
  mret (next_ref st).

(** The content of a [dict] object. *)
Definition deref (r : nat) : R (gmap string jvalue) :=
  st ← get_state;
  mret (default ∅ (heap st !! r)).

(** [d.clear()] *)
Definition dict_clear (r : nat) : R unit :=
  modify_state (λ st, set_heap (<[r := ∅]> (heap st)) (next_ref st) st).

(** [d.copy()] *)
Definition dict_copy (r : nat) : R nat :=
  d ← deref r;
  alloc d.

Definition GOOGLE_APPLICATION_CREDENTIALS : string :=
  "GOOGLE_APPLICATION_CREDENTIALS".

Definition staging_path : string := "/tmp/gcp-credentials.json".

Definition owner_read_write : N := 384.

Definition adc_scopes : list string :=
  ["https://www.googleapis.com/auth/bigquery";
   "https://www.googleapis.com/auth/cloud-platform"].

(** [service_account.Credentials.from_service_account_info(info)] *)
Definition from_service_account_info (info : gmap string jvalue) : R Cred :=
  st ← get_state;
  match sdk_error st with
  | Some text => raise (PyException text)
  | None => mret (ServiceAccountCred info)
  end.

(** [Credentials(token=None, refresh_token=.., client_id=..,
    client_secret=.., token_uri=..)] *)
Definition user_credentials (info : gmap string jvalue) : R Cred :=
  st ← get_state;
  match sdk_error st with
  | Some text => raise (PyException text)
  | None =>
      mret (UserCred (info !! "refresh_token") (info !! "client_id")
              (info !! "client_secret")
              "https://oauth2.googleapis.com/token")
  end.

(** [google.auth.default(scopes=..)] *)
Definition google_auth_default (scopes : list string) : R Cred :=
  st ← get_state;
  match adc_error st with
  | Some text => raise (PyException text)
  | None => mret (AmbientCred scopes)
  end.

(** The two variants of a descriptor, in the words of the specification:
    [service_account] with [private_key], [client_email] and [project_id]
    present and non-empty, or [authorized_user] with [client_id],
    [client_secret] and [refresh_token]. *)
Definition valid_descriptor (d : gmap string jvalue) : bool :=
  match d !! "type" with
  | Some (JStr t) =>
      (String.eqb t "service_account"
       && forallb (present_non_empty d)
            ["private_key"; "client_email"; "project_id"])
      || (String.eqb t "authorized_user"
          && forallb (present d)
               ["client_id"; "client_secret"; "refresh_token"])
  | _ => false
  end.

(** [creds_data.get("type") == "authorized_user"], and the name of the
    variant that is built: service account credentials unless the type is
    [authorized_user]. *)
Definition is_authorized_user (d : gmap string jvalue) : bool :=
  match d !! "type" with
  | Some (JStr t) => String.eqb t "authorized_user"
  | _ => false
  end.

Definition variant_name (d : gmap string jvalue) : string :=
  if is_authorized_user d then "authorized_user" else "service_account".

(** The descriptors of the test suite, and a resolver whose SDK fails the
    way the tests make it fail. *)
Definition service_account_descriptor : gmap string jvalue :=
  list_to_map [("type", JStr "service_account"); ("private_key", JStr "pk");
               ("client_email", JStr "ce"); ("project_id", JStr "pi")].

Definition authorized_user_descriptor : gmap string jvalue :=
  list_to_map [("type", JStr "authorized_user"); ("client_id", JStr "ci");
               ("client_secret", JStr "cs"); ("refresh_token", JStr "rt")].

Definition sdk_failing_state (d : gmap string jvalue) : RState :=
  mkRState ∅ {[0 := d]} 1 ∅ (Some "SDK Error") None None None [].

Definition sdk_working_state (d : gmap string jvalue) : RState :=
  mkRState ∅ {[0 := d]} 1 ∅ None None None None [].

(** The resolver before anything has been staged: an empty environment, an
    empty heap and no cached credential. *)
Definition resolver_start : RState :=
  mkRState ∅ ∅ 0 ∅ None None None None [].

Section Resolver.

(** Python's [json] module, and how the resolver tells inline JSON from a
    path: the specification names neither. *)
Variable json_loads : string → option jvalue.
Variable json_dumps : gmap string jvalue → string.
Variable is_inline_json : string → bool.

(** Modelled from the spec: [CredentialManager._parse_and_validate_credentials_json]
    (ParseAndValidate) is missing from the sources. It returns the validated
    descriptor, a new [dict] object. The message of a parse failure is the
    one that [test_prepare_credentials_for_adc_with_invalid_json] expects. *)
Definition _parse_and_validate_credentials_json (raw : string) : R nat :=
  match json_loads raw with
  | None => raise (ValueError "Invalid credentials JSON format")
  | Some v =>
      let creds_data := members_of v in
      match creds_data !! "type" with
      | Some (JStr cred_type) =>
          if String.eqb cred_type "service_account" then
            if forallb (present_non_empty creds_data)
                 ["private_key"; "client_email"; "project_id"]
            then alloc creds_data
            else raise (ValueError "Incomplete service_account credentials")
          else if String.eqb cred_type "authorized_user" then
            if forallb (present creds_data)
                 ["client_id"; "client_secret"; "refresh_token"]
            then alloc creds_data
            else raise (ValueError "Incomplete authorized_user credentials")
          else raise (ValueError "Unsupported credential type")
      | _ => raise (ValueError "Unsupported credential type")
      end
  end.

(** Modelled from the spec: [CredentialManager._setup_service_account_credentials_from_dict]
    is missing from the sources. A failure of the SDK is re-raised as a
    generic error; the text is the one that
    [test_setup_service_account_fails_on_sdk_error] expects. *)
Definition _setup_service_account_credentials_from_dict (creds_data : nat)
  : R unit :=
  try_except
    (info ← deref creds_data;
     credentials ← from_service_account_info info;
     modify_state (set_default_credentials (Some credentials)))
    (λ _, raise (ValueError "Invalid service account credentials")).

(** Modelled from the spec: [CredentialManager._setup_user_credentials_from_dict]
    is missing from the sources. It is a plain wrapper of the SDK
    constructor: [test_setup_authorized_user_propagates_sdk_error] requires
    that the exception of the SDK leaves it with its own text. *)
Definition _setup_user_credentials_from_dict (creds_data : nat) : R unit :=
  info ← deref creds_data;
  credentials ← user_credentials info;
  modify_state (set_default_credentials (Some credentials)).

(** Modelled from the spec: BuildCredential, the part of
    [CredentialManager.setup_google_credentials] that follows validation, is
    missing from the sources. The variant-specific constructor receives a
    copy of the descriptor
    ([test_setup_google_credentials_succeeds_with_service_account_json]
    compares what the constructor received with the parsed document after
    the call). A failure of the construction is caught and re-raised as the
    generic [Invalid <variant> credentials], without the text of the
    exception: this is the handler of the calling method that the comment
    in [test_setup_authorized_user_propagates_sdk_error] refers to. A
    [ValueError] has been made generic where it was raised and goes on as
    it is: [test_setup_google_credentials_clears_creds_dict_on_failure]
    expects the [ValueError] of the service account constructor with its
    own text. The descriptor is cleared in a [finally] block. *)
Definition BuildCredential (creds_data : nat) : R unit :=
  try_finally
    (d ← deref creds_data;
     try_except
       (copy ← dict_copy creds_data;
        if is_authorized_user d
        then _setup_user_credentials_from_dict copy
        else _setup_service_account_credentials_from_dict copy)
       (λ e,
          match e with
          | ValueError _ => raise e
          | _ => raise (ValueError
                          ("Invalid " ++ variant_name d ++ " credentials"))
          end))
    (dict_clear creds_data).

(** [os.path.exists] *)
Definition file_exists (st : RState) (p : string) : bool :=
  bool_decide (is_Some (fs st !! p)).

(** Modelled from the spec: [CredentialManager.setup_google_credentials] is
    missing from the sources. The two warnings are the ones that
    [test_setup_google_credentials_logs_warning_when_not_set] and
    [test_setup_google_credentials_logs_warning_for_invalid_path] expect. *)
Definition setup_google_credentials : R unit :=
  st ← get_state;
  match environ st !! GOOGLE_APPLICATION_CREDENTIALS with
  | None | Some "" =>
      rlogger WARNING "GOOGLE_APPLICATION_CREDENTIALS not set"
  | Some creds_env =>
      if is_inline_json creds_env then
        creds_data ← _parse_and_validate_credentials_json creds_env;
        BuildCredential creds_data
      else if file_exists st creds_env then mret tt
      else rlogger WARNING
             "GOOGLE_APPLICATION_CREDENTIALS is not valid JSON or a file path"
  end.

(** Modelled from the spec: [CredentialManager.get_google_credentials]
    (GetCredentials) is missing from the sources. The message has the two
    parts that [test_get_google_credentials_does_not_leak_credentials_in_error]
    expects. *)
Definition get_google_credentials : R Cred :=
  st ← get_state;
  match cached_credentials st with
  | Some credentials => mret credentials
  | None =>
      try_except
        (credentials ← google_auth_default adc_scopes;
         modify_state (set_cached_credentials (Some credentials));;
         mret credentials)
        (λ _, raise (ValueError
           ("Failed to load Google Cloud credentials. "
            ++ "Check GOOGLE_APPLICATION_CREDENTIALS configuration")))
  end.

(** Modelled from the spec: the staging steps of
    [CredentialManager.prepare_credentials_for_adc], missing from the
    sources: the validated descriptor is serialized to the private file, the
    configuration value is pointed to that file, and the descriptor is
    cleared. *)
Definition stage_descriptor (creds_data : nat) : R unit :=
  d ← deref creds_data;
  modify_state (λ st,
    set_fs (<[staging_path := (json_dumps d, owner_read_write)]> (fs st)) st);;
  modify_state (λ st,
    set_environ (<[GOOGLE_APPLICATION_CREDENTIALS := staging_path]>
                   (environ st)) st);;
  dict_clear creds_data.

(** Modelled from the spec: [CredentialManager.prepare_credentials_for_adc]
    (PrepareForAmbientDiscovery) is missing from the sources. *)
Definition prepare_credentials_for_adc : R unit :=
  st ← get_state;
  match environ st !! GOOGLE_APPLICATION_CREDENTIALS with
  | None | Some "" =>
      rlogger WARNING "GOOGLE_APPLICATION_CREDENTIALS not set"
  | Some creds_env =>
      if is_inline_json creds_env then
        creds_data ← _parse_and_validate_credentials_json creds_env;
        stage_descriptor creds_data
      else if file_exists st creds_env then mret tt
      else rlogger WARNING
             ("Credentials file not found: " ++ creds_env)
  end.

End Resolver.

(** * Properties *)

(** ** Python text *)

Lemma str_app_nil_l (t : string) : "" ++ t = t.
Proof. reflexivity. Qed.

Lemma str_app_cons c (s t : string) : String c s ++ t = String c (s ++ t).
Proof. reflexivity. Qed.

Lemma str_app_nil_r (s : string) : s ++ "" = s.
Proof.
  induction s as [|c s IH]; [reflexivity|].
  by rewrite str_app_cons, IH.
Qed.

Lemma contains_char_app c (s t : string) :
  PyStr.contains_char c (s ++ t)
  = PyStr.contains_char c s || PyStr.contains_char c t.
Proof.
  induction s as [|d s IH]; [reflexivity|].
  rewrite str_app_cons. cbn [PyStr.contains_char].
  rewrite IH. by rewrite orb_assoc.
Qed.

Lemma split_not_nil sep s : PyStr.split sep s ≠ [].
Proof.
  destruct s as [|c s]; cbn [PyStr.split]; [done|].
  destruct (Ascii.eqb c sep); [done|].
  by destruct (PyStr.split sep s).
Qed.

(** A text without the separator is its own single field. *)
Lemma split_no_separator sep s :
  PyStr.contains_char sep s = false → PyStr.split sep s = [s].
Proof.
  induction s as [|c s IH]; [done|].
  cbn [PyStr.contains_char PyStr.split].
  intros [Hc Hs]%orb_false_iff. rewrite Hc, (IH Hs). done.
Qed.

(** The first field ends at the first separator. *)
Lemma split_app_separator sep (s t : string) :
  PyStr.contains_char sep s = false →
  PyStr.split sep (s ++ String sep t) = s :: PyStr.split sep t.
Proof.
  induction s as [|c s IH].
  - intros _. rewrite str_app_nil_l. cbn [PyStr.split].
    by rewrite Ascii.eqb_refl.
  - cbn [PyStr.contains_char]. intros [Hc Hs]%orb_false_iff.
    rewrite str_app_cons. cbn [PyStr.split]. rewrite Hc, (IH Hs). done.
Qed.

Lemma uint_text_no_newline (d : uint) :
  PyStr.contains_char PyStr.newline (NilEmpty.string_of_uint d) = false.
Proof. induction d; cbn; auto. Qed.

Lemma of_N_single_line (n : N) : PyStr.single_line (PyStr.of_N n) = true.
Proof.
  unfold PyStr.single_line, PyStr.of_N. by rewrite uint_text_no_newline.
Qed.

Lemma uint_text_no_carriage_return (d : uint) :
  PyStr.contains_char PyStr.carriage_return (NilEmpty.string_of_uint d)
  = false.
Proof. induction d; cbn; auto. Qed.

Lemma contains_char_cons c d (s : string) :
  PyStr.contains_char c (String d s)
  = Ascii.eqb d c || PyStr.contains_char c s.
Proof. reflexivity. Qed.

(** A text without carriage return is read as it is. *)
Lemma universal_newlines_id (s : string) :
  PyStr.contains_char PyStr.carriage_return s = false →
  PyStr.universal_newlines s = s.
Proof.
  induction s as [|c s IH]; [done|].
  rewrite contains_char_cons. intros [Hc Hs]%orb_false_iff.
  cbn [PyStr.universal_newlines]. rewrite Hc. by rewrite (IH Hs).
Qed.

Lemma rstrip_cons_keep c (s : string) :
  PyStr.rstrip s ≠ "" → PyStr.rstrip (String c s) = String c (PyStr.rstrip s).
Proof. cbn [PyStr.rstrip]. by destruct (PyStr.rstrip s). Qed.

Lemma rstrip_cons_no_space c (s : string) :
  PyStr.is_space c = false →
  PyStr.rstrip (String c s) = String c (PyStr.rstrip s).
Proof. cbn [PyStr.rstrip]. intros ->. by destruct (PyStr.rstrip s). Qed.

Lemma rstrip_app_keep (s t : string) :
  PyStr.rstrip t ≠ "" → PyStr.rstrip (s ++ t) = s ++ PyStr.rstrip t.
Proof.
  intros Ht. induction s as [|c s IH]; [done|].
  rewrite !str_app_cons, rstrip_cons_keep; [by rewrite IH|].
  rewrite IH. destruct s; [done|]. by rewrite str_app_cons.
Qed.

Lemma rstrip_app_newline (s : string) :
  PyStr.rstrip (s ++ String PyStr.newline "") = PyStr.rstrip s.
Proof.
  induction s as [|c s IH]; [reflexivity|].
  rewrite str_app_cons. cbn [PyStr.rstrip]. by rewrite IH.
Qed.

Lemma rstrip_contains_char c (s : string) :
  PyStr.contains_char c (PyStr.rstrip s) = true →
  PyStr.contains_char c s = true.
Proof.
  induction s as [|d s IH]; [done|].
  cbn [PyStr.rstrip PyStr.contains_char].
  destruct (PyStr.rstrip s) as [|e r] eqn:Hr.
  - destruct (PyStr.is_space d); [done|].
    cbn [PyStr.contains_char]. rewrite orb_false_r. intros ->. done.
  - cbn [PyStr.contains_char] in *.
    destruct (Ascii.eqb d c); [done|]. cbn [orb]. exact IH.
Qed.

Lemma rstrip_single_line (s : string) :
  PyStr.single_line s = true → PyStr.single_line (PyStr.rstrip s) = true.
Proof.
  unfold PyStr.single_line. intros Hs.
  destruct (PyStr.contains_char PyStr.newline (PyStr.rstrip s)) eqn:Hr; [|done].
  apply rstrip_contains_char in Hr. by rewrite Hr in Hs.
Qed.

Lemma str_app_assoc (s t u : string) : (s ++ t) ++ u = s ++ (t ++ u).
Proof.
  induction s as [|c s IH]; [reflexivity|].
  by rewrite !str_app_cons, IH.
Qed.

Lemma split_once_app_separator sep (s t : string) :
  PyStr.contains_char sep s = false →
  PyStr.split_once sep (s ++ String sep t) = (s, t).
Proof.
  induction s as [|c s IH].
  - intros _. rewrite str_app_nil_l. cbn [PyStr.split_once].
    by rewrite Ascii.eqb_refl.
  - cbn [PyStr.contains_char]. intros [Hc Hs]%orb_false_iff.
    rewrite str_app_cons. cbn [PyStr.split_once]. by rewrite Hc, (IH Hs).
Qed.

(** ** The metadata of the lock file *)

Section Metadata.

Variable pr : Proc.
Hypothesis hostname_single_line : PyStr.single_line (hostname pr) = true.
Hypothesis timestamp_single_line : PyStr.single_line (timestamp pr) = true.

Lemma pid_line_single : PyStr.contains_char PyStr.newline (pid_line pr) = false.
Proof.
  unfold pid_line. rewrite contains_char_app.
  pose proof (of_N_single_line (pid pr)) as H.
  unfold PyStr.single_line in H. apply negb_true_iff in H. by rewrite H.
Qed.

Lemma hostname_line_single :
  PyStr.contains_char PyStr.newline (hostname_line pr) = false.
Proof.
  unfold hostname_line. rewrite contains_char_app.
  unfold PyStr.single_line in hostname_single_line.
  apply negb_true_iff in hostname_single_line.
  by rewrite hostname_single_line.
Qed.

Lemma metadata_text_shape :
  metadata_text pr
  = pid_line pr ++ String PyStr.newline
      (hostname_line pr ++ String PyStr.newline
         ("timestamp=" ++ timestamp pr ++ String PyStr.newline "")).
Proof.
  unfold metadata_text, pid_line, hostname_line.
  by rewrite !str_app_assoc.
Qed.

(** The file that a successful write leaves has exactly the three lines. *)
Lemma metadata_text_lines :
  PyStr.split PyStr.newline (metadata_text pr)
  = [pid_line pr; hostname_line pr; "timestamp=" ++ timestamp pr; ""].
Proof.
  rewrite metadata_text_shape.
  rewrite (split_app_separator _ _ _ pid_line_single).
  rewrite (split_app_separator _ _ _ hostname_line_single).
  rewrite <- str_app_assoc.
  rewrite split_app_separator; [done|].
  rewrite contains_char_app.
  unfold PyStr.single_line in timestamp_single_line.
  apply negb_true_iff in timestamp_single_line.
  by rewrite timestamp_single_line.
Qed.

Lemma metadata_text_ok : lock_file_ok (pid pr) (metadata_text pr) = true.
Proof.
  unfold lock_file_ok. rewrite metadata_text_lines.
  cbn [forallb map]. unfold pid_line, hostname_line.
  rewrite !contains_char_app.
  change ("pid=" ++ PyStr.of_N (pid pr))
    with ("pid" ++ String PyStr.equals_sign (PyStr.of_N (pid pr))).
  change ("hostname=" ++ hostname pr)
    with ("hostname" ++ String PyStr.equals_sign (hostname pr)).
  change ("timestamp=" ++ timestamp pr)
    with ("timestamp" ++ String PyStr.equals_sign (timestamp pr)).
  rewrite !split_once_app_separator by reflexivity.
  cbn [fst snd]. rewrite String.eqb_refl.
  rewrite bool_decide_eq_true_2 by done. reflexivity.
Qed.

(** What [get_lock_holder_info] reads back from that file. *)
Lemma metadata_text_stripped :
  PyStr.strip (metadata_text pr)
  = pid_line pr ++ String PyStr.newline
      (hostname_line pr ++ String PyStr.newline
         ("timestamp=" ++ PyStr.rstrip (timestamp pr))).
Proof.
  unfold PyStr.strip.
  assert (PyStr.lstrip (metadata_text pr) = metadata_text pr) as -> by done.
  rewrite metadata_text_shape.
  assert (Hlast : PyStr.rstrip
            ("timestamp=" ++ timestamp pr ++ String PyStr.newline "")
          = "timestamp=" ++ PyStr.rstrip (timestamp pr)).
  { change ("timestamp=" ++ timestamp pr ++ String PyStr.newline "")
      with (String "t" (String "i" (String "m" (String "e" (String "s"
             (String "t" (String "a" (String "m" (String "p" (String "="
                (timestamp pr ++ String PyStr.newline ""))))))))))).
    rewrite !rstrip_cons_no_space by reflexivity.
    by rewrite rstrip_app_newline. }
  rewrite rstrip_app_keep.
  2:{ rewrite rstrip_cons_keep; [done|].
      by rewrite rstrip_app_keep; rewrite rstrip_cons_keep; rewrite Hlast. }
  rewrite rstrip_cons_keep.
  2:{ by rewrite rstrip_app_keep; rewrite rstrip_cons_keep; rewrite Hlast. }
  rewrite rstrip_app_keep by (by rewrite rstrip_cons_keep; rewrite Hlast).
  rewrite rstrip_cons_keep by (by rewrite Hlast).
  by rewrite Hlast.
Qed.

(** The text of the lock file is read as it was written when the host
    name and the timestamp have no carriage return. *)
Lemma metadata_text_as_written :
  PyStr.no_carriage_return (hostname pr) = true →
  PyStr.no_carriage_return (timestamp pr) = true →
  PyStr.universal_newlines (metadata_text pr) = metadata_text pr.
Proof.
  unfold PyStr.no_carriage_return. intros Hh%negb_true_iff Ht%negb_true_iff.
  apply universal_newlines_id. unfold metadata_text, PyStr.of_N.
  repeat (rewrite contains_char_app || rewrite contains_char_cons).
  rewrite uint_text_no_carriage_return, Hh, Ht. reflexivity.
Qed.

Lemma parse_metadata_text :
  parse_metadata (metadata_text pr)
  = [("pid", PyStr.of_N (pid pr)); ("hostname", hostname pr);
     ("timestamp", PyStr.rstrip (timestamp pr))].
Proof.
  unfold parse_metadata. rewrite metadata_text_stripped.
  rewrite (split_app_separator _ _ _ pid_line_single).
  rewrite (split_app_separator _ _ _ hostname_line_single).
  rewrite split_no_separator.
  2:{ rewrite contains_char_app.
      pose proof (rstrip_single_line _ timestamp_single_line) as H.
      unfold PyStr.single_line in H. apply negb_true_iff in H.
      by rewrite H. }
  cbn [foldl]. unfold pid_line, hostname_line.
  rewrite !contains_char_app.
  change ("pid=" ++ PyStr.of_N (pid pr))
    with ("pid" ++ String PyStr.equals_sign (PyStr.of_N (pid pr))).
  change ("hostname=" ++ hostname pr)
    with ("hostname" ++ String PyStr.equals_sign (hostname pr)).
  change ("timestamp=" ++ PyStr.rstrip (timestamp pr))
    with ("timestamp"
          ++ String PyStr.equals_sign (PyStr.rstrip (timestamp pr))).
  rewrite !split_once_app_separator by reflexivity.
  reflexivity.
Qed.

End Metadata.

(** ** The lock manager *)

Ltac unfold_m :=
  cbv [run __enter__ enter_try enter_except __exit__ exit_try open_lock_file
       _write_lock_metadata get_lock_holder_info clean_up_file_handle
       handle_close handle_flush handle_write handle_fileno the_handle
       attempt flock_ex_nb flock_un drop_flock path_mkdir open_w path_exists
       path_read_text io_fault logger assign_handle modify_world get_world
       get_self try_except raise mbind mret SE_bind SE_ret] in *.

Ltac proj_simpl :=
  cbn [self world files dirs flocks open_files next_ofd faults log
       set_files set_dirs set_flocks set_open_files set_next_ofd set_faults
       set_log lock_file_path lock_file_handle fileno closed buffer position
       fst snd] in *.

(** Symbolic execution: projections and Booleans are reduced, and [t]
    rewrites what the run depends on. *)
Tactic Notation "run_with" tactic3(t) :=
  repeat (progress (proj_simpl; cbn [negb orb andb String.eqb]; t)).

Ltac splits_ex :=
  repeat match goal with
         | |- _ ∧ _ => split
         | |- ∃ _, _ => eexists
         end.

Ltac fault_step :=
  match goal with
  | H : context [match faults ?w with _ => _ end] |- _ =>
      destruct (faults w) as [|[?|] ?] eqn:?; proj_simpl
  | |- context [match faults ?w with _ => _ end] =>
      destruct (faults w) as [|[?|] ?] eqn:?; proj_simpl
  | H : context [match ?l with [] => _ | _ :: _ => _ end] |- _ =>
      destruct l as [|[?|] ?]; proj_simpl
  | |- context [match ?l with [] => _ | _ :: _ => _ end] =>
      destruct l as [|[?|] ?]; proj_simpl
  end.

Lemma write_at_empty data : write_at "" 0 data = data.
Proof.
  unfold write_at, substring_from, nul_pad.
  cbn [String.substring String.length Nat.sub repeat string_of_list_ascii].
  rewrite !str_app_nil_l.
  destruct (0 + String.length data); cbn [String.substring];
    apply str_app_nil_r.
Qed.

Lemma metadata_text_not_empty pr : String.eqb (metadata_text pr) "" = false.
Proof. reflexivity. Qed.

Lemma parse_metadata_empty : parse_metadata "" = [].
Proof. reflexivity. Qed.

(** *** Paths and the filesystem *)

Lemma ancestors_go_last acc s :
  (acc ++ s) ∈ PyPath.ancestors_go acc s.
Proof.
  revert acc. induction s as [|c s IH]; intros acc; cbn [PyPath.ancestors_go].
  - rewrite str_app_nil_r. apply list_elem_of_singleton. done.
  - destruct (Ascii.eqb c "/") eqn:Hc.
    + apply Ascii.eqb_eq in Hc. subst c. apply elem_of_cons. right.
      specialize (IH (acc ++ "/")). by rewrite str_app_assoc in IH.
    + specialize (IH (acc ++ String c "")). by rewrite str_app_assoc in IH.
Qed.

Lemma ancestors_self d : d ∈ PyPath.ancestors d.
Proof. exact (ancestors_go_last "" d). Qed.

(** A regular file in its place can be opened again. *)
Lemma regular_file_usable p w : regular_file p w → lock_path_usable p w.
Proof.
  intros (_ & Hdir & Habove). split; [|split; [done|]].
  - eapply Forall_impl; [exact Habove|]. by intros a [_ ?].
  - intros Hin. apply Hdir.
    by destruct (proj1 (Forall_forall _ _) Habove p Hin).
Qed.

(** [regular_file] looks at the files and the directories only. *)
Lemma regular_file_ext p w w' :
  files w' = files w → dirs w' = dirs w →
  regular_file p w → regular_file p w'.
Proof. unfold regular_file. by intros -> ->. Qed.

(** The checks of [mkdir] and [open] on a usable lock path. *)
Lemma usable_checks p w :
  lock_path_usable p w →
  bool_decide (Forall (λ a, files w !! a = None)
                 (PyPath.ancestors (PyPath.parent p))) = true
  ∧ bool_decide
      (p ∈ dirs w ∪ list_to_set (PyPath.ancestors (PyPath.parent p)))
    = false
  ∧ bool_decide
      (PyPath.parent p
       ∈ dirs w ∪ list_to_set (PyPath.ancestors (PyPath.parent p)))
    = true.
Proof.
  intros (Hfiles & Hdir & Habove). split; [|split].
  - by apply bool_decide_eq_true_2.
  - apply bool_decide_eq_false_2. intros [?|?%elem_of_list_to_set]%elem_of_union;
      done.
  - apply bool_decide_eq_true_2, elem_of_union. right.
    apply elem_of_list_to_set, ancestors_self.
Qed.

(** What [mkdir] and [open] leave of a regular file, of a usable lock
    path, and of the consistency of the machine. *)
Lemma regular_file_opened q p w :
  lock_path_usable p w → regular_file q w → regular_file q (opened_world p w).
Proof.
  intros (Hfiles & Hdir & Habove) (Hq & Hqdir & Hqabove).
  unfold regular_file, opened_world. cbn.
  split; [|split].
  - destruct (decide (p = q)) as [->|Hne];
      [by rewrite lookup_insert_eq | by rewrite lookup_insert_ne].
  - intros [?|Hin%elem_of_list_to_set]%elem_of_union; [done|].
    pose proof (proj1 (Forall_forall _ _) Hfiles q Hin) as Hnone.
    rewrite Hnone in Hq. by destruct Hq.
  - eapply Forall_impl; [exact Hqabove|]. cbn. intros a [Ha Hnone].
    split; [apply elem_of_union; by left|].
    rewrite lookup_insert_ne; [done|]. by intros ->.
Qed.

Lemma regular_file_opened_new p w :
  lock_path_usable p w → regular_file p (opened_world p w).
Proof.
  intros (Hfiles & Hdir & Habove). unfold regular_file, opened_world. cbn.
  split; [by rewrite lookup_insert_eq|]. split.
  - intros [?|?%elem_of_list_to_set]%elem_of_union; done.
  - apply Forall_forall. intros a Ha. split.
    + apply elem_of_union. right. by apply elem_of_list_to_set.
    + rewrite lookup_insert_ne by (by intros ->).
      exact (proj1 (Forall_forall _ _) Hfiles a Ha).
Qed.

(** *** Runs in an environment that injects no failure *)

(** A free lock is granted, and the metadata reaches the file. *)
Lemma enter_free_quiet pr p h w :
  faults w = [] → lock_path_usable p w → flocks w !! p = None →
  run (__enter__ pr) (mkLockManager p h) w
  = (Return tt,
     mkLockManager p
       (Some (mkFileObj (next_ofd w) false ""
                (String.length (metadata_text pr)))),
     acquired_world pr p w).
Proof.
  intros Hq (Hc1 & Hc2 & Hc3)%usable_checks Hfree. unfold_m.
  run_with (rewrite ?Hq, ?lookup_insert_eq, ?Hfree, ?Hc1, ?Hc2, ?Hc3).
  rewrite str_app_nil_l, metadata_text_not_empty.
  run_with (rewrite ?Hq, ?lookup_insert_eq, ?Hfree, ?Hc1, ?Hc2, ?Hc3).
  unfold acquired_world, opened_world. proj_simpl.
  rewrite write_at_empty. reflexivity.
Qed.

(** A lock that another open file owns is refused: the file has been
    truncated by then, and the message reports an empty mapping. *)
Lemma enter_busy_quiet pr p h w owner :
  faults w = [] → lock_path_usable p w →
  flocks w !! p = Some owner → owner ≠ next_ofd w →
  run (__enter__ pr) (mkLockManager p h) w
  = (Raise (LockAcquisitionError (lock_held_message (Some []))),
     mkLockManager p None,
     refused_world p w).
Proof.
  intros Hq (Hc1 & Hc2 & Hc3)%usable_checks Hbusy Hother. unfold_m.
  run_with (rewrite ?Hq, ?lookup_insert_eq, ?Hbusy, ?Hc1, ?Hc2, ?Hc3,
            ?decide_False by done).
  rewrite bool_decide_eq_true_2 by eauto.
  run_with (rewrite ?Hq, ?lookup_insert_eq, ?Hbusy, ?Hc1, ?Hc2, ?Hc3,
            ?decide_False by done).
  reflexivity.
Qed.

(** The holder gives the lock back. *)
Lemma exit_quiet exc p f w :
  faults w = [] → closed f = false → open_files w !! fileno f = Some p →
  flocks w !! p = Some (fileno f) →
  ∃ w', run (__exit__ exc) (mkLockManager p (Some f)) w
        = (Return false, mkLockManager p None, w')
        ∧ faults w' = [] ∧ flocks w' = delete p (flocks w)
        ∧ open_files w' = delete (fileno f) (open_files w)
        ∧ next_ofd w' = next_ofd w.
Proof.
  intros Hq Hopen Hfd Hlock. destruct f as [fd cl buf pos].
  proj_simpl. subst cl. unfold_m.
  destruct (String.eqb buf "") eqn:Hbuf.
  - run_with (rewrite ?Hq, ?Hfd, ?Hlock, ?Hbuf, ?lookup_insert_eq,
              ?lookup_delete_eq, ?decide_True by done).
    eexists. split; [reflexivity|]. proj_simpl. done.
  - run_with (rewrite ?Hq, ?Hfd, ?Hlock, ?Hbuf, ?lookup_insert_eq,
              ?lookup_delete_eq, ?decide_True by done).
    eexists. split; [reflexivity|]. proj_simpl. done.
Qed.

(** *** Runs in any environment *)

Lemma exit_never_raises exc s : ∃ s', __exit__ exc s = (Return false, s').
Proof.
  unfold __exit__, try_except, logger, modify_world.
  cbv [mbind mret SE_bind SE_ret].
  destruct (exit_try s) as [[[]|e] s1]; eauto.
Qed.

Lemma exit_unheld_noop exc p w :
  run (__exit__ exc) (mkLockManager p None) w
  = (Return false, mkLockManager p None, w).
Proof. reflexivity. Qed.

Ltac fault_rewrite :=
  match goal with
  | E : faults ?w = _, H : context [faults ?w] |- _ =>
      lazymatch H with E => fail | _ => rewrite E in H end
  | E : faults ?w = _ |- context [faults ?w] => rewrite E
  | E : ?m !! ?k = _, H : context [?m !! ?k] |- _ =>
      lazymatch H with E => fail | _ => rewrite E in H end
  | E : ?m !! ?k = _ |- context [?m !! ?k] => rewrite E
  end.

Ltac decide_step :=
  match goal with
  | H : context [decide (?a = ?b)] |- _ => destruct (decide (a = b))
  | |- context [decide (?a = ?b)] => destruct (decide (a = b))
  | H : context [bool_decide ?P] |- _ => destruct (bool_decide P)
  | |- context [bool_decide ?P] => destruct (bool_decide P)
  end.

(** One step of the case analysis of a run over what the environment
    injects. *)
Ltac crunch_step :=
  first
    [ progress (proj_simpl; cbn [negb orb andb String.eqb] in * )
    | progress (rewrite ?lookup_insert_eq, ?lookup_delete_eq,
                        ?str_app_nil_l, ?metadata_text_not_empty in * )
    | fault_rewrite
    | fault_step
    | decide_step ].

Ltac lookup_step :=
  match goal with
  | H : context [match ?m !! ?k with _ => _ end] |- _ =>
      destruct (m !! k) eqn:?
  | |- context [match ?m !! ?k with _ => _ end] =>
      destruct (m !! k) eqn:?
  end.

Ltac crunch := repeat (first [crunch_step | lookup_step]).

(** The three ways in which the [try] block of [__enter__] ends: the lock
    is granted (and the metadata written, or a warning logged), an I/O
    failure, or a refusal because another open file owns the lock. *)
Lemma enter_try_inv pr p h w r s1 :
  enter_try pr (mkSt (mkLockManager p h) w) = (r, s1) →
  (r = Return tt
   ∧ (flocks w !! p = None ∨ flocks w !! p = Some (next_ofd w))
   ∧ (∃ f, self s1 = mkLockManager p (Some f)
           ∧ fileno f = next_ofd w ∧ closed f = false)
   ∧ flocks (world s1) !! p = Some (next_ofd w)
   ∧ open_files (world s1) !! next_ofd w = Some p
   ∧ ((files (world s1) !! p = Some (metadata_text pr)
       ∧ log (world s1)
         = (INFO, "Lock acquired successfully: " ++ p) :: log w)
      ∨ (files (world s1) !! p = Some ""
         ∧ ∃ text, log (world s1)
                   = (INFO, "Lock acquired successfully: " ++ p)
                     :: (WARNING, text) :: log w)))
  ∨ (∃ msg, r = Raise (OSError msg))
  ∨ (r = Raise BlockingIOError
     ∧ self s1
       = mkLockManager p (Some (mkFileObj (next_ofd w) false "" 0))
     ∧ files (world s1) !! p = Some ""
     ∧ open_files (world s1) = <[next_ofd w := p]> (open_files w)
     ∧ flocks (world s1) = flocks w
     ∧ log (world s1) = log w
     ∧ ∃ owner, flocks w !! p = Some owner ∧ owner ≠ next_ofd w).
Proof.
  unfold_m.
  destruct (flocks w !! p) as [owner|] eqn:Hl;
    intros H; repeat crunch_step; injection H as <- <-; proj_simpl;
    rewrite ?lookup_insert_eq, ?write_at_empty; cbn [default from_option id];
    rewrite ?write_at_empty; try subst owner.
  all: try (right; left; eexists; reflexivity).
  all: try (right; right; splits_ex;
            first [reflexivity | eassumption | done]).
  all: left; split; [reflexivity|];
    split; [first [left; reflexivity | right; reflexivity
                  | left; assumption | right; assumption]|];
    split; [eexists; split; [reflexivity|split; reflexivity]|];
    split; [first [assumption | reflexivity]|];
    split; [reflexivity|];
    first [ left; split; reflexivity
          | right; split; [reflexivity| eexists; reflexivity] ].
Qed.

Lemma clean_up_raises_os_error s e s' :
  clean_up_file_handle s = (Raise e, s') → ∃ msg, e = OSError msg.
Proof.
  destruct s as [[p [[fd cl buf pos]|]] w]; unfold_m.
  - destruct cl; [intros H; crunch; discriminate|].
    destruct (String.eqb buf "") eqn:Hbuf; intros H;
      repeat (first [crunch_step | lookup_step
                    | progress (rewrite Hbuf in H)]);
      try discriminate.
    all: injection H as <- _; eauto.
  - intros H. proj_simpl. discriminate.
Qed.

Lemma bind_inv {S A B} (m : SE S A) (f : A → SE S B) s r s' :
  (m ≫= f) s = (r, s') →
  (∃ a s1, m s = (Return a, s1) ∧ f a s1 = (r, s'))
  ∨ (∃ e, m s = (Raise e, s') ∧ r = Raise e).
Proof.
  cbv [mbind SE_bind]. destruct (m s) as [[a|e] s1]; intros H.
  - left. eauto.
  - right. injection H as <- <-. eauto.
Qed.

Lemma bind_never_returns {S A B} (m : SE S A) (f : A → SE S B) s :
  (∀ a s1, is_return (fst (f a s1)) = false) →
  is_return (fst ((m ≫= f) s)) = false.
Proof.
  intros Hf. cbv [mbind SE_bind].
  destruct (m s) as [[a|e] s1]; [apply Hf | reflexivity].
Qed.

Lemma enter_except_never_returns e s :
  is_return (fst (enter_except e s)) = false.
Proof.
  destruct e; unfold enter_except;
    repeat (apply bind_never_returns; intros); reflexivity.
Qed.

(** An I/O failure is re-raised: the handler never turns it into a
    contention error. *)
Lemma enter_except_os_error msg s e s' :
  enter_except (OSError msg) s = (Raise e, s') → ∃ msg', e = OSError msg'.
Proof.
  unfold enter_except. intros H.
  apply bind_inv in H as [(? & s1 & _ & H) | (? & H & _)];
    [|discriminate H].
  apply bind_inv in H as [(? & s2 & _ & H) | (? & H & [= ->])].
  - injection H as <- _. eauto.
  - by apply clean_up_raises_os_error in H.
Qed.

(** The refusal: the handler of [BlockingIOError], run where the [try]
    block left the state. *)
Lemma enter_except_blocking p fd w r s' owner :
  enter_except BlockingIOError
    (mkSt (mkLockManager p (Some (mkFileObj fd false "" 0))) w) = (r, s') →
  files w !! p = Some "" → open_files w !! fd = Some p →
  flocks w !! p = Some owner → owner ≠ fd →
  files (world s') !! p = Some ""
  ∧ flocks (world s') = flocks w
  ∧ open_files (world s') = delete fd (open_files w)
  ∧ ((∃ msg, r = Raise (OSError msg))
     ∨ (self s' = mkLockManager p None
        ∧ ∃ h, (h = Some [] ∨ h = None)
               ∧ r = Raise (LockAcquisitionError (lock_held_message h))
               ∧ ∃ warned,
                   log (world s')
                   = (ERROR, lock_held_message h) :: warned ++ log w)).
Proof.
  intros H Hfile Hfd Hlock Hother. unfold_m.
  crunch; try contradiction; injection H as <- <-; proj_simpl.
  all: split; [assumption|split; [reflexivity|split; [reflexivity|]]].
  all: try (left; eexists; reflexivity).
  all: right; split; [reflexivity|].
  all: first
    [ exists (Some []); split; [by left|]; split; [reflexivity|];
      by exists []
    | exists None; split; [by right|]; split; [reflexivity|];
      by exists []
    | exists None; split; [by right|]; split; [reflexivity|];
      by eexists [_] ].
Qed.

(** Every run of [__enter__] ends in one of three ways. *)
Lemma enter_inv pr p h w r m' w' :
  run (__enter__ pr) (mkLockManager p h) w = (r, m', w') →
  (r = Return tt
   ∧ (flocks w !! p = None ∨ flocks w !! p = Some (next_ofd w))
   ∧ lock_file_path m' = p
   ∧ holds m' w' = true
   ∧ ((files w' !! p = Some (metadata_text pr)
       ∧ log w' = (INFO, "Lock acquired successfully: " ++ p) :: log w)
      ∨ (files w' !! p = Some ""
         ∧ ∃ text, log w'
                   = (INFO, "Lock acquired successfully: " ++ p)
                     :: (WARNING, text) :: log w)))
  ∨ (∃ msg, r = Raise (OSError msg))
  ∨ (m' = mkLockManager p None
     ∧ files w' !! p = Some ""
     ∧ flocks w' = flocks w
     ∧ open_files w' = delete (next_ofd w) (<[next_ofd w := p]> (open_files w))
     ∧ (∃ h, (h = Some [] ∨ h = None)
             ∧ r = Raise (LockAcquisitionError (lock_held_message h)))
     ∧ ∃ owner, flocks w !! p = Some owner ∧ owner ≠ next_ofd w).
Proof.
  unfold run, __enter__, try_except.
  destruct (enter_try pr _) as [r1 s1] eqn:Htry.
  apply enter_try_inv in Htry
    as [(-> & Hfree & (f & Hself & Hfd & Hopen) & Hlock & _ & Hfile)
       | [(msg & ->) | (-> & Hself & Hfile & Hofd & Hlock & Hlog & Howner)]].
  - intros [= <- <- <-]. left. rewrite Hself. unfold holds.
    cbn [lock_file_path lock_file_handle]. rewrite Hopen, Hfd, Hlock.
    rewrite bool_decide_eq_true_2 by done. done.
  - destruct (enter_except _ s1) as [[[]|e] s2] eqn:Hexc.
    + pose proof (enter_except_never_returns (OSError msg) s1) as Hn.
      rewrite Hexc in Hn. discriminate Hn.
    + apply enter_except_os_error in Hexc as [msg' ->].
      intros [= <- <- <-]. right. left. eauto.
  - destruct s1 as [m1 w1]. cbn [self world] in *. subst m1.
    destruct Howner as (owner & Howner & Hne).
    destruct (enter_except _ _) as [r2 s2] eqn:Hexc.
    eapply enter_except_blocking in Hexc
      as (Hfile' & Hlock' & Hofd' & Hres);
      [| done | by rewrite Hofd, lookup_insert_eq
       | by rewrite Hlock | done].
    intros [= <- <- <-].
    destruct Hres as [(msg & ->) | (Hself & hi & Hhi & -> & _)].
    + right. left. eauto.
    + right. right. rewrite Hself, Hlock', Hlock, Hofd', Hofd.
      splits_ex; eauto.
Qed.

(** A release that went through has dropped the lock. *)
Lemma exit_inv exc p f w r m' w' :
  run (__exit__ exc) (mkLockManager p (Some f)) w = (r, m', w') →
  r = Return false
  ∧ lock_file_path m' = p
  ∧ (lock_file_handle m' = None →
     closed f = false
     ∧ open_files w' = delete (fileno f) (open_files w)
     ∧ (open_files w !! fileno f = Some p →
        flocks w !! p = Some (fileno f) → flocks w' !! p = None)).
Proof.
  destruct f as [fd cl buf pos]. unfold_m. intros H.
  destruct cl; [crunch; injection H as <- <- <-; proj_simpl; done|].
  destruct (String.eqb buf "") eqn:Hbuf;
    repeat (first [crunch_step | lookup_step
                  | progress (rewrite Hbuf in H)]);
    injection H as <- <- <-; proj_simpl;
    (split; [reflexivity|split; [reflexivity|]]); intros Hnone;
    try discriminate Hnone.
  all: split; [reflexivity|split; [reflexivity|]]; intros Hp Hl;
    simplify_eq; rewrite ?lookup_delete_eq; try done.
Qed.

(** *** The consistency of the machine and the owner of the lock *)

Lemma holds_inv m w :
  holds m w = true →
  ∃ f, lock_file_handle m = Some f ∧ closed f = false
       ∧ flocks w !! lock_file_path m = Some (fileno f).
Proof.
  unfold holds. destruct (lock_file_handle m) as [f|]; [|done].
  intros [Hc Hl]%andb_true_iff. exists f.
  apply negb_true_iff in Hc. apply bool_decide_eq_true_1 in Hl. done.
Qed.

Lemma wf_owner_open w p fd :
  wf_world w → flocks w !! p = Some fd →
  open_files w !! fd = Some p ∧ fd < next_ofd w.
Proof.
  intros (Hlt & Hown & _) Hl. pose proof (Hown p fd Hl) as Hfd.
  split; [done|]. exact (Hlt fd p Hfd).
Qed.

(** A locked file is a regular file in its place. *)
Lemma wf_owner_regular w p fd :
  wf_world w → flocks w !! p = Some fd → regular_file p w.
Proof. intros (_ & Hown & Hreg) Hl. exact (Hreg fd p (Hown p fd Hl)). Qed.

Lemma wf_empty_world : wf_world empty_world.
Proof. split; [|split]; apply map_Forall_empty. Qed.

Lemma regular_file_write q p content w :
  p ∉ dirs w → regular_file q w →
  regular_file q (set_files (<[p := content]> (files w)) w).
Proof.
  intros Hdir (Hq & Hqdir & Hqabove). unfold regular_file. cbn.
  split; [|split; [done|]].
  - destruct (decide (p = q)) as [->|Hne];
      [by rewrite lookup_insert_eq | by rewrite lookup_insert_ne].
  - eapply Forall_impl; [exact Hqabove|]. cbn. intros a [Ha Hnone].
    split; [done|]. rewrite lookup_insert_ne; [done|]. by intros ->.
Qed.

Lemma usable_not_dir_opened p w :
  lock_path_usable p w → p ∉ dirs (opened_world p w).
Proof.
  intros (_ & Hdir & Habove). cbn.
  intros [?|?%elem_of_list_to_set]%elem_of_union; done.
Qed.

(** The descriptions that are open once [open] has returned are the ones
    of regular files in their place. *)
Lemma regular_files_opened p w :
  lock_path_usable p w →
  map_Forall (λ _ q, regular_file q w) (open_files w) →
  map_Forall (λ _ q, regular_file q (opened_world p w))
    (<[next_ofd w := p]> (open_files w)).
Proof.
  intros Hus Hreg. apply map_Forall_insert_2.
  - by apply regular_file_opened_new.
  - eapply map_Forall_impl; [exact Hreg|]. cbn. intros _ q.
    by apply regular_file_opened.
Qed.

Lemma wf_acquired_world pr p w :
  wf_world w → lock_path_usable p w → flocks w !! p = None →
  wf_world (acquired_world pr p w).
Proof.
  intros (Hlt & Hown & Hreg) Hus Hfree. split; [|split]; cbn.
  - apply map_Forall_insert_2; [lia|].
    eapply map_Forall_impl; [exact Hlt|]. cbn. lia.
  - apply map_Forall_insert_2; [by rewrite lookup_insert_eq|].
    intros q fd Hq. pose proof (Hown q fd Hq) as Hfd.
    pose proof (Hlt fd q Hfd). cbn in *.
    rewrite lookup_insert_ne by lia. done.
  - eapply map_Forall_impl; [exact (regular_files_opened p w Hus Hreg)|].
    cbn. intros _ q Hq.
    apply (regular_file_ext q
             (set_files (<[p := metadata_text pr]> (files (opened_world p w)))
                (opened_world p w))); [done|done|].
    apply regular_file_write; [by apply usable_not_dir_opened|done].
Qed.

Lemma wf_refused_world p w :
  wf_world w → lock_path_usable p w → wf_world (refused_world p w).
Proof.
  intros (Hlt & Hown & Hreg) Hus. split; [|split]; cbn.
  - apply map_Forall_delete, map_Forall_insert_2; [lia|].
    eapply map_Forall_impl; [exact Hlt|]. cbn. lia.
  - intros q fd Hq. pose proof (Hown q fd Hq) as Hfd.
    pose proof (Hlt fd q Hfd). cbn in *.
    rewrite lookup_delete_ne, lookup_insert_ne by lia. done.
  - apply map_Forall_delete.
    eapply map_Forall_impl; [exact (regular_files_opened p w Hus Hreg)|].
    cbn. intros _ q. by apply regular_file_ext.
Qed.

(** A release leaves the directories alone, and the files but the one
    behind the file object. *)
Lemma exit_fs exc p f w r m' w' :
  run (__exit__ exc) (mkLockManager p (Some f)) w = (r, m', w') →
  open_files w !! fileno f = Some p →
  dirs w' = dirs w ∧ ∀ q, q ≠ p → files w' !! q = files w !! q.
Proof.
  destruct f as [fd cl buf pos]. cbn [fileno]. unfold_m. intros H Hfd.
  destruct cl; [crunch; injection H as <- <- <-; proj_simpl; done|].
  destruct (String.eqb buf "") eqn:Hbuf;
    repeat (first [crunch_step | lookup_step
                  | progress (rewrite Hbuf in H)]);
    try discriminate Hfd;
    injection H as <- <- <-; proj_simpl; simplify_eq;
    (split; [reflexivity|]); intros q Hq;
    rewrite ?lookup_insert_ne by congruence; reflexivity.
Qed.

(** A path that was a regular file in its place is usable as long as the
    directories are the same and the other files are. *)
Lemma usable_frame p w w1 :
  regular_file p w → dirs w1 = dirs w →
  (∀ q, q ≠ p → files w1 !! q = files w !! q) →
  lock_path_usable p w1.
Proof.
  intros Hreg Hdirs Hfiles.
  destruct (regular_file_usable p w Hreg) as (_ & _ & Hself).
  destruct Hreg as (_ & Hdir & Habove).
  split; [|split; [by rewrite Hdirs | done]].
  eapply Forall_impl; [exact Habove|]. cbn. intros a [Ha Hnone].
  rewrite Hfiles; [done|]. by intros ->.
Qed.

Lemma holds_refused_world a p w :
  holds a w = true → holds a (refused_world p w) = true.
Proof. done. Qed.

Lemma get_lock_holder_info_never_raises s :
  ∃ r s', get_lock_holder_info s = (Return r, s').
Proof.
  unfold get_lock_holder_info, try_except.
  match goal with |- context [match ?b s with _ => _ end] =>
    destruct (b s) as [[r|e] s1] end; [eauto|].
  unfold logger, modify_world. cbv [mbind mret SE_bind SE_ret]. eauto.
Qed.

Lemma get_lock_holder_info_missing p h w :
  files w !! p = None →
  ∃ w', run get_lock_holder_info (mkLockManager p h) w
        = (Return None, mkLockManager p h, w').
Proof.
  intros Hfile. unfold_m. crunch; eauto.
Qed.

Lemma get_lock_holder_info_quiet p h w content :
  faults w = [] → files w !! p = Some content →
  run get_lock_holder_info (mkLockManager p h) w
  = (Return (Some (parse_metadata (PyStr.universal_newlines content))),
     mkLockManager p h, w).
Proof.
  intros Hq Hfile. unfold_m.
  run_with (rewrite ?Hq, ?Hfile).
  rewrite bool_decide_eq_true_2 by eauto.
  run_with (rewrite ?Hq, ?Hfile). reflexivity.
Qed.

(** ** Claims about the lock manager *)

(** What the statements of [__enter__] before the lock request leave. *)
Lemma open_lock_file_inv s fd s1 :
  open_lock_file s = (Return fd, s1) →
  fd = next_ofd (world s)
  ∧ self s1
    = mkLockManager (lock_file_path (self s)) (Some (mkFileObj fd false "" 0))
  ∧ files (world s1) = <[lock_file_path (self s) := ""]> (files (world s))
  ∧ open_files (world s1)
    = <[fd := lock_file_path (self s)]> (open_files (world s))
  ∧ flocks (world s1) = flocks (world s)
  ∧ next_ofd (world s1) = S fd
  ∧ log (world s1) = log (world s).
Proof.
  destruct s as [m w]. unfold_m. proj_simpl. intros H.
  repeat (first [fault_step | decide_step | progress proj_simpl]);
    try discriminate H; injection H as <- <-; proj_simpl; done.
Qed.

(** [mkdir] and [open] go through on a usable lock path only. *)
Lemma open_lock_file_usable s fd s1 :
  open_lock_file s = (Return fd, s1) →
  lock_path_usable (lock_file_path (self s)) (world s).
Proof.
  destruct s as [m w]. unfold_m. proj_simpl. intros H.
  repeat (first
    [ fault_step
    | match type of H with
      | context [bool_decide ?P] => destruct (bool_decide P) eqn:?
      end
    | progress proj_simpl ]);
    try discriminate H.
  all: repeat match goal with
         | E : bool_decide _ = true |- _ => apply bool_decide_eq_true_1 in E
         | E : bool_decide _ = false |- _ => apply bool_decide_eq_false_1 in E
         end.
  all: split; [done|];
    split; intros Hin; match goal with
                       | E : ¬ (_ ∈ _ ∪ _) |- _ => apply E, elem_of_union
                       end;
    [by left | right; by apply elem_of_list_to_set].
Qed.

(** Nothing but an I/O error leaves them. *)
Lemma open_lock_file_raises s e s1 :
  open_lock_file s = (Raise e, s1) → ∃ msg, e = OSError msg.
Proof.
  destruct s as [m w]. unfold_m. proj_simpl. intros H.
  repeat (first [fault_step | decide_step | progress proj_simpl]);
    try discriminate H; injection H as <- <-; eauto.
Qed.

(** C1 (what the code does). A refused acquisition, by a manager that
    enters without a file object, never reports the holder: in every
    environment the message of the
    [LockAcquisitionError] ends in the empty mapping or in [None], because
    the file was truncated before the lock was requested. The file object
    opened by the attempt is closed and dropped before the error leaves. *)
Theorem refused_acquire_reports_no_holder pr b w msg b' w' :
  lock_file_handle b = None →
  run (__enter__ pr) b w = (Raise (LockAcquisitionError msg), b', w') →
  (msg = "Lock already held by another instance: {}"
   ∨ msg = "Lock already held by another instance: None")
  ∧ lock_file_handle b' = None
  ∧ open_files w' !! next_ofd w = None
  ∧ files w' !! lock_file_path b = Some "".
Proof.
  destruct b as [p h]. intros _ H.
  apply enter_inv in H
    as [(? & _) | [(? & ?) | (-> & Hfile & _ & Hofd & (hi & Hhi & Hr) & _)]];
    [discriminate | discriminate |].
  injection Hr as ->. rewrite Hofd, lookup_delete_eq.
  destruct Hhi as [-> | ->]; auto.
Qed.

(** C2. Mutual exclusion on a lock path. While [a] holds the lock, an
    attempt by an independent handle [b] on the same path never succeeds,
    whatever the environment injects, and when the environment injects
    nothing it fails with the contention error and leaves [a] the holder
    of a consistent machine, so that the next attempt is refused as well.
    Once a release of [a] has gone through, the lock is free: no attempt
    of [b] meets a contention error, and when the environment injects
    nothing the attempt succeeds and [b] holds the lock. A release goes
    through when nothing is injected. At any time the lock of a path has
    one owner: two managers that hold it hold it through the same open
    file. *)
Theorem mutual_exclusion (pr : Proc) (a b : LockManager) (w : World) :
  wf_world w → holds a w = true →
  lock_file_path b = lock_file_path a → lock_file_handle b = None →
  (∀ r b' w', run (__enter__ pr) b w = (r, b', w') → is_return r = false)
  ∧ (faults w = [] →
     ∃ msg w',
       run (__enter__ pr) b w = (Raise (LockAcquisitionError msg), b, w')
       ∧ holds a w' = true ∧ holds b w' = false
       ∧ wf_world w' ∧ faults w' = [])
  ∧ (∀ exc r a1 w1,
       run (__exit__ exc) a w = (r, a1, w1) → lock_file_handle a1 = None →
       holds a1 w1 = false
       ∧ (∀ r2 b2 w2 msg,
            run (__enter__ pr) b w1 = (r2, b2, w2) →
            r2 ≠ Raise (LockAcquisitionError msg))
       ∧ (faults w1 = [] →
          ∃ b2 w2, run (__enter__ pr) b w1 = (Return tt, b2, w2)
                   ∧ holds b2 w2 = true ∧ holds a1 w2 = false))
  ∧ (faults w = [] →
     ∀ exc, ∃ a1 w1, run (__exit__ exc) a w = (Return false, a1, w1)
                     ∧ lock_file_handle a1 = None ∧ faults w1 = [])
  ∧ (∀ c, holds c w = true → lock_file_path c = lock_file_path a →
          fileno <$> lock_file_handle c = fileno <$> lock_file_handle a).
Proof.
  intros Hwf Ha Hpath Hb.
  destruct (holds_inv _ _ Ha) as (f & Hf & Hopen & Hlock).
  destruct (wf_owner_open _ _ _ Hwf Hlock) as [Hfd Hlt].
  pose proof (wf_owner_regular _ _ _ Hwf Hlock) as Hreg.
  pose proof (regular_file_usable _ _ Hreg) as Hus.
  destruct a as [p ha], b as [pb hb].
  cbn in Hpath, Hb, Hf, Hlock, Hfd, Hreg, Hus.
  subst pb hb ha.
  split; [|split; [|split; [|split]]].
  - intros r b' w' H.
    apply enter_inv in H
      as [(_ & [Hfree | Hfree] & _) | [(? & ->) | (_ & _ & _ & _ & (? & _ & ->) & _)]];
      try reflexivity.
    + rewrite Hlock in Hfree. discriminate.
    + rewrite Hlock in Hfree. injection Hfree as Hfree. lia.
  - intros Hq. eexists _, _.
    rewrite (enter_busy_quiet pr p None w (fileno f)) by (done || lia).
    split; [reflexivity|]. split; [exact Ha|]. split; [reflexivity|].
    split; [by apply wf_refused_world | done].
  - intros exc r a1 w1 Hexit Hnone.
    assert (Hus1 : lock_path_usable p w1).
    { destruct (exit_fs _ _ _ _ _ _ _ Hexit Hfd) as [Hdirs Hfiles].
      by eapply usable_frame. }
    apply exit_inv in Hexit as (-> & Hp1 & Hrel).
    destruct (Hrel Hnone) as (_ & _ & Hfree). specialize (Hfree Hfd Hlock).
    split; [by unfold holds; rewrite Hnone|]. split.
    + intros r2 b2 w2 msg H ->.
      apply enter_inv in H
        as [(? & _) | [(? & ?) | (_ & _ & _ & _ & _ & (o & Ho & _))]];
        try discriminate.
      rewrite Hfree in Ho. discriminate.
    + intros Hq1. eexists _, _.
      rewrite (enter_free_quiet pr p None w1 Hq1 Hus1 Hfree).
      split; [reflexivity|]. split.
      * unfold holds. cbn. rewrite lookup_insert_eq.
        by rewrite bool_decide_eq_true_2.
      * by unfold holds; rewrite Hnone.
  - intros Hq exc.
    destruct (exit_quiet exc p f w Hq Hopen Hfd Hlock)
      as (w1 & Hrun & Hq1 & _).
    eexists _, _. split; [exact Hrun|]. done.
  - intros c Hc Hpc. destruct (holds_inv _ _ Hc) as (g & Hg & _ & Hlg).
    cbn in Hpc. rewrite Hpc, Hlock in Hlg. injection Hlg as Hlg.
    rewrite Hg. cbn. by rewrite Hlg.
Qed.

(** C5. Every acquisition attempt, by a manager that enters without a file
    object, opens the lock file in truncating write mode before it requests
    the lock: when the statements that precede the
    request have run, the file is empty, and the request is made on the
    description that this [open] returned. So an attempt that is refused
    because another open file owns the lock leaves the file empty: the
    metadata that the holder wrote is gone. *)
Theorem acquire_truncates_before_locking pr b w :
  lock_file_handle b = None →
  (∀ fd s1,
     open_lock_file (mkSt b w) = (Return fd, s1) →
     files (world s1) !! lock_file_path b = Some ""
     ∧ fd = next_ofd w
     ∧ open_files (world s1) !! fd = Some (lock_file_path b))
  ∧ (∀ msg b' w',
       run (__enter__ pr) b w = (Raise (LockAcquisitionError msg), b', w') →
       files w' !! lock_file_path b = Some "").
Proof.
  intros _. split.
  - intros fd s1 H.
    apply open_lock_file_inv in H as (-> & _ & Hfiles & Hofd & _).
    cbn [self world] in *.
    rewrite Hfiles, Hofd, !lookup_insert_eq. done.
  - destruct b as [p h]. intros msg b' w' H.
    apply enter_inv in H
      as [(? & _) | [(? & ?) | (_ & Hfile & _)]]; done.
Qed.

(** C8 (counterexample). On a machine whose disk refuses the write, the
    acquisition succeeds, the manager holds the lock, and the lock file is
    empty: it does not have the three lines. *)
Lemma acquired_without_metadata :
  let '(r, m, w) := run (__enter__ first_proc) first_lock disk_full_world in
  r = Return tt
  ∧ holds m w = true
  ∧ files w !! test_lock_path = Some ""
  ∧ lock_file_ok (pid first_proc) "" = false.
Proof. vm_compute. repeat split. Qed.

(** C8 (amended). After a successful acquisition, by a manager that
    entered without a file object, that logged nothing but its success, that is, whose metadata write did not fail, the lock file
    is the text of three newline-terminated [key=value] lines [pid],
    [hostname], [timestamp], the value of [pid] being the identifier of the
    acquiring process, provided that the host name and the timestamp have
    no line break. *)
Theorem lock_file_after_acquire pr m w m' w' :
  lock_file_handle m = None →
  PyStr.single_line (hostname pr) = true →
  PyStr.single_line (timestamp pr) = true →
  run (__enter__ pr) m w = (Return tt, m', w') →
  log w'
  = (INFO, "Lock acquired successfully: " ++ lock_file_path m) :: log w →
  files w' !! lock_file_path m = Some (metadata_text pr)
  ∧ lock_file_ok (pid pr) (metadata_text pr) = true
  ∧ PyStr.split PyStr.newline (metadata_text pr)
    = ["pid=" ++ PyStr.of_N (pid pr); "hostname=" ++ hostname pr;
       "timestamp=" ++ timestamp pr; ""].
Proof.
  intros _ Hhost Htime H Hlog. destruct m as [p h]. cbn in Hlog.
  split; [|split].
  - apply enter_inv in H
      as [(_ & _ & _ & _ & [[Hfile _] | [_ [text Hw]]]) | [(? & ?) | (_ & _ & _ & _ & (? & _ & ?) & _)]];
      try discriminate; [done|].
    rewrite Hw in Hlog. injection Hlog as Hlog.
    apply (f_equal length) in Hlog. cbn in Hlog. lia.
  - by apply metadata_text_ok.
  - by apply metadata_text_lines.
Qed.

(** C7 (counterexample). On the machine whose disk refuses the metadata,
    the first handle holds the lock, and [get_lock_holder_info] of the
    second handle returns an empty mapping: it has no [pid] entry. *)
Lemma holder_info_without_pid :
  let '(r, m, w) := run (__enter__ first_proc) first_lock disk_full_world in
  r = Return tt
  ∧ holds m w = true
  ∧ fst (fst (run get_lock_holder_info second_lock w)) = Return (Some [])
  ∧ dict_get "pid" [] = None.
Proof. vm_compute. repeat split. Qed.

(** The same loss without any failure of the environment: after an
    attempt that was refused, the holder still holds the lock and the
    mapping read from the file is empty. *)
Lemma holder_info_lost_after_refused_attempt :
  let '(r, _, w) := run (__enter__ second_proc) second_lock world_held in
  r = Raise (LockAcquisitionError "Lock already held by another instance: {}")
  ∧ holds first_lock_held w = true
  ∧ fst (fst (run get_lock_holder_info second_lock w)) = Return (Some []).
Proof. vm_compute. repeat split. Qed.

(** C7 (amended). Called by another handle right after an acquisition, by
    a manager that entered without a file object, whose metadata write did
    not fail (it logged nothing but its success),
    in an environment that does not fail the read, [get_lock_holder_info]
    returns a mapping whose [pid] entry is the identifier of the holder's
    process, for a host name and a timestamp without line break: neither a
    line feed nor a carriage return, which is read as a line feed. In every
    environment, it returns [None] and does not raise when the lock file
    does not exist. *)
Theorem holder_info_after_acquire pr a w a' w' b :
  lock_file_handle a = None →
  PyStr.single_line (hostname pr) = true →
  PyStr.single_line (timestamp pr) = true →
  PyStr.no_carriage_return (hostname pr) = true →
  PyStr.no_carriage_return (timestamp pr) = true →
  run (__enter__ pr) a w = (Return tt, a', w') →
  log w'
  = (INFO, "Lock acquired successfully: " ++ lock_file_path a) :: log w →
  lock_file_path b = lock_file_path a →
  faults w' = [] →
  holds a' w' = true
  ∧ (∃ d, run get_lock_holder_info b w' = (Return (Some d), b, w')
          ∧ dict_get "pid" d = Some (PyStr.of_N (pid pr))
          ∧ dict_get "hostname" d = Some (hostname pr))
  ∧ (∀ c v, files v !! lock_file_path c = None →
       ∃ v', run get_lock_holder_info c v = (Return None, c, v')).
Proof.
  intros _ Hhost Htime Hhost_cr Htime_cr H Hlog Hpath Hq.
  destruct a as [p h], b as [pb hb]. cbn in Hlog, Hpath. subst pb.
  apply enter_inv in H
    as [(_ & _ & _ & Hholds & [[Hfile _] | [_ [text Hw]]]) | [(? & ?) | (_ & _ & _ & _ & (? & _ & ?) & _)]];
    try discriminate.
  - split; [done|]. split.
    + eexists. rewrite (get_lock_holder_info_quiet p hb w' _ Hq Hfile).
      split; [reflexivity|].
      rewrite (metadata_text_as_written pr Hhost_cr Htime_cr).
      rewrite (parse_metadata_text pr Hhost Htime). done.
    + intros [pc hc] v Hnone. by apply get_lock_holder_info_missing.
  - rewrite Hw in Hlog. injection Hlog as Hlog.
    apply (f_equal length) in Hlog. cbn in Hlog. lia.
Qed.

(** C10. Release never raises and returns [False]: in every state and
    every environment. On a handle that holds no file object (released, or
    never acquired) it changes nothing, so a release that went through can
    be repeated at will. An error of the operating system during the
    release is logged and goes no further. And an exception raised in the
    protected region leaves the [with] statement as it is. *)
Theorem release_never_raises exc m w :
  (∃ m' w', run (__exit__ exc) m w = (Return false, m', w'))
  ∧ (lock_file_handle m = None →
     run (__exit__ exc) m w = (Return false, m, w))
  ∧ (∀ r m' w' exc',
       run (__exit__ exc) m w = (r, m', w') → lock_file_handle m' = None →
       run (__exit__ exc') m' w' = (Return false, m', w'))
  ∧ (∀ f msg rest,
       lock_file_handle m = Some f → closed f = false →
       faults w = Some msg :: rest →
       run (__exit__ exc) m w
       = (Return false, m,
          set_log ((ERROR, "Error releasing lock: " ++ msg) :: log w)
            (set_faults rest w)))
  ∧ (∀ A pr (body : M A) e s1 s2,
       __enter__ pr (mkSt m w) = (Return tt, s1) →
       body s1 = (Raise e, s2) →
       fst (with_statement pr body (mkSt m w)) = Raise e).
Proof.
  split; [|split; [|split; [|split]]].
  - unfold run. destruct (exit_never_raises exc (mkSt m w)) as [s' ->].
    eauto.
  - destruct m as [p h]. cbn. intros ->. apply exit_unheld_noop.
  - intros r [p' h'] w' exc' _ Hnone. cbn in Hnone. subst h'.
    apply exit_unheld_noop.
  - intros [fd cl buf pos] msg rest Hf Hopen Hfault.
    destruct m as [p h]. cbn in Hf, Hopen. subst h cl.
    unfold_m. run_with (rewrite ?Hfault). reflexivity.
  - intros A pr body e s1 s2 Henter Hbody. unfold with_statement.
    rewrite Henter, Hbody.
    destruct (exit_never_raises (Some e) s2) as [s3 ->]. reflexivity.
Qed.

(** *** The claims at the scenario of the test suite *)

Lemma refused_acquire_reports_no_holder_witness :
  run (__enter__ second_proc) second_lock world_held
  = (Raise (LockAcquisitionError "Lock already held by another instance: {}"),
     second_lock, world_refused)
  ∧ lock_file_handle second_lock = None
  ∧ open_files world_refused !! next_ofd world_held = None
  ∧ files world_refused !! test_lock_path = Some "".
Proof.
  assert (H : run (__enter__ second_proc) second_lock world_held
    = (Raise (LockAcquisitionError "Lock already held by another instance: {}"),
       second_lock, world_refused)) by (vm_compute; reflexivity).
  split; [exact H|].
  exact (proj2 (refused_acquire_reports_no_holder second_proc second_lock
                  world_held _ second_lock world_refused eq_refl H)).
Defined.

Lemma mutual_exclusion_witness :
  wf_world world_held
  ∧ holds first_lock_held world_held = true
  ∧ (∀ r b' w',
       run (__enter__ second_proc) second_lock world_held = (r, b', w') →
       is_return r = false).
Proof.
  assert (Hwf : wf_world world_held)
    by (apply (bool_decide_unpack _); vm_compute; reflexivity).
  split; [exact Hwf|]. split; [vm_compute; reflexivity|].
  exact (proj1 (mutual_exclusion second_proc first_lock_held second_lock
                  world_held Hwf eq_refl eq_refl eq_refl)).
Defined.

Lemma acquire_truncates_before_locking_witness :
  lock_file_handle second_lock = None
  ∧ files world_refused !! lock_file_path second_lock = Some "".
Proof.
  split; [reflexivity|].
  apply (proj2 (acquire_truncates_before_locking second_proc second_lock
                  world_held eq_refl)
           "Lock already held by another instance: {}" second_lock).
  vm_compute. reflexivity.
Defined.

Lemma lock_file_after_acquire_witness :
  PyStr.single_line (hostname first_proc) = true
  ∧ PyStr.single_line (timestamp first_proc) = true
  ∧ run (__enter__ first_proc) first_lock empty_world
    = (Return tt, first_lock_held, world_held)
  ∧ files world_held !! test_lock_path = Some (metadata_text first_proc)
  ∧ lock_file_ok (pid first_proc) (metadata_text first_proc) = true.
Proof.
  assert (H : run (__enter__ first_proc) first_lock empty_world
              = (Return tt, first_lock_held, world_held))
    by (vm_compute; reflexivity).
  assert (Hlog : log world_held
                 = (INFO, "Lock acquired successfully: "
                          ++ lock_file_path first_lock) :: log empty_world)
    by (vm_compute; reflexivity).
  split; [reflexivity|]. split; [reflexivity|]. split; [exact H|].
  pose proof (lock_file_after_acquire first_proc first_lock empty_world
                first_lock_held world_held eq_refl eq_refl eq_refl H Hlog)
    as (Hfile & Hok & _).
  split; [exact Hfile | exact Hok].
Defined.

Lemma holder_info_after_acquire_witness :
  run (__enter__ first_proc) first_lock empty_world
  = (Return tt, first_lock_held, world_held)
  ∧ faults world_held = []
  ∧ ∃ d, run get_lock_holder_info second_lock world_held
         = (Return (Some d), second_lock, world_held)
         ∧ dict_get "pid" d = Some "4242"
         ∧ dict_get "hostname" d = Some "oracle-0".
Proof.
  assert (H : run (__enter__ first_proc) first_lock empty_world
              = (Return tt, first_lock_held, world_held))
    by (vm_compute; reflexivity).
  assert (Hlog : log world_held
                 = (INFO, "Lock acquired successfully: "
                          ++ lock_file_path first_lock) :: log empty_world)
    by (vm_compute; reflexivity).
  split; [exact H|]. split; [reflexivity|].
  exact (proj1 (proj2 (holder_info_after_acquire first_proc first_lock
                         empty_world first_lock_held world_held second_lock
                         eq_refl eq_refl eq_refl eq_refl eq_refl H Hlog
                         eq_refl eq_refl))).
Defined.

(** ** Claims about the credential resolver *)

Ltac unfold_r :=
  cbv [_parse_and_validate_credentials_json
       _setup_service_account_credentials_from_dict
       _setup_user_credentials_from_dict BuildCredential stage_descriptor
       setup_google_credentials get_google_credentials
       prepare_credentials_for_adc from_service_account_info
       user_credentials google_auth_default dict_copy dict_clear deref alloc
       rlogger modify_state get_state try_except try_finally raise
       mbind mret SE_bind SE_ret] in *.

Ltac rproj :=
  cbn [environ heap next_ref fs sdk_error adc_error default_credentials
       cached_credentials rlog set_environ set_heap set_fs
       set_default_credentials set_cached_credentials set_rlog fst snd] in *.

Section ResolverFacts.

Variable json_loads : string → option jvalue.
Variable json_dumps : gmap string jvalue → string.
Variable is_inline_json : string → bool.


(** C4. [_parse_and_validate_credentials_json] succeeds exactly when the
    input parses as JSON and is a valid descriptor of one of the two
    variants, and then the mapping it returns is the parsed one, [type]
    included. Otherwise it leaves the state alone and raises one error: the
    fixed text [Invalid credentials JSON format] when the input does not
    parse, whatever the input is; [Unsupported credential type] when the
    type is not one of the two; [Incomplete <type> credentials], naming the
    declared type, when a required field is missing. *)
Theorem parse_and_validate_outcome raw st :
  match _parse_and_validate_credentials_json json_loads raw st with
  | (Return creds_data, st') =>
      ∃ v, json_loads raw = Some v
           ∧ valid_descriptor (members_of v) = true
           ∧ heap st' !! creds_data = Some (members_of v)
           ∧ ∃ t, members_of v !! "type" = Some (JStr t)
                  ∧ (t = "service_account" ∨ t = "authorized_user")
  | (Raise e, st') =>
      st' = st
      ∧ match json_loads raw with
        | None => e = ValueError "Invalid credentials JSON format"
        | Some v =>
            valid_descriptor (members_of v) = false
            ∧ match members_of v !! "type" with
              | Some (JStr t) =>
                  if String.eqb t "service_account"
                     || String.eqb t "authorized_user"
                  then e = ValueError ("Incomplete " ++ t ++ " credentials")
                  else e = ValueError "Unsupported credential type"
              | _ => e = ValueError "Unsupported credential type"
              end
        end
  end.
Proof.
  unfold _parse_and_validate_credentials_json, valid_descriptor.
  destruct (json_loads raw) as [v|]; [|split; reflexivity].
  destruct (members_of v !! "type") as [[| | |t| |]|] eqn:Ht;
    try (split; [reflexivity|split; reflexivity]).
  destruct (String.eqb t "service_account") eqn:Hsa;
    [apply String.eqb_eq in Hsa; subst t
    |destruct (String.eqb t "authorized_user") eqn:Hau;
     [apply String.eqb_eq in Hau; subst t|]].
  - destruct (forallb (present_non_empty (members_of v)) _) eqn:Hall.
    + exists v. rewrite Ht, Hall. unfold_r. rproj.
      rewrite lookup_insert_eq.
      split; [reflexivity|]. split; [reflexivity|]. split; [reflexivity|].
      eexists. split; [reflexivity|]. by left.
    + split; [reflexivity|]. split; reflexivity.
  - destruct (forallb (present (members_of v)) _) eqn:Hall.
    + exists v. rewrite Ht, Hall. unfold_r. rproj.
      rewrite lookup_insert_eq.
      split; [reflexivity|]. split; [reflexivity|]. split; [reflexivity|].
      eexists. split; [reflexivity|]. by right.
    + split; [reflexivity|]. split; reflexivity.
  - split; [reflexivity|]. split; reflexivity.
Qed.




Lemma build_credential_clears creds_data st :
  heap (snd (BuildCredential creds_data st)) !! creds_data = Some ∅.
Proof.
  unfold BuildCredential, try_finally.
  match goal with |- context [match ?b st with _ => _ end] =>
    destruct (b st) as [r s1] end.
  unfold_r. rproj. apply lookup_insert_eq.
Qed.

Lemma stage_descriptor_clears creds_data st :
  heap (snd (stage_descriptor json_dumps creds_data st)) !! creds_data
  = Some ∅.
Proof. unfold_r. rproj. apply lookup_insert_eq. Qed.

(** C6. The descriptor is empty when credential construction hands
    control back, whether construction returned or raised, and so it is
    after staging; hence the mapping that validation returned is empty
    when [setup_google_credentials] and [prepare_credentials_for_adc]
    return or raise after a successful validation. *)
Theorem descriptor_cleared creds_data st :
  heap (snd (BuildCredential creds_data st)) !! creds_data = Some ∅
  ∧ heap (snd (stage_descriptor json_dumps creds_data st)) !! creds_data
    = Some ∅
  ∧ match environ st !! GOOGLE_APPLICATION_CREDENTIALS with
    | Some creds_env =>
        if negb (String.eqb creds_env "") && is_inline_json creds_env
        then
          match _parse_and_validate_credentials_json json_loads creds_env st
          with
          | (Return validated, _) =>
              heap (snd (setup_google_credentials json_loads is_inline_json
                           st)) !! validated = Some ∅
              ∧ heap (snd (prepare_credentials_for_adc json_loads json_dumps
                             is_inline_json st)) !! validated = Some ∅
          | (Raise _, _) => True
          end
        else True
    | None => True
    end.
Proof.
  split; [apply build_credential_clears|].
  split; [apply stage_descriptor_clears|].
  unfold setup_google_credentials, prepare_credentials_for_adc.
  cbv [mbind SE_bind get_state].
  destruct (environ st !! GOOGLE_APPLICATION_CREDENTIALS) as [[|c raw]|];
    [done| |done].
  cbn [String.eqb negb andb].
  destruct (is_inline_json (String c raw)); [|done].
  destruct (_parse_and_validate_credentials_json _ _ st) as [[r|e] s1];
    [|done].
  split; [apply build_credential_clears | apply stage_descriptor_clears].
Qed.

(** C9. When the configuration value is absent or empty, or is a path
    rather than inline JSON, [prepare_credentials_for_adc] returns without
    raising and leaves the configuration value as it was; when the path is
    the one of an existing file, it changes nothing at all. *)
Theorem prepare_leaves_a_path_alone st :
  match environ st !! GOOGLE_APPLICATION_CREDENTIALS with
  | None =>
      ∃ st', prepare_credentials_for_adc json_loads json_dumps
               is_inline_json st = (Return tt, st')
             ∧ environ st' = environ st
  | Some creds_env =>
      if String.eqb creds_env "" || negb (is_inline_json creds_env)
      then
        ∃ st', prepare_credentials_for_adc json_loads json_dumps
                 is_inline_json st = (Return tt, st')
               ∧ environ st' = environ st
               ∧ fs st' = fs st
               ∧ (if negb (String.eqb creds_env "")
                     && file_exists st creds_env
                  then st' = st else True)
      else True
  end.
Proof.
  unfold prepare_credentials_for_adc.
  cbv [mbind SE_bind get_state].
  destruct (environ st !! GOOGLE_APPLICATION_CREDENTIALS) as [[|c raw]|].
  - cbn. eexists. split; [reflexivity|done].
  - cbn [String.eqb orb negb andb].
    destruct (is_inline_json (String c raw)); cbn [negb]; [done|].
    destruct (file_exists st (String c raw));
      eexists; (split; [reflexivity|done]).
  - eexists. split; [reflexivity|done].
Qed.

End ResolverFacts.

(** Both paths of construction exist: with the descriptor of the test
    suite the SDK's success returns and its failure raises, and the
    descriptor is empty either way while the constructor's copy is not. *)
Example build_credential_returns :
  let '(r, st) := BuildCredential 0
                    (sdk_working_state service_account_descriptor) in
  r = Return tt ∧ heap st !! 0 = Some ∅
  ∧ heap st !! 1 = Some service_account_descriptor.
Proof. vm_compute. repeat split. Qed.

Example build_credential_raises :
  let '(r, st) := BuildCredential 0
                    (sdk_failing_state service_account_descriptor) in
  r = Raise (ValueError "Invalid service account credentials")
  ∧ heap st !! 0 = Some ∅.
Proof. vm_compute. repeat split. Qed.

(** The same for the other variant: the wrapper of the constructor of
    authorized user credentials lets the exception of the SDK through, as
    [test_setup_authorized_user_propagates_sdk_error] requires, and
    BuildCredential, which calls it, raises the generic error, without the
    text of the SDK. *)
Example build_credential_raises_for_authorized_user :
  _setup_user_credentials_from_dict 0
    (sdk_failing_state authorized_user_descriptor)
  = (Raise (PyException "SDK Error"),
     sdk_failing_state authorized_user_descriptor)
  ∧ (let '(r, st) := BuildCredential 0
                       (sdk_failing_state authorized_user_descriptor) in
     r = Raise (ValueError "Invalid authorized_user credentials")
     ∧ PyStr.contains "SDK Error" (exn_str (ValueError
                                    "Invalid authorized_user credentials"))
       = false
     ∧ heap st !! 0 = Some ∅).
Proof. vm_compute. repeat split. Qed.

(** * More of the lock manager *)

(** ** The parser of [get_lock_holder_info] *)

Lemma dict_get_set k k' v d :
  dict_get k (dict_set k' v d)
  = if String.eqb k' k then Some v else dict_get k d.
Proof.
  induction d as [|[k0 v0] d IH]; cbn [dict_set dict_get].
  - reflexivity.
  - destruct (String.eqb_spec k0 k') as [->|H0]; cbn [dict_get].
    + by destruct (String.eqb k' k).
    + rewrite IH. destruct (String.eqb_spec k0 k) as [->|H1]; [|done].
      by destruct (String.eqb_spec k' k) as [->|].
Qed.

(** A line with the separator is the text before its first occurrence, the
    separator, and the text after it. *)
Lemma split_once_spec sep line :
  PyStr.contains_char sep line = true →
  line = fst (PyStr.split_once sep line)
         ++ String sep (snd (PyStr.split_once sep line))
  ∧ PyStr.contains_char sep (fst (PyStr.split_once sep line)) = false.
Proof.
  induction line as [|c s IH]; [done|].
  cbn [PyStr.contains_char PyStr.split_once].
  destruct (Ascii.eqb c sep) eqn:Hc.
  - intros _. apply Ascii.eqb_eq in Hc. subst c. done.
  - cbn [orb]. intros Hs. destruct (IH Hs) as [Heq Hk].
    destruct (PyStr.split_once sep s) as [k v]. cbn [fst snd] in *.
    rewrite str_app_cons, <- Heq. cbn [PyStr.contains_char].
    by rewrite Hc, Hk.
Qed.

Lemma str_app_inv_separator sep (k k' v v' : string) :
  PyStr.contains_char sep k = false → PyStr.contains_char sep k' = false →
  k ++ String sep v = k' ++ String sep v' → k = k' ∧ v = v'.
Proof.
  intros Hk Hk' Heq.
  pose proof (split_once_app_separator sep k v Hk) as H1.
  pose proof (split_once_app_separator sep k' v' Hk') as H2.
  rewrite Heq in H1. rewrite H1 in H2. by injection H2.
Qed.

Lemma parse_metadata_fold content :
  parse_metadata content
  = foldl metadata_step [] (PyStr.split PyStr.newline (PyStr.strip content)).
Proof. reflexivity. Qed.

Lemma metadata_step_assignment k v d :
  PyStr.contains_char PyStr.equals_sign k = false →
  metadata_step d (assignment k v) = dict_set k v d.
Proof.
  intros Hk. unfold metadata_step, assignment.
  rewrite contains_char_app, Hk. cbn [PyStr.contains_char orb].
  rewrite Ascii.eqb_refl. cbn [orb].
  by rewrite (split_once_app_separator _ _ _ Hk).
Qed.

Lemma metadata_step_other k d line :
  PyStr.contains_char PyStr.equals_sign k = false →
  (∀ v, line ≠ assignment k v) →
  dict_get k (metadata_step d line) = dict_get k d.
Proof.
  intros Hk Hline. unfold metadata_step.
  destruct (PyStr.contains_char PyStr.equals_sign line) eqn:Hc; [|done].
  destruct (split_once_spec _ _ Hc) as [Heq Hkey].
  destruct (PyStr.split_once PyStr.equals_sign line) as [key value].
  cbn [fst snd] in *. rewrite dict_get_set.
  destruct (String.eqb_spec key k) as [->|]; [|done].
  by destruct (Hline value).
Qed.

Lemma assignment_inj k v v' :
  assignment k v = assignment k v' → v = v'.
Proof.
  unfold assignment. induction k as [|c k IH].
  - rewrite !str_app_nil_l. by intros [= ->].
  - rewrite !str_app_cons. intros [= H]. by apply IH.
Qed.

(** A key with the separator is never assigned. *)
Lemma metadata_step_key k d line :
  PyStr.contains_char PyStr.equals_sign k = true →
  dict_get k (metadata_step d line) = dict_get k d.
Proof.
  intros Hk. unfold metadata_step.
  destruct (PyStr.contains_char PyStr.equals_sign line) eqn:Hc; [|done].
  destruct (split_once_spec _ _ Hc) as [_ Hkey].
  destruct (PyStr.split_once PyStr.equals_sign line) as [key value].
  cbn [fst snd] in *. rewrite dict_get_set.
  destruct (String.eqb_spec key k) as [->|]; [|done]. congruence.
Qed.

Lemma fold_metadata_key k d lines :
  PyStr.contains_char PyStr.equals_sign k = true →
  dict_get k (foldl metadata_step d lines) = dict_get k d.
Proof.
  intros Hk. revert d. induction lines as [|x l IH]; intros d; [done|].
  cbn [foldl]. by rewrite IH, metadata_step_key.
Qed.

Lemma assignment_cases k x :
  PyStr.contains_char PyStr.equals_sign k = false →
  (∃ vx, x = assignment k vx) ∨ (∀ vx, x ≠ assignment k vx).
Proof.
  intros Hk.
  destruct (PyStr.contains_char PyStr.equals_sign x) eqn:Hc.
  - destruct (split_once_spec _ _ Hc) as [Heq Hkey].
    destruct (PyStr.split_once PyStr.equals_sign x) as [key value].
    cbn [fst snd] in *.
    destruct (String.eqb_spec key k) as [->|Hne]; [left; by exists value|].
    right. intros vx Hx. rewrite Hx in Heq.
    by apply str_app_inv_separator in Heq as [<- _].
  - right. intros vx ->. unfold assignment in Hc.
    rewrite contains_char_app in Hc. cbn [PyStr.contains_char] in Hc.
    rewrite Ascii.eqb_refl in Hc. by destruct (PyStr.contains_char _ k).
Qed.

Lemma fold_metadata_get k v d lines :
  PyStr.contains_char PyStr.equals_sign k = false →
  dict_get k (foldl metadata_step d lines) = Some v
  ↔ last_assignment k lines v
    ∨ (dict_get k d = Some v ∧ ∀ v', assignment k v' ∉ lines).
Proof.
  intros Hk. induction lines as [|x l IH] using rev_ind.
  - cbn [foldl]. split.
    + intros H. right. split; [done|]. intros v'. apply not_elem_of_nil.
    + intros [(before & after & H & _) | [H _]]; [|done].
      by destruct before.
  - rewrite foldl_snoc.
    destruct (assignment_cases k x Hk) as [[vx ->]|Hno].
    + rewrite (metadata_step_assignment _ _ _ Hk), dict_get_set.
      rewrite String.eqb_refl. split.
      * intros [= <-]. left. exists l, []. split; [done|].
        intros v'. apply not_elem_of_nil.
      * intros [(before & after & H & Hlast) | [_ Hnone]].
        -- induction after as [|y after _] using rev_ind.
           ++ apply app_inj_tail in H as [_ H].
              by rewrite (assignment_inj _ _ _ H).
           ++ rewrite app_comm_cons, app_assoc in H.
              apply app_inj_tail in H as [_ H].
              destruct (Hlast vx). rewrite <- H.
              apply elem_of_app. right. by apply list_elem_of_singleton.
        -- destruct (Hnone vx).
           apply elem_of_app. right. by apply list_elem_of_singleton.
    + rewrite metadata_step_other; [|done|done].
      rewrite IH. split.
      * intros [(before & after & -> & Hlast) | [Hd Hnone]].
        -- left. exists before, (after ++ [x])%list.
           split; [by rewrite <- app_assoc|].
           intros v' [Hin | Hin%list_elem_of_singleton]%elem_of_app;
             [by destruct (Hlast v') | by destruct (Hno v')].
        -- right. split; [done|].
           intros v' [Hin | Hin%list_elem_of_singleton]%elem_of_app;
             [by destruct (Hnone v') | by destruct (Hno v')].
      * intros [(before & after & H & Hlast) | [Hd Hnone]].
        -- induction after as [|y after _] using rev_ind.
           ++ apply app_inj_tail in H as [_ H]. by destruct (Hno v).
           ++ rewrite app_comm_cons, app_assoc in H.
              apply app_inj_tail in H as [-> ->].
              left. exists before, after. split; [done|].
              intros v' Hin. destruct (Hlast v').
              apply elem_of_app. by left.
        -- right. split; [done|]. intros v' Hin.
           destruct (Hnone v'). apply elem_of_app. by left.
Qed.

(** ** Reasoning about runs: the rules of [wp] *)

Lemma wp_ret {S A} (a : A) Q E (s : S) : Q a s → wp (mret a) Q E s.
Proof. done. Qed.

Lemma wp_raise {S A} e (Q : A → S → Prop) E (s : S) :
  E e s → wp (raise e) Q E s.
Proof. done. Qed.

Lemma wp_bind {S A B} (m : SE S A) (f : A → SE S B) Q E s :
  wp m (λ a, wp (f a) Q E) E s → wp (m ≫= f) Q E s.
Proof.
  unfold wp. cbv [mbind SE_bind]. by destruct (m s) as [[a|e] s1].
Qed.

Lemma wp_assoc {S A B C} (m : SE S A) (f : A → SE S B) (g : B → SE S C)
  Q E s :
  wp ((m ≫= f) ≫= g) Q E s → wp (m ≫= λ a, f a ≫= g) Q E s.
Proof.
  unfold wp. cbv [mbind SE_bind]. by destruct (m s) as [[a|e] s1].
Qed.

Lemma wp_try_except {S A} (body : SE S A) handler Q E s :
  wp body Q (λ e, wp (handler e) Q E) s → wp (try_except body handler) Q E s.
Proof. unfold wp, try_except. by destruct (body s) as [[a|e] s1]. Qed.

Lemma wp_mono {S A} (m : SE S A) (Q Q' : A → S → Prop)
  (E E' : exn → S → Prop) s :
  wp m Q E s → (∀ a s', Q a s' → Q' a s') → (∀ e s', E e s' → E' e s') →
  wp m Q' E' s.
Proof. unfold wp. destruct (m s) as [[a|e] s1]; eauto. Qed.

Lemma wp_conj {S A} (m : SE S A) (Q Q' : A → S → Prop)
  (E E' : exn → S → Prop) s :
  wp m Q E s → wp m Q' E' s →
  wp m (λ a s', Q a s' ∧ Q' a s') (λ e s', E e s' ∧ E' e s') s.
Proof. unfold wp. by destruct (m s) as [[a|e] s1]. Qed.

Lemma wp_run {A} (m : M A) Q E lm w r lm' w' :
  wp m Q E (mkSt lm w) → run m lm w = (r, lm', w') →
  match r with
  | Return a => Q a (mkSt lm' w')
  | Raise e => E e (mkSt lm' w')
  end.
Proof.
  unfold wp, run. destruct (m (mkSt lm w)) as [[a|e] [m1 w1]]; cbn;
    by intros H [= <- <- <-].
Qed.

Lemma wp_get_world Q E (s : St) : Q (world s) s → wp get_world Q E s.
Proof. done. Qed.

Lemma wp_get_self Q E (s : St) : Q (self s) s → wp get_self Q E s.
Proof. done. Qed.

Lemma wp_modify_world f Q E (s : St) :
  Q tt (mkSt (self s) (f (world s))) → wp (modify_world f) Q E s.
Proof. done. Qed.

Lemma wp_assign_handle h Q E (s : St) :
  Q tt (mkSt (mkLockManager (lock_file_path (self s)) h) (world s)) →
  wp (assign_handle h) Q E s.
Proof. done. Qed.

Lemma wp_logger l msg Q E (s : St) :
  Q tt (mkSt (self s) (set_log ((l, msg) :: log (world s)) (world s))) →
  wp (logger l msg) Q E s.
Proof. done. Qed.

Lemma set_faults_same w : set_faults (faults w) w = w.
Proof. by destruct w. Qed.

Lemma wp_io_fault Q E (s : St) :
  (∀ fs, Q tt (mkSt (self s) (set_faults fs (world s)))) →
  (∀ fs msg, E (OSError msg) (mkSt (self s) (set_faults fs (world s)))) →
  wp io_fault Q E s.
Proof.
  intros HQ HE. unfold wp, io_fault. destruct s as [m w]. cbn [self world] in *.
  destruct (faults w) as [|[msg|] rest] eqn:Hf.
  - rewrite <- (set_faults_same w). apply HQ.
  - apply HE.
  - apply HQ.
Qed.

(** *** What the steps of a method keep *)

Section Keeps.

Variable p : string.
Variable fd : nat.
Variable w0 : World.

Lemma lock_inv_rebase s :
  lock_inv p fd w0 s → lock_inv p fd (world s) s.
Proof. intros []. by constructor. Qed.

Lemma lock_inv_faults m w fs :
  lock_inv p fd w0 (mkSt m w) → lock_inv p fd w0 (mkSt m (set_faults fs w)).
Proof. intros []. by constructor. Qed.

Lemma lock_inv_log m w record :
  lock_inv p fd w0 (mkSt m w) →
  lock_inv p fd w0 (mkSt m (set_log (record :: log w) w)).
Proof. intros []. constructor; try done. cbn. by apply suffix_cons_r. Qed.

Lemma lock_inv_dirs m w more :
  lock_inv p fd w0 (mkSt m w) →
  (∀ a, a ∈ more → files w !! a = None) →
  lock_inv p fd w0 (mkSt m (set_dirs (dirs w ∪ more) w)).
Proof.
  intros [Hp Hh Hfd (Hlt & Hown & Hreg) Hfiles Hopen Hflocks Howner Hdirs
            Hnext Hlog] Hmore.
  constructor; try done; cbn in *.
  - split; [done|]. split; [done|]. cbn.
    eapply map_Forall_impl; [exact Hreg|]. cbn.
    intros _ q (Hq & Hqdir & Hqabove). split; [done|]. split.
    + intros [?|Hin]%elem_of_union; [done|].
      rewrite (Hmore q Hin) in Hq. by destruct Hq.
    + eapply Forall_impl; [exact Hqabove|]. cbn. intros a [Ha ?].
      split; [|done]. apply elem_of_union. by left.
  - etrans; [eassumption|]. apply union_subseteq_l.
Qed.

Lemma lock_inv_not_dir m w :
  lock_inv p fd w0 (mkSt m w) → open_files w !! fd = Some p → p ∉ dirs w.
Proof.
  intros H Hofd. destruct (inv_wf _ _ _ _ H) as (_ & _ & Hreg).
  by destruct (Hreg fd p Hofd) as (_ & ? & _).
Qed.

Lemma lock_inv_handle m w h :
  lock_inv p fd w0 (mkSt m w) →
  live_handle (mkLockManager (lock_file_path m) h) = live_handle m →
  lock_inv p fd w0 (mkSt (mkLockManager (lock_file_path m) h) w).
Proof. intros [] Hh. constructor; try done; cbn in *; by rewrite Hh. Qed.

Lemma lock_inv_write m w content :
  lock_inv p fd w0 (mkSt m w) → p ∉ dirs w →
  lock_inv p fd w0 (mkSt m (set_files (<[p := content]> (files w)) w)).
Proof.
  intros [Hp Hh Hfd (Hlt & Hown & Hreg) Hfiles Hopen Hflocks Howner Hdirs
            Hnext Hlog] Hdir.
  constructor; try done; cbn in *.
  - split; [done|]. split; [done|]. cbn.
    eapply map_Forall_impl; [exact Hreg|]. cbn. intros _ q.
    by apply regular_file_write.
  - intros q Hq. rewrite lookup_insert_ne by done. auto.
Qed.

Lemma lock_inv_grant m w :
  lock_inv p fd w0 (mkSt m w) →
  open_files w !! fd = Some p → flocks w !! p = None →
  lock_inv p fd w0 (mkSt m (set_flocks (<[p := fd]> (flocks w)) w)).
Proof.
  intros [Hp Hh Hfd (Hlt & Hown & Hreg) Hfiles Hopen Hflocks Howner Hdirs
            Hnext Hlog].
  cbn in *. intros Hofd Hfree. constructor; cbn; try done.
  - split; [done|]. split; [|done]. cbn.
    apply map_Forall_insert_2; [done|]. done.
  - intros q Hq. rewrite lookup_insert_ne by done. auto.
  - intros o Ho. rewrite lookup_insert_eq. rewrite <- Howner by done.
    rewrite Hfree. split; intros [=]. done.
Qed.

Lemma lock_inv_drop m w :
  lock_inv p fd w0 (mkSt m w) → lock_inv p fd w0 (mkSt m (drop_flock fd w)).
Proof.
  intros Hinv. unfold drop_flock.
  destruct (open_files w !! fd) as [q|] eqn:Hofd; [|done].
  destruct (flocks w !! q) as [owner|] eqn:Hq; [|done].
  destruct (decide (owner = fd)) as [->|]; [|done].
  destruct Hinv
    as [Hp Hh Hfd (Hlt & Hown & Hreg) Hfiles Hopen Hflocks Howner Hdirs
          Hnext Hlog].
  cbn in *. destruct (Hfd q Hofd) as [-> _].
  constructor; cbn; try done.
  - split; [done|]. split; [|done]. cbn. by apply map_Forall_delete.
  - intros q Hne. rewrite lookup_delete_ne by done. auto.
  - intros o Ho. rewrite lookup_delete_eq. rewrite <- Howner by done.
    rewrite Hq. split; [done|]. by intros [= ->].
Qed.

Lemma lock_inv_close m w h :
  lock_inv p fd w0 (mkSt m w) →
  live_handle (mkLockManager (lock_file_path m) h) = None →
  lock_inv p fd w0
    (mkSt (mkLockManager (lock_file_path m) h)
       (set_open_files (delete fd (open_files w)) (drop_flock fd w))).
Proof.
  intros Hinv Hidle.
  assert (Hfree : ∀ q o, flocks (drop_flock fd w) !! q = Some o → o ≠ fd).
  { destruct Hinv as [_ _ Hfd (_ & Hown & _) _ _ _ _ _ _ _]. cbn in *.
    intros q o Hq ->. unfold drop_flock in Hq.
    destruct (open_files w !! fd) as [q'|] eqn:Hofd.
    - destruct (Hfd q' eq_refl) as [-> _].
      destruct (flocks w !! p) as [owner|] eqn:Hl.
      + destruct (decide (owner = fd)) as [->|Hne]; cbn in Hq.
        * destruct (decide (q = p)) as [->|Hqp].
          -- by rewrite lookup_delete_eq in Hq.
          -- rewrite lookup_delete_ne in Hq by done.
             pose proof (Hown q fd Hq) as Hc. cbn in Hc. congruence.
        * pose proof (Hown q fd Hq) as Hc. cbn in Hc. congruence.
      + pose proof (Hown q fd Hq) as Hc. cbn in Hc. congruence.
    - pose proof (Hown q fd Hq) as Hc. cbn in Hc. congruence. }
  apply lock_inv_drop in Hinv.
  assert (Hof : open_files (drop_flock fd w) = open_files w).
  { unfold drop_flock. repeat case_match; done. }
  assert (Hnx : next_ofd (drop_flock fd w) = next_ofd w).
  { unfold drop_flock. repeat case_match; done. }
  destruct Hinv
    as [Hp Hh Hfd (Hlt & Hown & Hreg) Hfiles Hopen Hflocks Howner Hdirs
          Hnext Hlog].
  cbn in *. rewrite Hof in *. constructor; cbn; try done.
  - intros k. by rewrite Hidle.
  - intros q. by rewrite lookup_delete_eq.
  - split; [|split]; cbn.
    + by apply map_Forall_delete.
    + intros q o Hq. rewrite lookup_delete_ne by (by eapply not_eq_sym, Hfree).
      by apply Hown.
    + apply map_Forall_delete. exact Hreg.
  - intros k Hk. rewrite lookup_delete_ne by done. auto.
Qed.

Lemma lock_inv_open m w buf pos :
  lock_inv p fd w0 (mkSt m w) → next_ofd w = fd →
  p ∉ dirs w →
  Forall (λ a, a ∈ dirs w ∧ files w !! a = None)
    (PyPath.ancestors (PyPath.parent p)) →
  lock_inv p fd w0
    (mkSt (mkLockManager (lock_file_path m) (Some (mkFileObj fd false buf pos)))
       (set_next_ofd (S fd)
          (set_open_files (<[fd := p]> (open_files w))
             (set_files (<[p := ""]> (files w)) w)))).
Proof.
  intros [Hp Hh Hfd (Hlt & Hown & Hreg) Hfiles Hopen Hflocks Howner Hdirs
            Hnext Hlog].
  cbn in *. intros Hfresh Hdir Habove. constructor; cbn; try done.
  - intros k [= <-]. by rewrite lookup_insert_eq.
  - intros q. rewrite lookup_insert_eq. by intros [= <-].
  - split; [|split]; cbn.
    + apply map_Forall_insert_2; [lia|].
      eapply map_Forall_impl; [exact Hlt|]. cbn. lia.
    + intros q o Hq. pose proof (Hown q o Hq) as Ho. cbn in Ho.
      pose proof (Hlt o q Ho) as Hlo. cbn in Hlo.
      rewrite lookup_insert_ne by lia. done.
    + apply map_Forall_insert_2.
      * split; [by cbn; rewrite lookup_insert_eq|]. split; [done|].
        eapply Forall_impl; [exact Habove|]. cbn. intros a [Ha Hnone].
        split; [done|]. rewrite lookup_insert_ne; [done|]. by intros ->.
      * eapply map_Forall_impl; [exact Hreg|]. cbn. intros _ q Hq.
        by apply (regular_file_write q p "" w).
  - intros q Hq. rewrite lookup_insert_ne by done. auto.
  - intros k Hk. rewrite lookup_insert_ne by done. auto.
  - lia.
Qed.

End Keeps.

Lemma wp_the_handle Q E (s : St) :
  match lock_file_handle (self s) with
  | Some f => Q f s
  | None => E (AttributeError "'NoneType' object has no attribute") s
  end →
  wp the_handle Q E s.
Proof. unfold wp, the_handle. cbv [mbind SE_bind get_self].
  by destruct (lock_file_handle (self s)). Qed.

(** The case analysis of a test in the goal. *)
Ltac wp_decide :=
  match goal with
  | |- context [bool_decide ?P] => destruct (bool_decide P)
  end.

Tactic Notation "wp_proj" :=
  cbn [self world lock_file_path lock_file_handle fileno closed buffer
       position files dirs flocks open_files next_ofd faults log
       set_files set_dirs set_flocks set_open_files set_next_ofd set_faults
       set_log].
Tactic Notation "wp_proj" "in" hyp(H) :=
  cbn [self world lock_file_path lock_file_handle fileno closed buffer
       position files dirs flocks open_files next_ofd faults log
       set_files set_dirs set_flocks set_open_files set_next_ofd set_faults
       set_log] in H.

Section KeepsMethods.

Variable p : string.
Variable fd : nat.
Variable w0 : World.

Lemma live_handle_Some m k :
  live_handle m = Some k ↔
  ∃ f, lock_file_handle m = Some f ∧ closed f = false ∧ fileno f = k.
Proof.
  unfold live_handle. destruct (lock_file_handle m) as [f|].
  - destruct (closed f) eqn:Hc.
    + split; [done|]. intros (? & [= <-] & ? & _). congruence.
    + split; [intros [= <-]; eauto|]. by intros (? & [= <-] & _ & <-).
  - split; [done|]. by intros (? & ? & _).
Qed.

Lemma idle_live_handle m : idle m = true ↔ live_handle m = None.
Proof.
  unfold idle, live_handle. destruct (lock_file_handle m) as [f|]; [|done].
  by destruct (closed f).
Qed.

Lemma io_fault_keeps s :
  lock_inv p fd w0 s →
  wp io_fault (λ _ s', lock_inv p fd w0 s' ∧ self s' = self s
                       ∧ open_files (world s') = open_files (world s)
                       ∧ flocks (world s') = flocks (world s)
                       ∧ next_ofd (world s') = next_ofd (world s))
              (λ _ s', lock_inv p fd w0 s' ∧ self s' = self s
                       ∧ open_files (world s') = open_files (world s)
                       ∧ flocks (world s') = flocks (world s)
                       ∧ next_ofd (world s') = next_ofd (world s)) s.
Proof.
  destruct s as [m w]. intros H.
  apply wp_io_fault; intros; cbn; (split; [by apply lock_inv_faults|done]).
Qed.

Lemma logger_keeps l msg s :
  lock_inv p fd w0 s →
  wp (logger l msg) (λ _ s', lock_inv p fd w0 s' ∧ self s' = self s)
     (λ _ _, False) s.
Proof.
  destruct s as [m w]. intros H. apply wp_logger.
  split; [by apply lock_inv_log|done].
Qed.

Lemma handle_fileno_keeps s :
  lock_inv p fd w0 s →
  wp handle_fileno (λ k s', s' = s ∧ k = fd) (λ _ s', s' = s) s.
Proof.
  intros H. unfold handle_fileno. apply wp_bind, wp_the_handle.
  destruct (lock_file_handle (self s)) as [f|] eqn:Hf; [|done].
  destruct (closed f) eqn:Hc; [done|]. apply wp_ret. split; [done|].
  apply (inv_handle _ _ _ _ H). apply live_handle_Some. eauto.
Qed.

Lemma path_mkdir_keeps d s :
  lock_inv p fd w0 s →
  wp (path_mkdir d)
     (λ _ s', lock_inv p fd w0 s' ∧ self s' = self s
              ∧ next_ofd (world s') = next_ofd (world s)
              ∧ list_to_set (PyPath.ancestors d) ⊆ dirs (world s')
              ∧ Forall (λ a, a ∈ dirs (world s')
                             ∧ files (world s') !! a = None)
                  (PyPath.ancestors d))
     (λ _ s', lock_inv p fd w0 s' ∧ self s' = self s) s.
Proof.
  intros H. unfold path_mkdir. apply wp_bind.
  eapply wp_mono; [by apply io_fault_keeps| |by intros ?? (? & ? & _)].
  intros ? [m w] (Hinv & Hself & _ & _ & Hnext). cbv beta.
  apply wp_bind, wp_get_world. wp_proj. wp_proj in Hself. wp_proj in Hnext.
  match goal with
  | |- context [bool_decide (Forall ?P ?l)] =>
      destruct (bool_decide (Forall P l)) eqn:Hcheck
  end; [|clear Hcheck; wp_decide; by apply wp_raise].
  apply bool_decide_eq_true_1 in Hcheck.
  apply wp_modify_world. wp_proj.
  split.
  { apply lock_inv_dirs; [done|]. intros x Hx%elem_of_list_to_set.
    exact (proj1 (Forall_forall _ _) Hcheck x Hx). }
  split; [done|]. split; [done|]. split; [apply union_subseteq_r|].
  apply Forall_forall. intros x Hx. split.
  - apply elem_of_union. right. by apply elem_of_list_to_set.
  - exact (proj1 (Forall_forall _ _) Hcheck x Hx).
Qed.

Lemma io_fault_fs s :
  wp io_fault
     (λ _ s', files (world s') = files (world s)
              ∧ dirs (world s') = dirs (world s))
     (λ _ _, True) s.
Proof. by apply wp_io_fault. Qed.

(** [open] and the assignment of the file object it returns. *)
Lemma open_w_keeps s :
  lock_inv p fd w0 s → next_ofd (world s) = fd →
  Forall (λ a, a ∈ dirs (world s) ∧ files (world s) !! a = None)
    (PyPath.ancestors (PyPath.parent p)) →
  wp (open_w p ≫= λ f, assign_handle (Some f))
     (λ _ s', lock_inv p fd w0 s' ∧ live_handle (self s') = Some fd)
     (λ _ s', lock_inv p fd w0 s' ∧ self s' = self s) s.
Proof.
  intros H Hnext Habove. unfold open_w. apply wp_bind, wp_bind.
  eapply wp_mono;
    [apply wp_conj; [by apply io_fault_keeps | apply io_fault_fs]
    | |by intros ?? [(? & ? & _) _]].
  intros ? [m w] [(Hinv & Hself & _ & _ & Hnext') [Hfiles' Hdirs']].
  wp_proj. wp_proj in Hself. wp_proj in Hnext'. wp_proj in Hfiles'.
  wp_proj in Hdirs'. rewrite Hnext in Hnext'.
  rewrite <- Hfiles', <- Hdirs' in Habove.
  apply wp_bind, wp_get_world. wp_proj. rewrite Hnext'.
  destruct (bool_decide (p ∈ dirs w)) eqn:Hdir; [by apply wp_raise|].
  apply bool_decide_eq_false_1 in Hdir.
  destruct (bool_decide (PyPath.parent p ∈ dirs w));
    [|wp_decide; by apply wp_raise].
  apply wp_bind, wp_modify_world, wp_ret, wp_assign_handle. wp_proj.
  split; [by apply lock_inv_open|done].
Qed.

Lemma handle_fileno_live s k :
  live_handle (self s) = Some k →
  wp handle_fileno (λ k' s', s' = s ∧ k' = k) (λ _ _, False) s.
Proof.
  intros (f & Hf & Hc & <-)%live_handle_Some.
  unfold handle_fileno. apply wp_bind, wp_the_handle. rewrite Hf, Hc.
  by apply wp_ret.
Qed.

Lemma flock_ex_nb_keeps s :
  lock_inv p fd w0 s →
  wp (flock_ex_nb fd) (λ _ s', lock_inv p fd w0 s' ∧ self s' = self s)
     (λ _ s', lock_inv p fd w0 s' ∧ self s' = self s
              ∧ flocks (world s') = flocks (world s)) s.
Proof.
  intros H. unfold flock_ex_nb. apply wp_bind.
  eapply wp_mono; [by apply io_fault_keeps| |by intros ?? (? & ? & ? & ? & ?)].
  intros ? [m w] (Hinv & Hself & _ & Hl & _). cbv beta.
  apply wp_bind, wp_get_world. wp_proj. wp_proj in Hself. wp_proj in Hl.
  destruct (open_files w !! fd) as [q|] eqn:Hofd; [|by apply wp_raise].
  destruct (inv_fd _ _ _ _ Hinv q Hofd) as [-> _].
  destruct (flocks w !! p) as [owner|] eqn:Hlp.
  - destruct (decide (owner = fd)); [by apply wp_ret | by apply wp_raise].
  - apply wp_modify_world. split; [by apply lock_inv_grant|done].
Qed.

Lemma flock_un_keeps s :
  lock_inv p fd w0 s →
  wp (flock_un fd) (λ _ s', lock_inv p fd w0 s' ∧ self s' = self s)
                   (λ _ s', lock_inv p fd w0 s' ∧ self s' = self s) s.
Proof.
  intros H. unfold flock_un. apply wp_bind.
  eapply wp_mono; [by apply io_fault_keeps| |by intros ?? (? & ? & _)].
  intros ? [m w] (Hinv & Hself & _). cbv beta.
  apply wp_bind, wp_get_world. wp_proj. wp_proj in Hself.
  destruct (open_files w !! fd) as [q|] eqn:Hofd; [|by apply wp_raise].
  apply wp_modify_world. split; [by apply lock_inv_drop|done].
Qed.

Lemma handle_write_keeps data s :
  lock_inv p fd w0 s →
  wp (handle_write data)
     (λ _ s', lock_inv p fd w0 s' ∧ live_handle (self s') = live_handle (self s))
     (λ _ s', lock_inv p fd w0 s' ∧ self s' = self s) s.
Proof.
  intros H. unfold handle_write. apply wp_bind, wp_the_handle.
  destruct (lock_file_handle (self s)) as [f|] eqn:Hf; [|done].
  destruct (closed f) eqn:Hc; [done|].
  apply wp_bind.
  eapply wp_mono; [by apply io_fault_keeps| |by intros ?? (? & ? & _)].
  intros ? [m1 w1] (H1 & Hself & _). wp_proj in Hself.
  apply wp_assign_handle. wp_proj.
  assert (live_handle (mkLockManager (lock_file_path m1)
            (Some (mkFileObj (fileno f) false (buffer f ++ data)
                     (position f)))) = live_handle m1) as Hlive.
  { rewrite Hself. unfold live_handle. wp_proj. by rewrite Hf, Hc. }
  split; [by apply lock_inv_handle|]. by rewrite Hlive, Hself.
Qed.

Lemma handle_flush_keeps s :
  lock_inv p fd w0 s →
  wp handle_flush
     (λ _ s', lock_inv p fd w0 s' ∧ live_handle (self s') = live_handle (self s))
     (λ _ s', lock_inv p fd w0 s' ∧ live_handle (self s') = live_handle (self s))
     s.
Proof.
  intros H. unfold handle_flush. apply wp_bind, wp_the_handle.
  destruct (lock_file_handle (self s)) as [f|] eqn:Hf; [|done].
  destruct (closed f) eqn:Hc; [done|].
  destruct (inv_handle _ _ _ _ H (fileno f)) as [Hk Hofd];
    [apply live_handle_Some; by eauto|].
  destruct (String.eqb (buffer f) ""); [done|].
  apply wp_bind.
  eapply wp_mono; [by apply io_fault_keeps| |by intros ?? (? & -> & _)].
  intros ? [m1 w1] (H1 & Hself & Hof & _). wp_proj in Hof. wp_proj in Hself.
  apply wp_bind, wp_get_world. wp_proj. rewrite Hk, Hof, Hofd.
  apply wp_bind, wp_modify_world. wp_proj.
  apply wp_assign_handle. wp_proj.
  assert (live_handle (mkLockManager (lock_file_path m1)
            (Some (mkFileObj fd false ""
                     (position f + String.length (buffer f)))))
          = live_handle m1) as Hlive.
  { rewrite Hself. unfold live_handle. wp_proj. by rewrite Hf, Hc, Hk. }
  split; [|by rewrite Hlive, Hself].
  apply (lock_inv_handle p fd w0 m1); [|done].
  apply lock_inv_write; [done|].
  apply (lock_inv_not_dir p fd w0 m1); [done|]. by rewrite Hof.
Qed.

Lemma attempt_keeps (m : M unit) (I : St → Prop) s :
  wp m (λ _, I) (λ _, I) s → wp (attempt m) (λ _, I) (λ _ _, False) s.
Proof.
  intros H. unfold attempt. apply wp_try_except, wp_bind.
  eapply wp_mono; [exact H| |]; intros; by apply wp_ret.
Qed.

Lemma handle_close_keeps s :
  lock_inv p fd w0 s →
  wp handle_close
     (λ _ s', lock_inv p fd w0 s' ∧ live_handle (self s') = None)
     (λ _ s', lock_inv p fd w0 s' ∧ live_handle (self s') = None) s.
Proof.
  intros H. unfold handle_close. apply wp_bind, wp_the_handle.
  destruct (lock_file_handle (self s)) as [f|] eqn:Hf;
    [|by unfold live_handle; rewrite Hf].
  destruct (closed f) eqn:Hc;
    [by apply wp_ret; unfold live_handle; rewrite Hf, Hc|].
  destruct (inv_handle _ _ _ _ H (fileno f)) as [Hk _];
    [apply live_handle_Some; by eauto|].
  rewrite Hk. apply wp_bind.
  eapply wp_mono;
    [apply (attempt_keeps _ (lock_inv p fd w0))| |done].
  { eapply wp_mono; [by apply handle_flush_keeps| |]; by intros ?? []. }
  intros flushed s1 H1. cbv beta. apply wp_bind.
  eapply wp_mono; [apply (attempt_keeps _ (lock_inv p fd w0))| |done].
  { eapply wp_mono; [by apply io_fault_keeps| |]; by intros ?? []. }
  intros released [m2 w2] H2. cbv beta.
  apply wp_bind, wp_modify_world. wp_proj.
  apply wp_bind, wp_the_handle. wp_proj.
  destruct m2 as [q [f'|]]; wp_proj.
  - apply wp_bind, wp_assign_handle. wp_proj.
    assert (lock_inv p fd w0
              (mkSt (mkLockManager q
                       (Some (mkFileObj (fileno f') true (buffer f')
                                (position f'))))
                 (set_open_files (delete fd (open_files w2))
                    (drop_flock fd w2)))) as H3
      by (by apply (lock_inv_close p fd w0 (mkLockManager q (Some f')))).
    destruct released; [by apply wp_raise|].
    destruct flushed; [by apply wp_raise | by apply wp_ret].
  - split; [|done].
    by apply (lock_inv_close p fd w0 (mkLockManager q None) w2 None).
Qed.

Lemma write_lock_metadata_keeps pr s :
  lock_inv p fd w0 s →
  wp (_write_lock_metadata pr)
     (λ _ s', lock_inv p fd w0 s' ∧ live_handle (self s') = live_handle (self s))
     (λ _ _, False) s.
Proof.
  intros H. unfold _write_lock_metadata. apply wp_try_except, wp_bind.
  eapply wp_mono; [by apply handle_write_keeps| |].
  - intros ? s1 [H1 Hl1]. cbv beta.
    eapply wp_mono; [by apply handle_flush_keeps| |].
    + intros ? s2 [H2 Hl2]. split; [done|congruence].
    + intros e s2 [H2 Hl2]. cbv beta.
      eapply wp_mono; [by apply logger_keeps| |done].
      intros ? s3 [H3 Hs3]. split; [done|]. rewrite Hs3. congruence.
  - intros e s1 [H1 Hs1]. cbv beta.
    eapply wp_mono; [by apply logger_keeps| |done].
    intros ? s3 [H3 Hs3]. split; [done|]. by rewrite Hs3, Hs1.
Qed.

Lemma path_exists_keeps q s :
  lock_inv p fd w0 s →
  wp (path_exists q) (λ _ s', lock_inv p fd w0 s' ∧ self s' = self s)
                     (λ _ s', lock_inv p fd w0 s' ∧ self s' = self s) s.
Proof.
  intros H. unfold path_exists. apply wp_bind.
  eapply wp_mono; [by apply io_fault_keeps| |by intros ?? (? & ? & _)].
  intros ? s1 (H1 & Hself & _). cbv beta.
  by apply wp_bind, wp_get_world, wp_ret.
Qed.

Lemma path_read_text_keeps q s :
  lock_inv p fd w0 s →
  wp (path_read_text q) (λ _ s', lock_inv p fd w0 s' ∧ self s' = self s)
                        (λ _ s', lock_inv p fd w0 s' ∧ self s' = self s) s.
Proof.
  intros H. unfold path_read_text. apply wp_bind.
  eapply wp_mono; [by apply io_fault_keeps| |by intros ?? (? & ? & _)].
  intros ? s1 (H1 & Hself & _). cbv beta.
  apply wp_bind, wp_get_world.
  destruct (files (world s1) !! q); [by apply wp_ret|].
  destruct (bool_decide _); by apply wp_raise.
Qed.

Lemma get_lock_holder_info_keeps s :
  lock_inv p fd w0 s →
  wp get_lock_holder_info
     (λ _ s', lock_inv p fd w0 s' ∧ self s' = self s) (λ _ _, False) s.
Proof.
  intros H. unfold get_lock_holder_info. apply wp_try_except.
  apply wp_bind, wp_get_self, wp_bind.
  eapply wp_mono; [by apply path_exists_keeps| |].
  - intros present s1 [H1 Hself]. cbv beta.
    destruct present; cbn [negb]; [|by apply wp_ret].
    apply wp_bind.
    eapply wp_mono; [by apply path_read_text_keeps| |].
    + intros content s2 [H2 Hself2]. apply wp_ret. split; [done|congruence].
    + intros e s2 [H2 Hself2]. cbv beta. apply wp_bind.
      eapply wp_mono; [by apply logger_keeps| |done].
      intros ? s3 [H3 Hself3]. apply wp_ret. split; [done|congruence].
  - intros e s1 [H1 Hself]. cbv beta. apply wp_bind.
    eapply wp_mono; [by apply logger_keeps| |done].
    intros ? s3 [H3 Hself3]. apply wp_ret. split; [done|congruence].
Qed.

Lemma clean_up_file_handle_keeps s :
  lock_inv p fd w0 s →
  wp clean_up_file_handle
     (λ _ s', lock_inv p fd w0 s' ∧ live_handle (self s') = None)
     (λ _ s', lock_inv p fd w0 s' ∧ live_handle (self s') = None) s.
Proof.
  intros H. unfold clean_up_file_handle. apply wp_bind, wp_get_self.
  destruct (lock_file_handle (self s)) as [f|] eqn:Hf.
  - apply wp_bind.
    eapply wp_mono; [by apply handle_close_keeps| |done].
    intros ? [m1 w1] [H1 Hidle]. apply wp_assign_handle. wp_proj.
    split; [|done]. by apply lock_inv_handle.
  - apply wp_ret. split; [done|]. unfold live_handle. by rewrite Hf.
Qed.

Lemma enter_except_keeps e s :
  lock_inv p fd w0 s →
  wp (enter_except e) (λ _ _, False)
     (λ _ s', lock_inv p fd w0 s' ∧ live_handle (self s') = None) s.
Proof.
  intros H.
  assert (Hrest : ∀ e' s1, lock_inv p fd w0 s1 →
            wp (clean_up_file_handle;; raise e' : M unit) (λ _ _, False)
               (λ _ s', lock_inv p fd w0 s' ∧ live_handle (self s') = None)
               s1).
  { intros e' s1 H1. apply wp_bind.
    eapply wp_mono; [by apply clean_up_file_handle_keeps| |done].
    intros ? s2 H2. by apply wp_raise. }
  destruct e; unfold enter_except.
  2-7: apply wp_bind;
    (eapply wp_mono; [by apply logger_keeps| |done]);
    intros ? s1 [H1 _]; by apply Hrest.
  apply wp_bind.
  eapply wp_mono; [by apply get_lock_holder_info_keeps| |done].
  intros holder_info s1 [H1 _]. cbv beta zeta. apply wp_bind.
  eapply wp_mono; [by apply logger_keeps| |done].
  intros ? s2 [H2 _]. by apply Hrest.
Qed.

(** The statements of [__enter__] after the lock file has been opened. *)
Lemma enter_locked_keeps pr s :
  lock_inv p fd w0 s →
  wp (flock_ex_nb fd;; _write_lock_metadata pr;;
      m ← get_self;
      logger INFO ("Lock acquired successfully: " ++ lock_file_path m))
     (λ _ s', lock_inv p fd w0 s' ∧ live_handle (self s') = live_handle (self s))
     (λ _ s', lock_inv p fd w0 s' ∧ self s' = self s
              ∧ flocks (world s') = flocks (world s)) s.
Proof.
  intros H. apply wp_bind.
  eapply wp_mono; [by apply flock_ex_nb_keeps| |done].
  intros ? s2 [H2 Hs2]. cbv beta. apply wp_bind.
  eapply wp_mono; [by apply write_lock_metadata_keeps| |done].
  intros ? s3 [H3 Hl3]. cbv beta. apply wp_bind, wp_get_self.
  eapply wp_mono; [by apply logger_keeps| |done].
  intros ? s4 [H4 Hs4]. split; [done|]. rewrite Hs4, Hl3. by rewrite Hs2.
Qed.

End KeepsMethods.

Section KeepsEnterExit.

Variable p : string.
Variable fd : nat.
Variable w0 : World.

Lemma open_lock_file_keeps s :
  lock_inv p fd w0 s → next_ofd (world s) = fd →
  wp open_lock_file
     (λ k s', k = fd ∧ lock_inv p fd w0 s' ∧ live_handle (self s') = Some fd
              ∧ list_to_set (PyPath.ancestors (PyPath.parent p))
                ⊆ dirs (world s'))
     (λ _ s', lock_inv p fd w0 s' ∧ self s' = self s) s.
Proof.
  intros H Hnext. unfold open_lock_file.
  apply wp_bind, wp_get_self. rewrite (inv_path _ _ _ _ H).
  apply wp_bind.
  eapply wp_mono; [by apply (path_mkdir_keeps p fd w0)| |by intros ?? []].
  intros ? s1 (H1 & Hself1 & Hnext1 & Hdirs1 & Habove1). cbv beta.
  apply wp_assoc, wp_bind.
  eapply wp_mono;
    [apply wp_conj;
       [apply (open_w_keeps p fd w0); [done|congruence|done]
       |apply (open_w_keeps p fd (world s1) s1);
          [by apply (lock_inv_rebase p fd w0)|congruence|done]]| |].
  2:{ intros ? s' [[? Hs] _]. split; [done|congruence]. }
  intros ? s2 [[H2 Hlive] [H2' _]]. cbv beta.
  eapply wp_mono; [by apply handle_fileno_live| |done].
  intros k s' [-> ->]. split; [done|]. split; [done|]. split; [done|].
  etrans; [exact Hdirs1|]. exact (inv_dirs _ _ _ _ H2').
Qed.

Lemma enter_try_keeps pr s :
  lock_inv p fd w0 s → next_ofd (world s) = fd →
  wp (enter_try pr)
     (λ _ s', lock_inv p fd w0 s' ∧ live_handle (self s') = Some fd
              ∧ list_to_set (PyPath.ancestors (PyPath.parent p))
                ⊆ dirs (world s'))
     (λ _, lock_inv p fd w0) s.
Proof.
  intros H Hnext. unfold enter_try. apply wp_bind.
  eapply wp_mono; [by apply open_lock_file_keeps| |by intros ?? []].
  intros k s1 (-> & H1 & Hlive1 & Hdirs1). cbv beta.
  eapply wp_mono;
    [apply wp_conj;
       [by apply (enter_locked_keeps p fd w0)
       |apply (enter_locked_keeps p fd (world s1) pr s1);
          by apply (lock_inv_rebase p fd w0)]| |].
  - intros ? s2 [[H2 Hl2] [H2' _]]. split; [done|]. split; [congruence|].
    etrans; [exact Hdirs1|]. exact (inv_dirs _ _ _ _ H2').
  - by intros ? s2 [[H2 _] _].
Qed.

Lemma enter_keeps pr s :
  lock_inv p fd w0 s → next_ofd (world s) = fd →
  wp (__enter__ pr)
     (λ _ s', lock_inv p fd w0 s' ∧ live_handle (self s') = Some fd
              ∧ list_to_set (PyPath.ancestors (PyPath.parent p))
                ⊆ dirs (world s'))
     (λ _ s', lock_inv p fd w0 s' ∧ live_handle (self s') = None) s.
Proof.
  intros H Hnext. unfold __enter__. apply wp_try_except.
  eapply wp_mono; [by apply enter_try_keeps|done|].
  intros e s1 H1. cbv beta.
  eapply wp_mono; [by apply (enter_except_keeps p fd w0)|done|done].
Qed.

Lemma exit_try_keeps s :
  lock_inv p fd w0 s →
  wp exit_try (λ _, lock_inv p fd w0) (λ _, lock_inv p fd w0) s.
Proof.
  intros H. unfold exit_try. apply wp_bind, wp_get_self.
  destruct (lock_file_handle (self s)) as [f|] eqn:Hf; [|by apply wp_ret].
  apply wp_bind.
  eapply wp_mono; [by apply (handle_fileno_keeps p fd w0)| |by intros ?? ->].
  intros k s1 [-> ->]. cbv beta. apply wp_bind.
  eapply wp_mono; [by apply (flock_un_keeps p fd w0)| |by intros ?? []].
  intros ? s1 [H1 _]. cbv beta. apply wp_bind.
  eapply wp_mono; [by apply (handle_close_keeps p fd w0)| |by intros ?? []].
  intros ? [m2 w2] [H2 Hl2]. cbv beta.
  apply wp_bind, wp_assign_handle. wp_proj.
  eapply wp_mono; [apply (logger_keeps p fd w0)| |done].
  - by apply lock_inv_handle.
  - by intros ?? [].
Qed.

Lemma exit_keeps exc s :
  lock_inv p fd w0 s →
  wp (__exit__ exc) (λ _, lock_inv p fd w0) (λ _ _, False) s.
Proof.
  intros H. unfold __exit__. apply wp_bind, wp_try_except.
  eapply wp_mono; [by apply exit_try_keeps| |].
  - intros ? s1 H1. by apply wp_ret.
  - intros e s1 H1. cbv beta.
    eapply wp_mono; [by apply (logger_keeps p fd w0)| |done].
    intros ? s2 [H2 _]. by apply wp_ret.
Qed.

End KeepsEnterExit.

(** ** Several managers on one machine *)

Lemma holds_live_handle m w :
  holds m w = true →
  ∃ k, live_handle m = Some k ∧ flocks w !! lock_file_path m = Some k.
Proof.
  intros (f & Hf & Hc & Hl)%holds_inv. exists (fileno f).
  split; [|done]. apply live_handle_Some. eauto.
Qed.

(** The invariant of a method holds where the method starts. *)
Lemma lock_inv_start m w :
  wf_world w →
  (∀ k, live_handle m = Some k →
        open_files w !! k = Some (lock_file_path m)) →
  lock_inv (lock_file_path m) (active_fd m w) w (mkSt m w).
Proof.
  intros Hwf Hopen. unfold active_fd.
  destruct (live_handle m) as [k|] eqn:Hlive; cbn [default from_option id].
  - constructor; cbn [self world]; try done.
    + intros k'. rewrite Hlive. intros [= <-]. auto.
    + intros q. rewrite (Hopen k) by done. by intros [= <-].
  - constructor; cbn [self world]; try done.
    + intros k. by rewrite Hlive.
    + intros q Hq. destruct Hwf as [Hlt _].
      pose proof (Hlt _ _ Hq) as Hc. cbn in Hc. lia.
Qed.

(** What a run of [__enter__] by a manager without open file object
    leaves. *)
Lemma enter_lock_inv pr m w r m' w' :
  wf_world w → idle m = true →
  run (__enter__ pr) m w = (r, m', w') →
  lock_inv (lock_file_path m) (next_ofd w) w (mkSt m' w')
  ∧ match r with
    | Return _ =>
        live_handle m' = Some (next_ofd w)
        ∧ list_to_set (PyPath.ancestors (PyPath.parent (lock_file_path m)))
          ⊆ dirs w'
    | Raise _ => live_handle m' = None
    end.
Proof.
  intros Hwf Hidle Hrun.
  pose proof (lock_inv_start m w Hwf) as Hstart.
  unfold active_fd in Hstart.
  rewrite (proj1 (idle_live_handle m) Hidle) in Hstart.
  cbn [default from_option id] in Hstart.
  pose proof (enter_keeps _ _ _ pr (mkSt m w) (Hstart ltac:(done)) eq_refl)
    as Hwp.
  apply (wp_run _ _ _ _ _ _ _ _ Hwp) in Hrun. destruct r; cbn in Hrun; tauto.
Qed.

Lemma exit_lock_inv exc m w fd r m' w' :
  lock_inv (lock_file_path m) fd w (mkSt m w) →
  run (__exit__ exc) m w = (r, m', w') →
  lock_inv (lock_file_path m) fd w (mkSt m' w').
Proof.
  intros Hinv Hrun.
  pose proof (exit_keeps _ _ _ exc _ Hinv) as Hwp.
  apply (wp_run _ _ _ _ _ _ _ _ Hwp) in Hrun. by destruct r.
Qed.

Lemma info_lock_inv m w fd r m' w' :
  lock_inv (lock_file_path m) fd w (mkSt m w) →
  run get_lock_holder_info m w = (r, m', w') →
  lock_inv (lock_file_path m) fd w (mkSt m' w').
Proof.
  intros Hinv Hrun.
  pose proof (get_lock_holder_info_keeps _ _ _ _ Hinv) as Hwp.
  apply (wp_run _ _ _ _ _ _ _ _ Hwp) in Hrun. destruct r; [|done].
  by destruct Hrun.
Qed.

Lemma run_call_lock_inv c m w m' w' :
  wf_world w →
  (∀ k, live_handle m = Some k →
        open_files w !! k = Some (lock_file_path m)) →
  run_call c m w = Some (m', w') →
  lock_inv (lock_file_path m) (active_fd m w) w (mkSt m' w').
Proof.
  intros Hwf Hopen Hcall.
  pose proof (lock_inv_start m w Hwf Hopen) as Hstart.
  destruct c as [pr|exc|]; cbn [run_call] in Hcall.
  - destruct (idle m) eqn:Hidle; [|done].
    destruct (run (__enter__ pr) m w) as [[r m1] w1] eqn:Hrun.
    injection Hcall as <- <-. unfold active_fd.
    rewrite (proj1 (idle_live_handle m) Hidle). cbn [default from_option id].
    by eapply enter_lock_inv.
  - destruct (run (__exit__ exc) m w) as [[r m1] w1] eqn:Hrun.
    injection Hcall as <- <-. by eapply exit_lock_inv.
  - destruct (run get_lock_holder_info m w) as [[r m1] w1] eqn:Hrun.
    injection Hcall as <- <-. by eapply info_lock_inv.
Qed.

Lemma system_step_inv σ ic σ' :
  system_inv σ → system_step σ ic = Some σ' → system_inv σ'.
Proof.
  destruct σ as [ms w], ic as [i c]. intros [Hwf Hopen Hdist].
  cbn [fst snd] in *. unfold system_step. cbn [fst snd].
  destruct (ms !! i) as [m|] eqn:Hm; [|done]. cbn [mbind option_bind].
  destruct (run_call c m w) as [[m' w']|] eqn:Hcall; [|done].
  cbn [mbind option_bind]. intros [= <-].
  pose proof (run_call_lock_inv c m w m' w' Hwf
                (λ k, Hopen i m k Hm) Hcall) as Hinv.
  assert (Hi : i < length ms) by (by eapply lookup_lt_Some).
  assert (Hother : ∀ j mj k, j ≠ i → ms !! j = Some mj →
            live_handle mj = Some k → k ≠ active_fd m w).
  { intros j mj k Hj Hmj Hk ->. unfold active_fd in Hk.
    destruct (live_handle m) as [k'|] eqn:Hlive; cbn in Hk.
    - by destruct Hj; eapply Hdist.
    - pose proof (Hopen j mj _ Hmj Hk) as Hc.
      destruct Hwf as [Hlt _]. pose proof (Hlt _ _ Hc) as Hn. cbn in Hn. lia. }
  assert (Hmine : ∀ k, live_handle m' = Some k →
            k = active_fd m w
            ∧ open_files w' !! k = Some (lock_file_path m')).
  { intros k Hk.
    destruct (inv_handle _ _ _ _ Hinv k Hk) as [-> Hofd].
    pose proof (inv_path _ _ _ _ Hinv) as Hp. cbn [self world] in *.
    by rewrite Hp. }
  constructor; cbn [fst snd].
  - exact (inv_wf _ _ _ _ Hinv).
  - intros j mj k Hmj Hk.
    destruct (decide (j = i)) as [->|Hne].
    + rewrite list_lookup_insert_eq in Hmj by done. injection Hmj as <-.
      by apply Hmine.
    + rewrite list_lookup_insert_ne in Hmj by done.
      rewrite (inv_open _ _ _ _ Hinv) by (by eapply Hother).
      by eapply Hopen.
  - intros j1 j2 m1 m2 k H1 H2 Hk1 Hk2.
    destruct (decide (j1 = i)) as [->|Hne1], (decide (j2 = i)) as [->|Hne2];
      try done.
    + rewrite list_lookup_insert_eq in H1 by done. injection H1 as <-.
      rewrite list_lookup_insert_ne in H2 by done.
      destruct (Hmine k Hk1) as [-> _]. by destruct (Hother j2 m2 _ Hne2 H2 Hk2).
    + rewrite list_lookup_insert_eq in H2 by done. injection H2 as <-.
      rewrite list_lookup_insert_ne in H1 by done.
      destruct (Hmine k Hk2) as [-> _]. by destruct (Hother j1 m1 _ Hne1 H1 Hk1).
    + rewrite list_lookup_insert_ne in H1, H2 by done. by eapply Hdist.
Qed.

Lemma system_run_inv σ schedule σ' :
  system_inv σ → system_run σ schedule = Some σ' → system_inv σ'.
Proof.
  revert σ. induction schedule as [|ic rest IH]; intros σ Hinv.
  - by intros [= <-].
  - cbn [system_run]. destruct (system_step σ ic) as [σ1|] eqn:Hstep; [|done].
    cbn [mbind option_bind]. apply IH. by eapply system_step_inv.
Qed.

Lemma system_inv_idle ms w :
  wf_world w → forallb idle ms = true → system_inv (ms, w).
Proof.
  intros Hwf Hidle.
  assert (Hnone : ∀ i m, ms !! i = Some m → live_handle m = None).
  { clear Hwf. induction ms as [|x ms IH]; intros [|i] m Hm; try done;
      cbn [forallb] in Hidle; apply andb_true_iff in Hidle as [Hx Hrest].
    - injection Hm as <-. by apply idle_live_handle.
    - by eapply IH. }
  constructor; cbn [fst snd]; [done| |].
  - intros i m k Hm Hk. rewrite (Hnone i m Hm) in Hk. done.
  - intros i j mi mj k Hmi _ Hk. rewrite (Hnone i mi Hmi) in Hk. done.
Qed.

(** ** Facts about the machine, the paths and single runs *)

Lemma wf_fresh w : wf_world w → open_files w !! next_ofd w = None.
Proof.
  intros [Hlt _]. destruct (open_files w !! next_ofd w) eqn:H; [|done].
  pose proof (Hlt _ _ H) as Hc. cbn in Hc. lia.
Qed.

Lemma wf_owner_not_fresh w p o :
  wf_world w → flocks w !! p = Some o → o ≠ next_ofd w.
Proof. intros Hwf Ho. destruct (wf_owner_open _ _ _ Hwf Ho). lia. Qed.

Lemma exit_idle exc m w :
  idle m = true →
  ∃ w', run (__exit__ exc) m w = (Return false, m, w')
        ∧ files w' = files w ∧ flocks w' = flocks w
        ∧ open_files w' = open_files w ∧ next_ofd w' = next_ofd w
        ∧ dirs w' = dirs w.
Proof.
  destruct m as [p [[fd cl buf pos]|]]; unfold idle; cbn.
  - intros ->. by eexists.
  - intros _. by eexists.
Qed.

(** The release of a lock that is held through a flushed file object, in an
    environment without I/O failures. *)
Lemma exit_quiet_state exc p fd pos w :
  faults w = [] → open_files w !! fd = Some p → flocks w !! p = Some fd →
  run (__exit__ exc) (mkLockManager p (Some (mkFileObj fd false "" pos))) w
  = (Return false, mkLockManager p None,
     set_log ((INFO, "Lock released: " ++ p) :: log w)
       (set_open_files (delete fd (open_files w))
          (set_flocks (delete p (flocks w)) w))).
Proof.
  intros Hq Hfd Hlock. unfold_m.
  run_with (rewrite ?Hq, ?Hfd, ?Hlock, ?lookup_insert_eq,
            ?lookup_delete_eq, ?decide_True by done).
  reflexivity.
Qed.

(** *** Every open description has a manager *)

Lemma system_step_owned σ ic σ' :
  system_inv σ → owned σ → system_step σ ic = Some σ' → owned σ'.
Proof.
  destruct σ as [ms w], ic as [i c]. intros [Hwf Hopen Hdist] Howned.
  unfold owned in *. cbn [fst snd] in *. unfold system_step. cbn [fst snd].
  destruct (ms !! i) as [m|] eqn:Hm; [|done]. cbn [mbind option_bind].
  destruct (run_call c m w) as [[m' w']|] eqn:Hcall; [|done].
  cbn [mbind option_bind]. intros [= <-]. cbn [fst snd].
  pose proof (run_call_lock_inv c m w m' w' Hwf
                (λ k, Hopen i m k Hm) Hcall) as Hinv.
  assert (Hi : i < length ms) by (by eapply lookup_lt_Some).
  intros k q Hk.
  destruct (decide (k = active_fd m w)) as [->|Hne].
  - destruct (inv_fd _ _ _ _ Hinv q Hk) as [_ Hlive]. cbn [self] in Hlive.
    exists i, m'. by rewrite list_lookup_insert_eq.
  - pose proof (inv_open _ _ _ _ Hinv k Hne) as Hframe.
    cbn [world] in Hframe. rewrite Hframe in Hk.
    destruct (Howned k q Hk) as (j & mj & Hmj & Hlive).
    exists j, mj. split; [|done].
    rewrite list_lookup_insert_ne; [done|]. intros ->.
    rewrite Hm in Hmj. injection Hmj as ->.
    unfold active_fd in Hne. rewrite Hlive in Hne. done.
Qed.

Lemma system_run_owned σ schedule σ' :
  system_inv σ → owned σ → system_run σ schedule = Some σ' →
  system_inv σ' ∧ owned σ'.
Proof.
  revert σ. induction schedule as [|ic rest IH]; intros σ Hinv Howned.
  - by intros [= <-].
  - cbn [system_run]. destruct (system_step σ ic) as [σ1|] eqn:Hstep; [|done].
    cbn [mbind option_bind]. apply IH.
    + by eapply system_step_inv.
    + by eapply system_step_owned.
Qed.

Lemma lock_owner_holds σ p k :
  system_inv σ → owned σ → flocks (snd σ) !! p = Some k →
  ∃ i m, fst σ !! i = Some m ∧ lock_file_path m = p
         ∧ holds m (snd σ) = true.
Proof.
  destruct σ as [ms w]. intros [Hwf Hopen Hdist] Howned Hl.
  unfold owned in Howned. cbn [fst snd] in *.
  destruct (wf_owner_open _ _ _ Hwf Hl) as [Hk _].
  destruct (Howned k p Hk) as (i & m & Hm & Hlive).
  pose proof (Hopen i m k Hm Hlive) as Hp. rewrite Hk in Hp.
  injection Hp as ->. exists i, m. split; [done|]. split; [done|].
  apply live_handle_Some in Hlive as (f & Hf & Hc & <-).
  unfold holds. rewrite Hf, Hc. cbn. by rewrite bool_decide_eq_true_2.
Qed.

(** *** What a failed acquisition logs *)

Lemma enter_try_raise_log pr p h w e s1 :
  enter_try pr (mkSt (mkLockManager p h) w) = (Raise e, s1) →
  log (world s1) = log w.
Proof.
  unfold_m.
  destruct (flocks w !! p) as [owner|] eqn:Hl;
    intros H; repeat crunch_step; try discriminate H;
    injection H as <- <-; reflexivity.
Qed.

Lemma clean_up_log s r s' :
  clean_up_file_handle s = (r, s') → log (world s') = log (world s).
Proof.
  destruct s as [[p [[fd cl buf pos]|]] w]; unfold_m.
  - destruct cl; [intros H; crunch; by injection H as <- <-|].
    destruct (String.eqb buf "") eqn:Hbuf; intros H;
      repeat (first [crunch_step | lookup_step
                    | progress (rewrite Hbuf in H)]);
      by injection H as <- <-.
  - intros H. proj_simpl. by injection H as <- <-.
Qed.

Lemma get_lock_holder_info_log s r s' :
  get_lock_holder_info s = (r, s') →
  ∃ warned, log (world s') = (warned ++ log (world s))%list
            ∧ (length warned ≤ 1)%nat.
Proof.
  destruct s as [[p h] w]. unfold_m. proj_simpl. intros H.
  repeat (first [fault_step | lookup_step | decide_step
                | progress (proj_simpl; cbn [negb orb andb] in * )]);
    injection H as <- <-; proj_simpl;
    first [ exists []; split; [done|cbn; lia]
          | eexists [_]; split; [done|cbn; lia] ].
Qed.

Lemma clean_up_then_raise_log e s r s' :
  (clean_up_file_handle;; raise e : M unit) s = (r, s') →
  log (world s') = log (world s)
  ∧ ∀ msg, r = Raise (LockAcquisitionError msg) →
           e = LockAcquisitionError msg.
Proof.
  intros H. apply bind_inv in H as [(? & s1 & Hc & H) | (e' & Hc & ->)].
  - injection H as <- <-. split; [by eapply clean_up_log|].
    by intros msg [= ->].
  - split; [by eapply clean_up_log|].
    apply clean_up_raises_os_error in Hc as [msg' ->]. by intros msg.
Qed.

(** The handler of [__enter__] logs the failure before it cleans up. *)
Lemma enter_except_log e s r s' :
  (e = BlockingIOError ∨ ∃ msg, e = OSError msg) →
  enter_except e s = (r, s') →
  ∃ text warned,
    log (world s') = ((ERROR, text) :: warned ++ log (world s))%list
    ∧ (length warned ≤ 1)%nat
    ∧ ∀ msg, r = Raise (LockAcquisitionError msg) → text = msg.
Proof.
  intros [-> | [msg0 ->]]; unfold enter_except; intros H.
  - apply bind_inv in H as [(hi & [m1 w1] & Hinfo & H) | (? & Hinfo & _)].
    2:{ destruct (get_lock_holder_info_never_raises s) as (? & ? & Hn).
        rewrite Hn in Hinfo. discriminate. }
    apply get_lock_holder_info_log in Hinfo as (warned & Hw & Hlen).
    cbn [world] in Hw.
    apply bind_inv in H as [(? & s2 & Hlog & H) | (? & Hlog & _)];
      [|discriminate Hlog].
    injection Hlog; intros; subst s2.
    apply clean_up_then_raise_log in H as [Hl Hmsg]. cbn in Hl.
    exists (lock_held_message hi), warned. rewrite Hl, Hw.
    split; [done|]. split; [done|].
    intros msg Hr. by injection (Hmsg msg Hr).
  - destruct s as [m w].
    apply bind_inv in H as [(? & s2 & Hlog & H) | (? & Hlog & _)];
      [|discriminate Hlog].
    injection Hlog; intros; subst s2.
    apply clean_up_then_raise_log in H as [Hl Hmsg]. cbn in Hl.
    eexists _, []. rewrite Hl. cbn. split; [done|]. split; [lia|].
    intros msg Hr. by pose proof (Hmsg msg Hr).
Qed.

Lemma wf_world_held : wf_world world_held.
Proof. apply (bool_decide_unpack _). vm_compute. reflexivity. Qed.

Lemma usable_test_lock_path : lock_path_usable test_lock_path empty_world.
Proof. apply (bool_decide_unpack _). vm_compute. reflexivity. Qed.

(** *** The lock path and the filesystem *)

(** The lock request is reached on a usable lock path only. *)
Lemma enter_try_usable pr s r s1 :
  enter_try pr s = (r, s1) → r = Return tt ∨ r = Raise BlockingIOError →
  lock_path_usable (lock_file_path (self s)) (world s).
Proof.
  unfold enter_try. intros H Hr.
  apply bind_inv in H as [(fd & s0 & Hopen & _) | (e & Hopen & ->)].
  - by eapply open_lock_file_usable.
  - apply open_lock_file_raises in Hopen as [msg ->]. by destruct Hr.
Qed.

(** An acquisition that succeeds, or that is refused because the lock is
    held, has found the lock path usable. *)
Lemma enter_usable pr m w r m' w' :
  run (__enter__ pr) m w = (r, m', w') →
  r = Return tt ∨ (∃ msg, r = Raise (LockAcquisitionError msg)) →
  lock_path_usable (lock_file_path m) w.
Proof.
  destruct m as [p h]. unfold run, __enter__, try_except.
  destruct (enter_try pr _) as [r1 s1] eqn:Htry.
  pose proof Htry as Hinv.
  apply enter_try_inv in Hinv
    as [(-> & _) | [(msg & ->) | (-> & _)]].
  - intros _ _. apply (enter_try_usable _ _ _ _ Htry). by left.
  - destruct (enter_except _ s1) as [[[]|e] s2] eqn:Hexc.
    + pose proof (enter_except_never_returns (OSError msg) s1) as Hn.
      rewrite Hexc in Hn. discriminate Hn.
    + apply enter_except_os_error in Hexc as [msg' ->].
      intros [= <- _ _] [? | [? ?]]; discriminate.
  - intros _ _. apply (enter_try_usable _ _ _ _ Htry). by right.
Qed.

(** On a lock path that is not usable, an acquisition in an environment
    without I/O failures fails with the error of [mkdir] or of [open]. *)
Lemma enter_unusable_quiet pr p h w :
  faults w = [] → idle (mkLockManager p h) = true →
  ¬ lock_path_usable p w →
  ∃ msg w',
    run (__enter__ pr) (mkLockManager p h) w
    = (Raise (OSError msg), mkLockManager p None, w')
    ∧ files w' = files w ∧ flocks w' = flocks w
    ∧ open_files w' = open_files w
    ∧ log w' = (ERROR, "Unexpected error acquiring lock: " ++ msg) :: log w.
Proof.
  intros Hq Hidle Hnot.
  destruct (bool_decide (Forall (λ a, files w !! a = None)
                           (PyPath.ancestors (PyPath.parent p)))) eqn:H1.
  - destruct (bool_decide
                (p ∈ dirs w
                     ∪ list_to_set (PyPath.ancestors (PyPath.parent p))))
      eqn:H2.
    + destruct h as [[fd [] buf pos]|]; try discriminate Hidle; unfold_m;
        run_with (rewrite ?Hq, ?H1, ?H2);
        eexists _, _; (split; [reflexivity|]); done.
    + destruct Hnot. apply bool_decide_eq_true_1 in H1.
      apply bool_decide_eq_false_1 in H2. split; [done|].
      split; intros Hin; apply H2, elem_of_union;
        [by left | right; by apply elem_of_list_to_set].
  - destruct (bool_decide (is_Some (files w !! PyPath.parent p))) eqn:H3;
      destruct h as [[fd [] buf pos]|]; try discriminate Hidle; unfold_m;
      run_with (rewrite ?Hq, ?H1, ?H3);
      eexists _, _; (split; [reflexivity|]); done.
Qed.

(** ** Further properties of the lock manager *)

(** X1. The mapping that [get_lock_holder_info] builds from the text of the
    lock file gives a key the value of the last line [key=value] of the
    stripped text, a line being cut at its first [=]: a key has no [=] in
    it, a value may; lines without [=] are skipped, and a later line wins
    over an earlier one with the same key. *)
Theorem holder_info_last_assignment_wins content k v :
  dict_get k (parse_metadata content) = Some v
  ↔ PyStr.contains_char PyStr.equals_sign k = false
    ∧ last_assignment k
        (PyStr.split PyStr.newline (PyStr.strip content)) v.
Proof.
  rewrite parse_metadata_fold.
  destruct (PyStr.contains_char PyStr.equals_sign k) eqn:Hk.
  - rewrite (fold_metadata_key _ _ _ Hk). cbn [dict_get]. split; [done|].
    by intros [? _].
  - rewrite (fold_metadata_get _ _ _ _ Hk). cbn [dict_get]. split.
    + intros [H | [? _]]; done.
    + intros [_ H]. by left.
Qed.

(** A file with a repeated key, a value with [=] in it, and a line without
    [=]. *)
Example parse_metadata_example :
  parse_metadata
    ("a=1" ++ String PyStr.newline
     ("b=x=y" ++ String PyStr.newline
      ("no separator" ++ String PyStr.newline
       ("a=2" ++ String PyStr.newline ""))))
  = [("a", "2"); ("b", "x=y")].
Proof. vm_compute. reflexivity. Qed.

(** X2. [get_lock_holder_info] in an environment without I/O failures, by
    what is at the lock path. A file: the mapping parsed from its text as
    [read_text()] gives it, that is, with a carriage return, alone or
    before a line feed, read as a line feed; nothing changes; and the
    mapping is empty, not [None], when the text is blank. A directory:
    [exists()] is true, reading fails, and the result is [None] with one
    warning logged. Nothing: [None], and nothing changes. *)
Theorem holder_info_by_file_state m w :
  faults w = [] →
  match files w !! lock_file_path m with
  | Some content =>
      run get_lock_holder_info m w
      = (Return (Some (parse_metadata (PyStr.universal_newlines content))),
         m, w)
      ∧ (PyStr.strip (PyStr.universal_newlines content) = "" →
         parse_metadata (PyStr.universal_newlines content) = [])
  | None =>
      if bool_decide (lock_file_path m ∈ dirs w)
      then ∃ text,
             run get_lock_holder_info m w
             = (Return None, m,
                set_log ((WARNING, "Failed to read lock holder info: " ++ text)
                           :: log w) w)
      else run get_lock_holder_info m w = (Return None, m, w)
  end.
Proof.
  intros Hq. destruct m as [p h]. cbn [lock_file_path].
  destruct (files w !! p) as [content|] eqn:Hfile.
  - split; [by apply get_lock_holder_info_quiet|].
    intros Hblank. unfold parse_metadata. by rewrite Hblank.
  - unfold_m. run_with (rewrite ?Hq, ?Hfile).
    destruct (bool_decide (p ∈ dirs w)) eqn:Hdir.
    + rewrite bool_decide_eq_false_2 by (by intros [? ?]).
      run_with (rewrite ?Hq, ?Hfile, ?Hdir). by eexists.
    + rewrite bool_decide_eq_false_2 by (by intros [? ?]).
      run_with (rewrite ?Hq, ?Hfile, ?Hdir). destruct w; cbn in *.
      by subst.
Qed.

(** A lock file with the line ends of another system: the values come
    back without carriage return. *)
Example holder_info_reads_universal_newlines :
  let cr := String PyStr.carriage_return "" in
  let text := "pid=7" ++ cr ++ String PyStr.newline
                ("hostname=a" ++ cr ++ "b" ++ cr ++ String PyStr.newline "") in
  fst (fst (run get_lock_holder_info first_lock
              (set_files {[test_lock_path := text]} empty_world)))
  = Return (Some [("pid", "7"); ("hostname", "a")]).
Proof. vm_compute. reflexivity. Qed.

Lemma holder_info_by_file_state_witness :
  faults world_refused = []
  ∧ run get_lock_holder_info second_lock world_refused
    = (Return (Some []), second_lock, world_refused).
Proof.
  split; [reflexivity|].
  pose proof (holder_info_by_file_state second_lock world_refused eq_refl)
    as H.
  assert (Hfile : files world_refused !! lock_file_path second_lock = Some "")
    by (vm_compute; reflexivity).
  rewrite Hfile in H. exact (proj1 H).
Defined.

(** X3. [get_lock_holder_info] only reads, and never raises: in every
    state and every environment it returns, the manager is as it was, and
    so are the files, the directories, the locks and the open descriptions;
    the log gets at most one record, a warning, and then the result is
    [None]. *)
Theorem holder_info_only_reads m w :
  ∃ r w',
    run get_lock_holder_info m w = (Return r, m, w')
    ∧ files w' = files w ∧ dirs w' = dirs w ∧ flocks w' = flocks w
    ∧ open_files w' = open_files w ∧ next_ofd w' = next_ofd w
    ∧ (log w' = log w
       ∨ r = None
         ∧ ∃ e, log w'
                = (WARNING, "Failed to read lock holder info: " ++ exn_str e)
                  :: log w).
Proof.
  destruct m as [p h]. unfold_m. proj_simpl.
  repeat (first [fault_step | lookup_step | decide_step
                | progress (proj_simpl; cbn [negb orb andb])]);
    eexists _, _; (split; [reflexivity|]); proj_simpl;
    repeat (split; [reflexivity|]);
    first [by left | right; split; [reflexivity|]; by eexists].
Qed.

(** X4. [_write_lock_metadata] never raises, in every state of the manager
    (no file object, a closed one, an open one) and every environment. It
    leaves the locks, the open descriptions and the directories as they
    were, and changes no file but the one behind the manager's open
    description. A failure is reported by one warning
    [Failed to write lock metadata: ...] and nothing else. *)
Theorem write_lock_metadata_never_raises pr m w :
  ∃ m' w',
    run (_write_lock_metadata pr) m w = (Return tt, m', w')
    ∧ lock_file_path m' = lock_file_path m
    ∧ live_handle m' = live_handle m
    ∧ flocks w' = flocks w ∧ open_files w' = open_files w
    ∧ dirs w' = dirs w ∧ next_ofd w' = next_ofd w
    ∧ (∀ q, (∀ k, live_handle m = Some k → open_files w !! k ≠ Some q) →
            files w' !! q = files w !! q)
    ∧ (log w' = log w
       ∨ ∃ e, log w'
              = (WARNING, "Failed to write lock metadata: " ++ exn_str e)
                :: log w).
Proof.
  assert (Hne : ∀ buf, String.eqb (buf ++ metadata_text pr) "" = false).
  { intros buf. destruct buf; [reflexivity|]. by rewrite str_app_cons. }
  destruct m as [p [[fd cl buf pos]|]]; [destruct cl|]; unfold_m; proj_simpl.
  all: repeat (first [fault_step | lookup_step | rewrite Hne
                     | progress (proj_simpl; cbn [negb orb andb])]).
  all: eexists _, _; (split; [reflexivity|]); proj_simpl.
  all: repeat (split;
         [first [ reflexivity
                | intros q Hq; unfold live_handle in Hq; cbn in Hq;
                  apply lookup_insert_ne; intros <-; by eapply Hq ]|]).
  all: first [by left | right; by eexists].
Qed.

(** X5. What [_write_lock_metadata] writes, [get_lock_holder_info] reads
    back. In an environment without I/O failures, on a freshly opened
    (empty) lock file, the write puts the three lines in the file and logs
    nothing, and the read returns the mapping of [pid], [hostname] and
    [timestamp], in this order, with the values written, for a host name
    and a timestamp without line feed and without carriage return (which
    would be read as a line feed); trailing blanks of the timestamp, the
    last value, are lost to [strip()]. *)
Theorem metadata_written_is_read_back pr p fd w :
  PyStr.single_line (hostname pr) = true →
  PyStr.single_line (timestamp pr) = true →
  PyStr.no_carriage_return (hostname pr) = true →
  PyStr.no_carriage_return (timestamp pr) = true →
  faults w = [] → open_files w !! fd = Some p → files w !! p = Some "" →
  ∃ m1 w1,
    run (_write_lock_metadata pr)
      (mkLockManager p (Some (mkFileObj fd false "" 0))) w
    = (Return tt, m1, w1)
    ∧ files w1 !! p = Some (metadata_text pr)
    ∧ log w1 = log w
    ∧ run get_lock_holder_info m1 w1
      = (Return (Some [("pid", PyStr.of_N (pid pr));
                       ("hostname", hostname pr);
                       ("timestamp", PyStr.rstrip (timestamp pr))]),
         m1, w1).
Proof.
  intros Hhost Htime Hhost_cr Htime_cr Hq Hfd Hfile. eexists _, _. split.
  { unfold_m. run_with (rewrite ?Hq, ?Hfd, ?Hfile, ?lookup_insert_eq).
    rewrite str_app_nil_l, metadata_text_not_empty.
    run_with (rewrite ?Hq, ?Hfd, ?Hfile, ?lookup_insert_eq).
    cbn [default from_option id]. rewrite write_at_empty. reflexivity. }
  proj_simpl. rewrite lookup_insert_eq. split; [done|]. split; [done|].
  rewrite (get_lock_holder_info_quiet p _ _ (metadata_text pr));
    [|done|by cbn; rewrite lookup_insert_eq].
  rewrite (metadata_text_as_written pr Hhost_cr Htime_cr).
  by rewrite (parse_metadata_text pr Hhost Htime).
Qed.

Lemma metadata_written_is_read_back_witness :
  PyStr.single_line (hostname first_proc) = true
  ∧ PyStr.single_line (timestamp first_proc) = true
  ∧ PyStr.no_carriage_return (hostname first_proc) = true
  ∧ PyStr.no_carriage_return (timestamp first_proc) = true
  ∧ faults opened_test_world = []
  ∧ open_files opened_test_world !! 0 = Some test_lock_path
  ∧ files opened_test_world !! test_lock_path = Some ""
  ∧ ∃ m1 w1,
      run (_write_lock_metadata first_proc)
        (mkLockManager test_lock_path (Some (mkFileObj 0 false "" 0)))
        opened_test_world
      = (Return tt, m1, w1)
      ∧ files w1 !! test_lock_path = Some (metadata_text first_proc)
      ∧ log w1 = log opened_test_world
      ∧ run get_lock_holder_info m1 w1
        = (Return (Some [("pid", PyStr.of_N (pid first_proc));
                         ("hostname", hostname first_proc);
                         ("timestamp", PyStr.rstrip (timestamp first_proc))]),
           m1, w1).
Proof.
  split; [reflexivity|]. split; [reflexivity|]. split; [reflexivity|].
  split; [reflexivity|]. split; [reflexivity|]. split; [reflexivity|].
  split; [reflexivity|].
  exact (metadata_written_is_read_back first_proc test_lock_path 0
           opened_test_world eq_refl eq_refl eq_refl eq_refl eq_refl eq_refl
           eq_refl).
Defined.

(** X6. In an environment without I/O failures the filesystem and the
    lock table decide an acquisition. It succeeds exactly when the lock
    path is usable (it is no directory, and no directory above it is a
    regular file) and no open description owns the lock of the path,
    whatever the lock file contains: a file left behind by a dead holder
    does not block, and is replaced by the metadata of the new holder.
    Otherwise it fails, the manager keeps no file object, and the lock
    table is unchanged: with the contention error when the path is usable
    and the lock is held, with the [OSError] of [mkdir] or of [open] when
    the path is not usable. *)
Theorem acquire_decided_by_lock_table pr m w :
  faults w = [] → wf_world w → idle m = true →
  let '(r, m', w') := run (__enter__ pr) m w in
  (is_return r = true
   ↔ lock_path_usable (lock_file_path m) w
     ∧ flocks w !! lock_file_path m = None)
  ∧ (is_return r = true →
     holds m' w' = true
     ∧ files w' !! lock_file_path m = Some (metadata_text pr))
  ∧ (is_return r = false →
     lock_file_handle m' = None
     ∧ flocks w' = flocks w
     ∧ (lock_path_usable (lock_file_path m) w →
        r = Raise (LockAcquisitionError (lock_held_message (Some []))))
     ∧ (¬ lock_path_usable (lock_file_path m) w →
        ∃ msg, r = Raise (OSError msg))).
Proof.
  intros Hq Hwf Hidle. destruct m as [p h]. cbn [lock_file_path].
  destruct (decide (lock_path_usable p w)) as [Hus|Hnot].
  - destruct (flocks w !! p) as [owner|] eqn:Hl.
    + rewrite (enter_busy_quiet pr p h w owner Hq Hus Hl)
        by (by eapply wf_owner_not_fresh).
      cbn [is_return]. split; [split; [done|by intros [_ ?]]|].
      split; [done|]. intros _. split; [done|]. split; [done|].
      split; [done|]. by intros Hnot.
    + rewrite (enter_free_quiet pr p h w Hq Hus Hl). cbn [is_return].
      split; [done|]. split; [|done]. intros _. split.
      * unfold holds. cbn. rewrite lookup_insert_eq.
        by rewrite bool_decide_eq_true_2.
      * cbn. by rewrite lookup_insert_eq.
  - destruct (enter_unusable_quiet pr p h w Hq Hidle Hnot)
      as (msg & w' & -> & _ & Hl & _).
    cbn [is_return]. split; [split; [done|by intros [? _]]|].
    split; [done|]. intros _. split; [done|]. split; [done|].
    split; [done|]. intros _. by exists msg.
Qed.

Lemma acquire_decided_by_lock_table_witness :
  faults world_held = []
  ∧ wf_world world_held
  ∧ idle second_lock = true
  ∧ let '(r, m', w') := run (__enter__ second_proc) second_lock world_held in
    (is_return r = true
     ↔ lock_path_usable (lock_file_path second_lock) world_held
       ∧ flocks world_held !! lock_file_path second_lock = None)
    ∧ (is_return r = true →
       holds m' w' = true
       ∧ files w' !! lock_file_path second_lock
         = Some (metadata_text second_proc))
    ∧ (is_return r = false →
       lock_file_handle m' = None
       ∧ flocks w' = flocks world_held
       ∧ (lock_path_usable (lock_file_path second_lock) world_held →
          r = Raise (LockAcquisitionError (lock_held_message (Some []))))
       ∧ (¬ lock_path_usable (lock_file_path second_lock) world_held →
          ∃ msg, r = Raise (OSError msg))).
Proof.
  split; [reflexivity|]. split; [exact wf_world_held|]. split; [reflexivity|].
  exact (acquire_decided_by_lock_table second_proc second_lock world_held
           eq_refl wf_world_held eq_refl).
Defined.





(** X9. A failed acquisition leaves nothing open. Whatever exception
    leaves [__enter__] of a manager without open file object on a
    consistent machine, in whatever environment, the manager has no open
    file object and does not hold the lock, and the lock table and the
    table of open descriptions are what they were before the attempt: the
    description opened by the attempt has been given back, also when
    cleaning up failed in its turn. *)
Theorem failed_acquire_leaves_nothing_open pr m w e m' w' :
  wf_world w → idle m = true →
  run (__enter__ pr) m w = (Raise e, m', w') →
  idle m' = true
  ∧ holds m' w' = false
  ∧ flocks w' = flocks w
  ∧ open_files w' = open_files w.
Proof.
  intros Hwf Hidle Hrun.
  destruct (enter_lock_inv _ _ _ _ _ _ Hwf Hidle Hrun) as [Hinv Hlive].
  destruct Hinv
    as [Hp Hh Hfd Hwf' Hfiles Hopen Hflocks Howner Hdirs Hnext Hlog].
  cbn [self world] in *.
  assert (Hclosed : open_files w' !! next_ofd w = None).
  { destruct (open_files w' !! next_ofd w) as [q|] eqn:Hq; [|done].
    destruct (Hfd q eq_refl) as [_ Hc]. congruence. }
  split; [by apply idle_live_handle|]. split.
  { destruct (holds m' w') eqn:Hholds; [|done].
    apply holds_live_handle in Hholds as (k & Hk & _). congruence. }
  split.
  - apply map_eq. intros q.
    destruct (decide (q = lock_file_path m)) as [->|Hq]; [|by apply Hflocks].
    assert (Hn' : flocks w' !! lock_file_path m ≠ Some (next_ofd w)).
    { intros Ho. destruct (wf_owner_open _ _ _ Hwf' Ho). congruence. }
    assert (Hn : flocks w !! lock_file_path m ≠ Some (next_ofd w)).
    { intros Ho. by destruct (wf_owner_not_fresh _ _ _ Hwf Ho). }
    destruct (flocks w' !! lock_file_path m) as [o|],
             (flocks w !! lock_file_path m) as [o2|]; [| | |done].
    + symmetry. apply (Howner o); [congruence|done].
    + symmetry. apply (Howner o); [congruence|done].
    + apply (Howner o2); [congruence|done].
  - apply map_eq. intros k.
    destruct (decide (k = next_ofd w)) as [->|Hk]; [|by apply Hopen].
    by rewrite Hclosed, wf_fresh.
Qed.

Lemma failed_acquire_leaves_nothing_open_witness :
  wf_world flock_fault_world
  ∧ idle first_lock = true
  ∧ fst (fst (run (__enter__ first_proc) first_lock flock_fault_world))
    = Raise (OSError "[Errno 5] Input/output error")
  ∧ flocks (snd (run (__enter__ first_proc) first_lock flock_fault_world))
    = flocks flock_fault_world
  ∧ open_files (snd (run (__enter__ first_proc) first_lock flock_fault_world))
    = open_files flock_fault_world.
Proof.
  assert (Hwf : wf_world flock_fault_world) by exact wf_empty_world.
  assert (H : run (__enter__ first_proc) first_lock flock_fault_world
    = (Raise (OSError "[Errno 5] Input/output error"),
       snd (fst (run (__enter__ first_proc) first_lock flock_fault_world)),
       snd (run (__enter__ first_proc) first_lock flock_fault_world)))
    by (vm_compute; reflexivity).
  split; [exact Hwf|]. split; [reflexivity|].
  split; [vm_compute; reflexivity|].
  exact (proj2 (proj2 (failed_acquire_leaves_nothing_open first_proc
                         first_lock flock_fault_world _ _ _
                         Hwf eq_refl H))).
Defined.

(** X10. A failed acquisition is logged as an error before the exception
    leaves: the log gets one [ERROR] record, the newest, after at most one
    warning, and for the contention error the record is the message of the
    exception. *)
Theorem acquire_failure_is_logged pr m w e m' w' :
  run (__enter__ pr) m w = (Raise e, m', w') →
  ∃ text warned,
    log w' = ((ERROR, text) :: warned ++ log w)%list
    ∧ (length warned ≤ 1)%nat
    ∧ ∀ msg, e = LockAcquisitionError msg → text = msg.
Proof.
  destruct m as [p h]. unfold run, __enter__, try_except.
  destruct (enter_try pr _) as [r1 s1] eqn:Htry.
  pose proof Htry as Hinv.
  apply enter_try_inv in Hinv
    as [(-> & _) | [(msg & ->) | (-> & _)]]; [done| |].
  - apply enter_try_raise_log in Htry.
    destruct (enter_except _ s1) as [r2 [m2 w2]] eqn:Hexc.
    intros [= -> <- <-].
    apply enter_except_log in Hexc as (text & warned & Hlog & Hlen & Hmsg);
      [|by eauto].
    cbn [world] in Hlog. rewrite Htry in Hlog.
    exists text, warned. split; [done|]. split; [done|].
    intros msg0 ->. by apply Hmsg.
  - apply enter_try_raise_log in Htry.
    destruct (enter_except _ s1) as [r2 [m2 w2]] eqn:Hexc.
    intros [= -> <- <-].
    apply enter_except_log in Hexc as (text & warned & Hlog & Hlen & Hmsg);
      [|by eauto].
    cbn [world] in Hlog. rewrite Htry in Hlog.
    exists text, warned. split; [done|]. split; [done|].
    intros msg0 ->. by apply Hmsg.
Qed.

Lemma acquire_failure_is_logged_witness :
  run (__enter__ second_proc) second_lock world_held
  = (Raise (LockAcquisitionError "Lock already held by another instance: {}"),
     second_lock, world_refused)
  ∧ ∃ text warned,
      log world_refused = (ERROR, text) :: (warned ++ log world_held)%list
      ∧ (length warned ≤ 1)%nat
      ∧ ∀ msg,
          LockAcquisitionError "Lock already held by another instance: {}"
          = LockAcquisitionError msg →
          text = msg.
Proof.
  assert (H : run (__enter__ second_proc) second_lock world_held
    = (Raise (LockAcquisitionError "Lock already held by another instance: {}"),
       second_lock, world_refused)) by (vm_compute; reflexivity).
  split; [exact H|].
  exact (acquire_failure_is_logged second_proc second_lock world_held
           _ _ _ H).
Defined.

(** X11. An acquisition attempt touches only its own lock. However the
    attempt of a manager without open file object on a consistent machine
    ends, and whatever the environment injects: the manager keeps its path;
    the machine stays consistent; no other file and no lock of another
    path changes; no description but the one it opens changes; a lock that
    is held on its path stays with its owner; directories are only added
    and log records only appended. *)
Theorem acquire_touches_only_its_lock pr m w r m' w' :
  wf_world w → idle m = true →
  run (__enter__ pr) m w = (r, m', w') →
  lock_file_path m' = lock_file_path m
  ∧ wf_world w'
  ∧ (∀ q, q ≠ lock_file_path m →
          files w' !! q = files w !! q ∧ flocks w' !! q = flocks w !! q)
  ∧ (∀ k, k ≠ next_ofd w → open_files w' !! k = open_files w !! k)
  ∧ (∀ o, flocks w !! lock_file_path m = Some o →
          flocks w' !! lock_file_path m = Some o)
  ∧ dirs w ⊆ dirs w'
  ∧ log w `suffix_of` log w'.
Proof.
  intros Hwf Hidle Hrun.
  destruct (enter_lock_inv _ _ _ _ _ _ Hwf Hidle Hrun) as [Hinv _].
  destruct Hinv
    as [Hp Hh Hfd Hwf' Hfiles Hopen Hflocks Howner Hdirs Hnext Hlog].
  cbn [self world] in *.
  split; [done|]. split; [done|]. split; [by auto|]. split; [done|].
  split; [|done]. intros o Ho. apply Howner; [|done].
  by eapply wf_owner_not_fresh.
Qed.

Lemma acquire_touches_only_its_lock_witness :
  wf_world world_held
  ∧ idle second_lock = true
  ∧ flocks world_refused !! test_lock_path = Some 0
  ∧ dirs world_held ⊆ dirs world_refused.
Proof.
  assert (H : run (__enter__ second_proc) second_lock world_held
    = (Raise (LockAcquisitionError "Lock already held by another instance: {}"),
       second_lock, world_refused)) by (vm_compute; reflexivity).
  split; [exact wf_world_held|]. split; [reflexivity|].
  destruct (acquire_touches_only_its_lock second_proc second_lock world_held
              _ _ _ wf_world_held eq_refl H)
    as (_ & _ & _ & _ & Howner & Hdirs & _).
  split; [|exact Hdirs]. apply Howner. vm_compute. reflexivity.
Defined.

(** X12. A release touches only its own lock. On a consistent machine on
    which the open file object of the manager, if it has one, is an open
    description of its lock file, [__exit__] returns [False]
    and, whatever the environment injects: the manager keeps its path; the
    machine stays consistent; no other file and no lock of another path
    changes; no description but the one of the manager's open file object
    changes; and a lock on its path that another description owns stays
    with its owner, so the release of a manager that does not hold the
    lock takes it from nobody. *)
Theorem release_touches_only_its_lock exc m w r m' w' :
  wf_world w →
  (∀ k, live_handle m = Some k →
        open_files w !! k = Some (lock_file_path m)) →
  run (__exit__ exc) m w = (r, m', w') →
  r = Return false
  ∧ lock_file_path m' = lock_file_path m
  ∧ wf_world w'
  ∧ (∀ q, q ≠ lock_file_path m →
          files w' !! q = files w !! q ∧ flocks w' !! q = flocks w !! q)
  ∧ (∀ k, live_handle m ≠ Some k → open_files w' !! k = open_files w !! k)
  ∧ (∀ o, live_handle m ≠ Some o →
          flocks w !! lock_file_path m = Some o →
          flocks w' !! lock_file_path m = Some o).
Proof.
  intros Hwf Hopen Hrun.
  assert (r = Return false) as ->.
  { destruct (exit_never_raises exc (mkSt m w)) as [s' Hs'].
    unfold run in Hrun. rewrite Hs' in Hrun. by injection Hrun as <- _ _. }
  split; [done|].
  pose proof (lock_inv_start m w Hwf Hopen) as Hstart.
  destruct (live_handle m) as [fd|] eqn:Hlive.
  - unfold active_fd in Hstart. rewrite Hlive in Hstart.
    cbn [default from_option id] in Hstart.
    pose proof (exit_lock_inv _ _ _ _ _ _ _ Hstart Hrun)
      as [Hp Hh Hfd Hwf' Hfiles Hopen' Hflocks Howner Hdirs Hnext Hlog].
    cbn [self world] in *.
    split; [done|]. split; [done|]. split; [by auto|]. split.
    + intros k Hk. apply Hopen'. congruence.
    + intros o Ho Hl. apply Howner; [congruence|done].
  - clear Hstart. apply idle_live_handle in Hlive.
    destruct (exit_idle exc m w Hlive)
      as (w1 & Hrun1 & Hf & Hl & Ho & Hn & Hd).
    rewrite Hrun1 in Hrun. injection Hrun as <- <-.
    split; [done|]. split.
    { destruct Hwf as (Hlt & Hown & Hreg). split; [|split].
      - rewrite Ho, Hn. done.
      - rewrite Hl, Ho. done.
      - rewrite Ho. eapply map_Forall_impl; [exact Hreg|]. cbn.
        intros _ q. by apply regular_file_ext. }
    rewrite Hf, Hl, Ho. done.
Qed.

Lemma release_touches_only_its_lock_witness :
  wf_world world_held
  ∧ (∀ k, live_handle first_lock_held = Some k →
          open_files world_held !! k = Some (lock_file_path first_lock_held))
  ∧ fst (fst (run (__exit__ None) first_lock_held world_held)) = Return false
  ∧ wf_world (snd (run (__exit__ None) first_lock_held world_held)).
Proof.
  assert (Hopen : ∀ k, live_handle first_lock_held = Some k →
            open_files world_held !! k
            = Some (lock_file_path first_lock_held)).
  { intros k Hk. vm_compute in Hk. injection Hk as <-.
    vm_compute. reflexivity. }
  split; [exact wf_world_held|]. split; [exact Hopen|].
  destruct (release_touches_only_its_lock None first_lock_held world_held
              (fst (fst (run (__exit__ None) first_lock_held world_held)))
              (snd (fst (run (__exit__ None) first_lock_held world_held)))
              (snd (run (__exit__ None) first_lock_held world_held))
              wf_world_held Hopen)
    as (Hr & _ & Hwf & _).
  { by destruct (run (__exit__ None) first_lock_held world_held) as [[??]?]. }
  split; [exact Hr | exact Hwf].
Defined.

(** X13. A failed unlock keeps the lock. When [flock(LOCK_UN)] fails, the
    error is logged and swallowed, [close()] is never reached, and the
    manager still holds the lock through its open file object: [__exit__]
    has returned [False], and the lock has not been released. *)
Theorem failed_unlock_keeps_the_lock exc m w msg rest :
  holds m w = true → faults w = Some msg :: rest →
  ∃ w',
    run (__exit__ exc) m w = (Return false, m, w')
    ∧ holds m w' = true
    ∧ log w' = (ERROR, "Error releasing lock: " ++ msg) :: log w
    ∧ files w' = files w ∧ flocks w' = flocks w
    ∧ open_files w' = open_files w.
Proof.
  intros (f & Hf & Hc & Hl)%holds_inv Hfault.
  destruct m as [p h], f as [fd cl buf pos]. cbn in Hf, Hc, Hl. subst h cl.
  eexists. split.
  - unfold_m. run_with (rewrite ?Hfault). reflexivity.
  - proj_simpl. split; [|done]. unfold holds. cbn.
    by rewrite bool_decide_eq_true_2.
Qed.

Lemma failed_unlock_keeps_the_lock_witness :
  holds first_lock_held unlock_fault_world = true
  ∧ faults unlock_fault_world = [Some "[Errno 5] Input/output error"]
  ∧ ∃ w',
      run (__exit__ None) first_lock_held unlock_fault_world
      = (Return false, first_lock_held, w')
      ∧ holds first_lock_held w' = true
      ∧ log w'
        = (ERROR, "Error releasing lock: " ++ "[Errno 5] Input/output error")
            :: log unlock_fault_world
      ∧ files w' = files unlock_fault_world
      ∧ flocks w' = flocks unlock_fault_world
      ∧ open_files w' = open_files unlock_fault_world.
Proof.
  assert (Hholds : holds first_lock_held unlock_fault_world = true)
    by (vm_compute; reflexivity).
  split; [exact Hholds|]. split; [reflexivity|].
  exact (failed_unlock_keeps_the_lock None first_lock_held unlock_fault_world
           _ _ Hholds eq_refl).
Defined.

(** X14. Acquire, then release. For a manager as the constructor returns
    it, in an environment without I/O failures, on a usable lock path and
    with the lock free: [__enter__] succeeds, the manager holds the lock,
    [__exit__] gives it back, and the manager is again as the constructor
    returned it. The lock table and the open descriptions are as before;
    the lock file stays, with the metadata of the last holder. The
    conditions of the theorem hold again afterwards, so the round trip can
    be repeated. *)
Theorem acquire_release_round_trip pr exc arg m w :
  __init__ arg = Return m →
  faults w = [] → wf_world w → lock_path_usable (lock_file_path m) w →
  flocks w !! lock_file_path m = None →
  ∃ m1 w1 w2,
    run (__enter__ pr) m w = (Return tt, m1, w1)
    ∧ holds m1 w1 = true
    ∧ run (__exit__ exc) m1 w1 = (Return false, m, w2)
    ∧ files w2 = <[lock_file_path m := metadata_text pr]> (files w)
    ∧ flocks w2 = flocks w
    ∧ open_files w2 = open_files w
    ∧ faults w2 = []
    ∧ wf_world w2
    ∧ lock_path_usable (lock_file_path m) w2.
Proof.
  intros Hinit Hq Hwf Hus Hfree.
  assert (∃ p, m = mkLockManager p None) as [p ->].
  { destruct arg; cbn in Hinit; try discriminate Hinit;
      injection Hinit as <-; eauto. }
  cbn [lock_file_path] in *.
  pose proof (wf_acquired_world pr p w Hwf Hus Hfree) as Hwf1.
  eexists _, _, _. rewrite (enter_free_quiet pr p None w Hq Hus Hfree).
  split; [reflexivity|]. split.
  { unfold holds. cbn. rewrite lookup_insert_eq.
    by rewrite bool_decide_eq_true_2. }
  rewrite exit_quiet_state;
    [|done|by cbn; rewrite lookup_insert_eq..].
  split; [reflexivity|]. cbn.
  rewrite insert_insert_eq.
  rewrite !delete_insert_id by (done || by apply wf_fresh).
  repeat (split; [done|]).
  destruct Hus as (Hfiles & Hdir & Habove).
  destruct Hwf as (Hlt & Hown & Hreg).
  destruct Hwf1 as (_ & _ & Hreg1). split.
  - split; [|split]; cbn; [|done|].
    + eapply map_Forall_impl; [exact Hlt|]. cbn. lia.
    + intros k q Hk.
      assert (Hk1 : open_files (acquired_world pr p w) !! k = Some q).
      { cbn. rewrite lookup_insert_ne; [done|]. intros <-.
        by rewrite wf_fresh in Hk. }
      apply (regular_file_ext q (acquired_world pr p w));
        [cbn; by rewrite insert_insert_eq | done | exact (Hreg1 k q Hk1)].
  - split; [|split; [|done]]; cbn.
    + apply Forall_forall. intros a Ha.
      rewrite !lookup_insert_ne by (by intros ->).
      exact (proj1 (Forall_forall _ _) Hfiles a Ha).
    + intros [?|?%elem_of_list_to_set]%elem_of_union; done.
Qed.

Lemma acquire_release_round_trip_witness :
  __init__ (ArgPath test_lock_path) = Return first_lock
  ∧ faults empty_world = []
  ∧ wf_world empty_world
  ∧ lock_path_usable (lock_file_path first_lock) empty_world
  ∧ flocks empty_world !! lock_file_path first_lock = None
  ∧ ∃ m1 w1 w2,
      run (__enter__ first_proc) first_lock empty_world = (Return tt, m1, w1)
      ∧ holds m1 w1 = true
      ∧ run (__exit__ None) m1 w1 = (Return false, first_lock, w2)
      ∧ files w2
        = <[lock_file_path first_lock := metadata_text first_proc]>
            (files empty_world)
      ∧ flocks w2 = flocks empty_world
      ∧ open_files w2 = open_files empty_world
      ∧ faults w2 = []
      ∧ wf_world w2
      ∧ lock_path_usable (lock_file_path first_lock) w2.
Proof.
  split; [reflexivity|]. split; [reflexivity|].
  split; [exact wf_empty_world|]. split; [exact usable_test_lock_path|].
  split; [reflexivity|].
  exact (acquire_release_round_trip first_proc None (ArgPath test_lock_path)
           first_lock empty_world eq_refl eq_refl wf_empty_world
           usable_test_lock_path eq_refl).
Defined.

(** X15. Mutual exclusion in every schedule. Whatever the managers of a
    system call, in whatever order, and whatever failures the environment
    injects, no two managers hold the lock of the same path at the same time,
    and a manager that holds it holds it through an open description of the
    lock file. *)
Theorem one_holder_in_every_schedule ms w schedule ms' w' :
  wf_world w → forallb idle ms = true →
  system_run (ms, w) schedule = Some (ms', w') →
  wf_world w'
  ∧ ∀ i j mi mj,
      ms' !! i = Some mi → ms' !! j = Some mj →
      lock_file_path mi = lock_file_path mj →
      holds mi w' = true → holds mj w' = true →
      i = j.
Proof.
  intros Hwf Hidle Hrun.
  pose proof (system_run_inv _ _ _ (system_inv_idle ms w Hwf Hidle) Hrun)
    as [Hwf' Hopen Hdist].
  cbn [fst snd] in *. split; [done|].
  intros i j mi mj Hmi Hmj Hpath
    (ki & Hki & Hli)%holds_live_handle (kj & Hkj & Hlj)%holds_live_handle.
  rewrite Hpath, Hlj in Hli. injection Hli as ->. by eapply Hdist.
Qed.

Lemma one_holder_in_every_schedule_witness :
  wf_world empty_world
  ∧ forallb idle [first_lock; second_lock] = true
  ∧ system_run two_managers contention_schedule = Some two_managers_final
  ∧ holds (default first_lock (fst two_managers_final !! 0))
      (snd two_managers_final) = false
  ∧ holds (default second_lock (fst two_managers_final !! 1))
      (snd two_managers_final) = true
  ∧ ∀ i j mi mj,
      fst two_managers_final !! i = Some mi →
      fst two_managers_final !! j = Some mj →
      lock_file_path mi = lock_file_path mj →
      holds mi (snd two_managers_final) = true →
      holds mj (snd two_managers_final) = true →
      i = j.
Proof.
  assert (Hrun : system_run ([first_lock; second_lock], empty_world)
                   contention_schedule
                 = Some (fst two_managers_final, snd two_managers_final))
    by (vm_compute; reflexivity).
  split; [exact wf_empty_world|]. split; [reflexivity|].
  split; [vm_compute; reflexivity|]. split; [vm_compute; reflexivity|].
  split; [vm_compute; reflexivity|].
  exact (proj2 (one_holder_in_every_schedule [first_lock; second_lock]
                  empty_world contention_schedule _ _
                  wf_empty_world eq_refl Hrun)).
Defined.

(** X16. No lock without a holder. On a machine that starts without open
    descriptions, in every schedule and whatever the environment injects,
    a lock in the lock table is the lock of a manager that holds it: the
    managers never leave a lock behind that nobody holds. *)
Theorem no_lock_without_holder ms w schedule ms' w' :
  wf_world w → open_files w = ∅ → forallb idle ms = true →
  system_run (ms, w) schedule = Some (ms', w') →
  ∀ p k, flocks w' !! p = Some k →
         ∃ i m, ms' !! i = Some m ∧ lock_file_path m = p
                ∧ holds m w' = true.
Proof.
  intros Hwf Hempty Hidle Hrun.
  assert (Howned : owned (ms, w)).
  { intros k q. cbn. by rewrite Hempty, lookup_empty. }
  destruct (system_run_owned _ _ _ (system_inv_idle ms w Hwf Hidle)
              Howned Hrun) as [Hinv Howned'].
  intros p k Hl. exact (lock_owner_holds _ p k Hinv Howned' Hl).
Qed.

Lemma no_lock_without_holder_witness :
  wf_world empty_world
  ∧ open_files empty_world = ∅
  ∧ forallb idle [first_lock; second_lock] = true
  ∧ system_run two_managers contention_schedule = Some two_managers_final
  ∧ flocks (snd two_managers_final) !! test_lock_path = Some 2
  ∧ ∃ i m, fst two_managers_final !! i = Some m
           ∧ lock_file_path m = test_lock_path
           ∧ holds m (snd two_managers_final) = true.
Proof.
  assert (Hrun : system_run ([first_lock; second_lock], empty_world)
                   contention_schedule
                 = Some (fst two_managers_final, snd two_managers_final))
    by (vm_compute; reflexivity).
  assert (Hl : flocks (snd two_managers_final) !! test_lock_path = Some 2)
    by (vm_compute; reflexivity).
  split; [exact wf_empty_world|]. split; [reflexivity|].
  split; [reflexivity|]. split; [vm_compute; reflexivity|].
  split; [exact Hl|].
  exact (no_lock_without_holder [first_lock; second_lock] empty_world
           contention_schedule _ _ wf_empty_world eq_refl eq_refl Hrun
           test_lock_path 2 Hl).
Defined.

(** X17. An acquisition succeeds exactly when nobody holds the lock. After
    any schedule on a machine that started without open descriptions, in
    an environment that injects no further failure, [__enter__] of a
    manager without open file object whose lock path is usable on the
    machine that the schedule left succeeds if and only if no manager of
    the system holds the lock of its path. *)
Theorem acquire_succeeds_iff_nobody_holds ms w schedule ms' w' i m pr :
  wf_world w → open_files w = ∅ → forallb idle ms = true →
  system_run (ms, w) schedule = Some (ms', w') →
  faults w' = [] → ms' !! i = Some m → idle m = true →
  lock_path_usable (lock_file_path m) w' →
  is_return (fst (fst (run (__enter__ pr) m w'))) = true
  ↔ ∀ j mj, ms' !! j = Some mj →
            lock_file_path mj = lock_file_path m → holds mj w' = false.
Proof.
  intros Hwf Hempty Hidle Hrun Hq Hm Hidle_m Hus.
  assert (Howned : owned (ms, w)).
  { intros k q. cbn. by rewrite Hempty, lookup_empty. }
  destruct (system_run_owned _ _ _ (system_inv_idle ms w Hwf Hidle)
              Howned Hrun) as [Hinv Howned'].
  pose proof (sys_wf _ Hinv) as Hwf'. cbn [snd] in Hwf'.
  destruct m as [p h]. cbn [lock_file_path] in *.
  destruct (flocks w' !! p) as [owner|] eqn:Hl.
  - rewrite (enter_busy_quiet pr p h w' owner Hq Hus Hl)
      by (by eapply wf_owner_not_fresh).
    cbn [fst is_return]. split; [done|]. intros Hnone.
    destruct (lock_owner_holds _ p owner Hinv Howned' Hl)
      as (j & mj & Hmj & Hp & Hholds).
    cbn [fst snd] in *. rewrite (Hnone j mj Hmj Hp) in Hholds. done.
  - rewrite (enter_free_quiet pr p h w' Hq Hus Hl). cbn [fst is_return].
    split; [|done]. intros _ j mj Hmj Hp.
    destruct (holds mj w') eqn:Hholds; [|done].
    apply holds_inv in Hholds as (f & _ & _ & Hf). congruence.
Qed.

Lemma acquire_succeeds_iff_nobody_holds_witness :
  wf_world empty_world
  ∧ open_files empty_world = ∅
  ∧ forallb idle [first_lock; second_lock] = true
  ∧ system_run two_managers release_schedule = Some two_managers_released
  ∧ faults (snd two_managers_released) = []
  ∧ fst two_managers_released !! 1 = Some second_lock
  ∧ idle second_lock = true
  ∧ lock_path_usable (lock_file_path second_lock) (snd two_managers_released)
  ∧ (is_return
       (fst (fst (run (__enter__ second_proc) second_lock
                    (snd two_managers_released)))) = true
     ↔ ∀ j mj, fst two_managers_released !! j = Some mj →
               lock_file_path mj = lock_file_path second_lock →
               holds mj (snd two_managers_released) = false).
Proof.
  assert (Hrun : system_run ([first_lock; second_lock], empty_world)
                   release_schedule
                 = Some (fst two_managers_released, snd two_managers_released))
    by (vm_compute; reflexivity).
  assert (Hq : faults (snd two_managers_released) = [])
    by (vm_compute; reflexivity).
  assert (Hm : fst two_managers_released !! 1 = Some second_lock)
    by (vm_compute; reflexivity).
  split; [exact wf_empty_world|]. split; [reflexivity|].
  split; [reflexivity|]. split; [vm_compute; reflexivity|].
  assert (Hus : lock_path_usable (lock_file_path second_lock)
                  (snd two_managers_released))
    by (apply (bool_decide_unpack _); vm_compute; reflexivity).
  split; [exact Hq|]. split; [exact Hm|]. split; [reflexivity|].
  split; [exact Hus|].
  exact (acquire_succeeds_iff_nobody_holds [first_lock; second_lock]
           empty_world release_schedule _ _ 1 second_lock second_proc
           wf_empty_world eq_refl eq_refl Hrun Hq Hm eq_refl Hus).
Defined.


(** X18. A holder keeps the lock while the others act. In every state that
    a schedule reaches, a call by one manager, whatever it is and whatever
    the environment injects, leaves every other manager that holds a lock
    holding it: a lock is given up only by a call of its holder. *)
Theorem holder_keeps_lock_while_others_act
  ms w schedule ms1 w1 i c ms2 w2 j mj :
  wf_world w → forallb idle ms = true →
  system_run (ms, w) schedule = Some (ms1, w1) →
  system_step (ms1, w1) (i, c) = Some (ms2, w2) →
  j ≠ i → ms1 !! j = Some mj → holds mj w1 = true →
  ms2 !! j = Some mj ∧ holds mj w2 = true.
Proof.
  intros Hwf Hidle Hrun Hstep Hj Hmj Hholds.
  pose proof (system_run_inv _ _ _ (system_inv_idle ms w Hwf Hidle) Hrun)
    as [Hwf1 Hopen Hdist].
  cbn [fst snd] in *. unfold system_step in Hstep. cbn [fst snd] in Hstep.
  destruct (ms1 !! i) as [m|] eqn:Hm; [|done]. cbn [mbind option_bind] in Hstep.
  destruct (run_call c m w1) as [[m' w']|] eqn:Hcall; [|done].
  cbn [mbind option_bind] in Hstep. injection Hstep as <- <-.
  pose proof (run_call_lock_inv c m w1 m' w' Hwf1
                (λ k, Hopen i m k Hm) Hcall) as Hinv.
  split; [by rewrite list_lookup_insert_ne|].
  apply holds_inv in Hholds as (f & Hf & Hc & Hl).
  assert (Hlive : live_handle mj = Some (fileno f))
    by (apply live_handle_Some; eauto).
  assert (Hne : fileno f ≠ active_fd m w1).
  { intros Heq. unfold active_fd in Heq.
    destruct (live_handle m) as [k'|] eqn:Hlm; cbn in Heq.
    - subst k'. by destruct Hj; eapply Hdist.
    - pose proof (Hopen j mj _ Hmj Hlive) as Ho.
      destruct Hwf1 as [Hlt _]. pose proof (Hlt _ _ Ho) as Hn. cbn in Hn.
      lia. }
  unfold holds. rewrite Hf, Hc. cbn [negb andb].
  apply bool_decide_eq_true_2.
  destruct (decide (lock_file_path mj = lock_file_path m)) as [Hp|Hp].
  - rewrite Hp. apply (inv_owner _ _ _ _ Hinv); [done|]. by rewrite <- Hp.
  - pose proof (inv_flocks _ _ _ _ Hinv _ Hp) as Hfr. cbn [world] in Hfr.
    by rewrite Hfr.
Qed.

Lemma holder_keeps_lock_while_others_act_witness :
  wf_world empty_world
  ∧ forallb idle [first_lock; second_lock] = true
  ∧ system_run two_managers [(0, CallEnter first_proc)]
    = Some two_managers_held
  ∧ system_step two_managers_held (1, CallEnter second_proc)
    = Some two_managers_refused
  ∧ fst two_managers_held !! 0 = Some first_lock_held
  ∧ holds first_lock_held (snd two_managers_held) = true
  ∧ fst two_managers_refused !! 0 = Some first_lock_held
  ∧ holds first_lock_held (snd two_managers_refused) = true.
Proof.
  assert (Hrun : system_run ([first_lock; second_lock], empty_world)
                   [(0, CallEnter first_proc)]
                 = Some (fst two_managers_held, snd two_managers_held))
    by (vm_compute; reflexivity).
  assert (Hstep : system_step (fst two_managers_held, snd two_managers_held)
                    (1, CallEnter second_proc)
                  = Some (fst two_managers_refused, snd two_managers_refused))
    by (vm_compute; reflexivity).
  assert (Hm : fst two_managers_held !! 0 = Some first_lock_held)
    by (vm_compute; reflexivity).
  assert (Hholds : holds first_lock_held (snd two_managers_held) = true)
    by (vm_compute; reflexivity).
  split; [exact wf_empty_world|]. split; [reflexivity|].
  split; [vm_compute; reflexivity|]. split; [vm_compute; reflexivity|].
  split; [exact Hm|]. split; [exact Hholds|].
  exact (holder_keeps_lock_while_others_act [first_lock; second_lock]
           empty_world [(0, CallEnter first_proc)] _ _ 1
           (CallEnter second_proc) _ _ 0 first_lock_held
           wf_empty_world eq_refl Hrun Hstep ltac:(discriminate) Hm Hholds).
Defined.

Lemma exit_log_outcome exc p f w r m' w' :
  run (__exit__ exc) (mkLockManager p (Some f)) w = (r, m', w') →
  (log w' = (INFO, "Lock released: " ++ p) :: log w
   ∧ lock_file_handle m' = None)
  ∨ (∃ e, log w' = (ERROR, "Error releasing lock: " ++ exn_str e) :: log w
          ∧ lock_file_handle m' ≠ None).
Proof.
  destruct f as [fd cl buf pos]. unfold_m. intros H.
  destruct cl.
  { crunch; injection H as <- <- <-; proj_simpl. right.
    by exists closed_file_error. }
  destruct (String.eqb buf "") eqn:Hbuf;
    repeat (first [crunch_step | lookup_step
                  | progress (rewrite Hbuf in H)]);
    injection H as <- <- <-; proj_simpl;
    first [ left; split; reflexivity
          | right; eexists (OSError _); split; [reflexivity|done] ].
Qed.

(** X19. The log of a release tells its outcome. [__exit__] of a manager
    without file object changes nothing and logs nothing. Otherwise it logs
    exactly one record: [Lock released: <path>] when the release went
    through, and then the manager has no file object left and does not hold
    the lock; or [Error releasing lock: ...] when a step failed, and then
    the manager keeps its file object. *)
Theorem release_log_tells_the_outcome exc m w r m' w' :
  run (__exit__ exc) m w = (r, m', w') →
  match lock_file_handle m with
  | None => m' = m ∧ w' = w
  | Some _ =>
      (log w' = (INFO, "Lock released: " ++ lock_file_path m) :: log w
       ∧ lock_file_handle m' = None ∧ holds m' w' = false)
      ∨ (∃ e, log w'
              = (ERROR, "Error releasing lock: " ++ exn_str e) :: log w
              ∧ lock_file_handle m' ≠ None)
  end.
Proof.
  destruct m as [p [f|]]; cbn [lock_file_handle lock_file_path].
  - intros H. apply exit_log_outcome in H as [[Hlog Hnone] | Herr].
    + left. split; [done|]. split; [done|]. unfold holds. by rewrite Hnone.
    + by right.
  - rewrite exit_unheld_noop. by intros [= _ <- <-].
Qed.

Lemma release_log_tells_the_outcome_witness :
  run (__exit__ None) first_lock_held world_held
  = (Return false, first_lock,
     snd (run (__exit__ None) first_lock_held world_held))
  ∧ ((log (snd (run (__exit__ None) first_lock_held world_held))
      = (INFO, "Lock released: " ++ lock_file_path first_lock_held)
          :: log world_held
      ∧ lock_file_handle first_lock = None
      ∧ holds first_lock
          (snd (run (__exit__ None) first_lock_held world_held)) = false)
     ∨ (∃ e,
          log (snd (run (__exit__ None) first_lock_held world_held))
          = (ERROR, "Error releasing lock: " ++ exn_str e) :: log world_held
          ∧ lock_file_handle first_lock ≠ None)).
Proof.
  assert (H : run (__exit__ None) first_lock_held world_held
              = (Return false, first_lock,
                 snd (run (__exit__ None) first_lock_held world_held)))
    by (vm_compute; reflexivity).
  split; [exact H|].
  exact (release_log_tells_the_outcome None first_lock_held world_held
           _ _ _ H).
Defined.

(** ** The tests of [tests/test_lock_manager.py], replayed on the model *)

Example test_lock_acquisition_succeeds_when_available :
  let '(r, _, w) := run (__enter__ first_proc) first_lock empty_world in
  let content := default "" (files w !! test_lock_path) in
  r = Return tt
  ∧ PyStr.contains "pid=4242" content = true
  ∧ PyStr.contains "hostname=" content = true
  ∧ PyStr.contains "timestamp=" content = true.
Proof. vm_compute. repeat split. Qed.

Example test_lock_released_on_context_manager_exit :
  let s1 := snd (with_statement first_proc (mret tt)
                   (mkSt first_lock empty_world)) in
  let '(r, m, w) := run (__enter__ second_proc) second_lock (world s1) in
  r = Return tt ∧ holds m w = true ∧ holds (self s1) w = false
  ∧ is_Some (files w !! test_lock_path).
Proof. vm_compute. eauto. Qed.

Example test_stale_lock_cleanup_when_process_dead :
  let '(r, _, w) := run (__enter__ first_proc) first_lock stale_world in
  let content := default "" (files w !! test_lock_path) in
  r = Return tt
  ∧ PyStr.contains "pid=4242" content = true
  ∧ PyStr.contains "pid=999999" content = false.
Proof. vm_compute. repeat split. Qed.

Example test_lock_acquisition_creates_parent_directory :
  "/tmp/locks" ∈ dirs world_held ∧ is_Some (files world_held !! test_lock_path).
Proof.
  split; [apply (bool_decide_unpack _); vm_compute; reflexivity|].
  vm_compute. eauto.
Qed.

Example test_lock_released_on_exception :
  let '(r1, s1) := with_statement first_proc
                     (raise (ValueError "Test exception") : M unit)
                     (mkSt first_lock empty_world) in
  let '(r2, m, w) := run (__enter__ second_proc) second_lock (world s1) in
  r1 = Raise (ValueError "Test exception")
  ∧ r2 = Return tt ∧ holds m w = true.
Proof. vm_compute. repeat split. Qed.

Example test_default_lock_file_path :
  __init__ ArgNone = Return (mkLockManager "/app/data/oracle.lock" None).
Proof. reflexivity. Qed.

Example test_init_raises_type_error_for_invalid_path_type :
  __init__ (ArgOther "str")
  = Raise (TypeError "lock_file_path must be a Path object, got str").
Proof. reflexivity. Qed.

Example test_get_lock_holder_info_returns_metadata :
  fst (fst (run get_lock_holder_info second_lock world_held))
  = Return (Some [("pid", "4242"); ("hostname", "oracle-0");
                  ("timestamp", "2025-01-01T00:00:00+00:00")]).
Proof. vm_compute. reflexivity. Qed.

Example test_lock_acquisition_fails_when_already_held :
  fst (fst (run (__enter__ second_proc) second_lock world_held))
  = Raise (LockAcquisitionError "Lock already held by another instance: {}").
Proof. vm_compute. reflexivity. Qed.

(** ** Tests of [tests/test_configuration.py], replayed on the model

    The parser is given by its result on the document of the test. *)

Example test_parse_fails_on_incomplete_service_account :
  fst (_parse_and_validate_credentials_json
         (λ _, Some (JObj [("type", JStr "service_account");
                           ("client_email", JStr "ce");
                           ("project_id", JStr "pi")]))
         "document" resolver_start)
  = Raise (ValueError "Incomplete service_account credentials").
Proof. vm_compute. reflexivity. Qed.

Example test_parse_fails_on_incomplete_authorized_user :
  fst (_parse_and_validate_credentials_json
         (λ _, Some (JObj [("type", JStr "authorized_user");
                           ("client_id", JStr "ci");
                           ("client_secret", JStr "cs")]))
         "document" resolver_start)
  = Raise (ValueError "Incomplete authorized_user credentials").
Proof. vm_compute. reflexivity. Qed.

Example test_parse_fails_on_unsupported_type :
  fst (_parse_and_validate_credentials_json
         (λ _, Some (JObj [("type", JStr "unsupported")]))
         "document" resolver_start)
  = Raise (ValueError "Unsupported credential type").
Proof. vm_compute. reflexivity. Qed.

Example test_parse_fails_on_invalid_json :
  fst (_parse_and_validate_credentials_json (λ _, None)
         "{not valid json}" resolver_start)
  = Raise (ValueError "Invalid credentials JSON format")
  ∧ PyStr.contains "Invalid credentials JSON"
      "Invalid credentials JSON format" = true
  ∧ PyStr.contains "json}" "Invalid credentials JSON format" = false.
Proof. vm_compute. repeat split. Qed.

Example test_parse_succeeds_on_service_account :
  let '(r, st) :=
    _parse_and_validate_credentials_json
      (λ _, Some (JObj [("type", JStr "service_account");
                        ("private_key", JStr "pk");
                        ("client_email", JStr "ce");
                        ("project_id", JStr "pi")]))
      "document" resolver_start in
  r = Return 0 ∧ heap st !! 0 = Some service_account_descriptor.
Proof. vm_compute. repeat split. Qed.
